(** * pptr.dev: version lifespan index, search items and match rendering

    A shallow embedding of the algorithmic parts of the documentation
    viewer:

    - [PPTRProduct._initializeAPILifespan]: the heading scan of every
      release, followed by the "since" sweep (oldest to newest) and the
      "until" sweep (newest to oldest);
    - [PPTRSearchItem.createFor*]: the canonical text of a search item and
      the title tokens handed to the renderer;
    - [renderTokensWithMatches]: the DOM fragment built from tokens and
      matched offsets;
    - [PPTRProduct]: construction, [versionNames], [defaultVersionName],
      [getVersion], and the release priorities and comparator of
      [fetchReleaseAndReadme];
    - [PPTRVersion._renderElements], [_insertBox], [_showAPIClass] and
      [_scrollAnchor] of main.js, and [PPTRSearchItem.iconElement] and
      [subtitleElement], over a store of DOM nodes;
    - [renderTokensWithMatches] once more, with the name check and the
      lower-casing of [document.createElement].

    JavaScript strings are sequences of UTF-16 code units; they are modelled
    as lists of code units ([N]).  A JavaScript [Map] keyed by strings is a
    [gmap]; the release array is a list read and written by index.  A thrown
    exception is the left injection of a sum.

    The release objects of the array are pairwise distinct (they are parsed
    from JSON), and every release gets outline objects of its own, so the
    in-place updates of the sweeps are updates of one array slot.  Matched
    offsets are integers.

    [document.createElement] refuses a name that is not a valid element
    name and writes an accepted name in lower case.  The renderer is
    embedded twice: [Render] builds the fragment from tokens whose tag
    names are accepted and in lower case, where the call neither throws
    nor changes the name; [Checked] is the renderer with the check and the
    lower-casing, and [CheckedFacts] relates the two. *)

From Stdlib Require Import String Ascii NArith ZArith List Bool Lia.
From stdpp Require Import base option list gmap fin_maps.

Local Open Scope N_scope.
Local Open Scope nat_scope.

(** ** JavaScript strings *)

Module JS.

Abbreviation jsstring := (list N).

(** A source literal, as its code units. *)
Definition lit (s : string) : jsstring :=
  (λ a, N_of_ascii a) <$> list_ascii_of_string s.

(** [s.length] *)
Definition length (s : jsstring) : nat := List.length s.

(** [s.substring(a, b)]: both indices are clamped to the length and
    swapped when out of order. *)
Definition substring (s : jsstring) (a b : nat) : jsstring :=
  let a' := a `min` length s in
  let b' := b `min` length s in
  let lo := a' `min` b' in
  let hi := a' `max` b' in
  take (hi - lo) (drop lo s).

(** [s.startsWith(p)] *)
Fixpoint startsWith (s p : jsstring) : bool :=
  match p, s with
  | [], _ => true
  | c :: p', d :: s' => (c =? d)%N && startsWith s' p'
  | _ :: _, [] => false
  end.

(** [s.split(sep)] for a separator of one code unit. *)
Fixpoint split (sep : N) (s : jsstring) : list jsstring :=
  match s with
  | [] => [[]]
  | c :: s' =>
      if (c =? sep)%N then [] :: split sep s'
      else match split sep s' with
           | [] => [[c]]
           | w :: ws => (c :: w) :: ws
           end
  end.

(** Truthiness of a string value: the empty string is falsy. *)
Definition truthy (s : jsstring) : bool :=
  match s with [] => false | _ => true end.

End JS.

Abbreviation jsstring := (list N).

(** ** The regular expressions of the heading scan

    The four patterns only use literals, greedy repetitions of a character
    class, one capturing group around such a repetition, and the end
    anchor.  The matcher below is the backtracking matcher of the language
    restricted to these forms. *)

Module Regex.

(** [\w] *)
Definition word (c : N) : bool :=
  ((48 <=? c) && (c <=? 57) || (65 <=? c) && (c <=? 90)
   || (c =? 95) || (97 <=? c) && (c <=? 122))%N.

(** [\s]: white space and line terminators. *)
Definition space (c : N) : bool :=
  ((9 <=? c) && (c <=? 13) || (c =? 32) || (c =? 160) || (c =? 5760)
   || (8192 <=? c) && (c <=? 8202) || (c =? 8232) || (c =? 8233)
   || (c =? 8239) || (c =? 8287) || (c =? 12288) || (c =? 65279))%N.

(** [[\w$]] *)
Definition word_or_dollar (c : N) : bool := word c || (c =? 36)%N.

Inductive item :=
  | Lit (s : jsstring)                     (* literal text *)
  | Rep (lo : nat) (cls : N → bool)        (* cls{lo,}, greedy *)
  | Cap (lo : nat) (cls : N → bool)        (* (cls{lo,}), group 1 *)
  | Eos.                                   (* $ *)

(** Length of the longest prefix inside the class. *)
Fixpoint span (cls : N → bool) (s : jsstring) : nat :=
  match s with
  | c :: s' => if cls c then S (span cls s') else 0
  | [] => 0
  end.

(** Greedy choice with backtracking: try [k], [k-1], ... down to [lo]. *)
Fixpoint try_counts {A} (k lo : nat) (cont : nat → option A) : option A :=
  if k <? lo then None
  else match cont k with
       | Some r => Some r
       | None => match k with
                 | 0 => None
                 | S k' => try_counts k' lo cont
                 end
       end.

Fixpoint strip_prefix (p s : jsstring) : option jsstring :=
  match p, s with
  | [], _ => Some s
  | c :: p', d :: s' => if (c =? d)%N then strip_prefix p' s' else None
  | _ :: _, [] => None
  end.

(** Match the items at the start of [s]; the result is the text of
    group 1 (empty when the pattern has no group). *)
Fixpoint match_here (p : list item) (s : jsstring) (g : jsstring)
  : option jsstring :=
  match p with
  | [] => Some g
  | Lit l :: p' =>
      match strip_prefix l s with
      | Some s' => match_here p' s' g
      | None => None
      end
  | Rep lo cls :: p' =>
      try_counts (span cls s) lo (λ k, match_here p' (drop k s) g)
  | Cap lo cls :: p' =>
      try_counts (span cls s) lo (λ k, match_here p' (drop k s) (take k s))
  | Eos :: p' =>
      match s with
      | [] => match_here p' s g
      | _ => None
      end
  end.

(** The leftmost match of an unanchored pattern: [re.test(s)] holds when
    the result is [Some g], and [g] is then [s.match(re)[1]]. *)
Fixpoint exec (p : list item) (s : jsstring) : option jsstring :=
  match match_here p s [] with
  | Some g => Some g
  | None => match s with
            | [] => None
            | _ :: s' => exec p s'
            end
  end.

End Regex.

(** ** The lifespan index *)

(** The three kinds of members of a class. *)
Inductive SymbolKind := Event | Method | Namespace.

(** The outline object created for a class heading. *)
Module ClassOutline.
Record t := mk {
  name : jsstring;
  since : jsstring;
  until : jsstring;
  (* Maps of name -> first introduced version *)
  eventsSince : gmap jsstring jsstring;
  methodsSince : gmap jsstring jsstring;
  namespacesSince : gmap jsstring jsstring;
  (* Maps of name -> first removed version *)
  eventsUntil : gmap jsstring jsstring;
  methodsUntil : gmap jsstring jsstring;
  namespacesUntil : gmap jsstring jsstring;
}.
End ClassOutline.
Abbreviation ClassOutline := ClassOutline.t.

(** A release object: the fields the index reads, and the
    [classesLifespan] property the constructor attaches. *)
Module Release.
Record t := mk {
  name : jsstring;
  apiText : jsstring;
  classesLifespan : gmap jsstring ClassOutline;
}.
End Release.
Abbreviation Release := Release.t.

(** The exception raised by reading [property] of [null]. *)
Inductive Exception := TypeError (property : string).

Module Lifespan.
Import Regex.

Definition sinceOf (k : SymbolKind) (o : ClassOutline) : gmap jsstring jsstring :=
  match k with
  | Event => ClassOutline.eventsSince o
  | Method => ClassOutline.methodsSince o
  | Namespace => ClassOutline.namespacesSince o
  end.

Definition untilOf (k : SymbolKind) (o : ClassOutline) : gmap jsstring jsstring :=
  match k with
  | Event => ClassOutline.eventsUntil o
  | Method => ClassOutline.methodsUntil o
  | Namespace => ClassOutline.namespacesUntil o
  end.

(** [/### class:\s+(\w+)\s*$/] *)
Definition classRegex : list item :=
  [Lit (JS.lit "### class:"); Rep 1 space; Cap 1 word; Rep 0 space; Eos].
(** [/#### event:\s+'(\w+)'\s*$/] *)
Definition eventRegex : list item :=
  [Lit (JS.lit "#### event:"); Rep 1 space; Lit (JS.lit "'"); Cap 1 word;
   Lit (JS.lit "'"); Rep 0 space; Eos].
(** [/#### \w+\.([\w$]+)\(/] *)
Definition methodRegex : list item :=
  [Lit (JS.lit "#### "); Rep 1 word; Lit (JS.lit "."); Cap 1 word_or_dollar;
   Lit (JS.lit "(")].
(** [/#### \w+\.(\w+)\s*$/] *)
Definition nsRegex : list item :=
  [Lit (JS.lit "#### "); Rep 1 word; Lit (JS.lit "."); Cap 1 word;
   Rep 0 space; Eos].

(** [release.apiText.split('\n').filter(line => line.startsWith('###'))] *)
Definition titles (r : Release) : list jsstring :=
  List.filter (λ line, JS.startsWith line (JS.lit "###"))
              (JS.split 10%N (Release.apiText r)).

(** The object literal assigned to [classOutline]. *)
Definition newOutline (className releaseName : jsstring) : ClassOutline :=
  ClassOutline.mk className releaseName [] ∅ ∅ ∅ ∅ ∅ ∅.

(** [classOutline.<kind>Since.set(name, version)] *)
Definition setSince (k : SymbolKind) (n v : jsstring) (o : ClassOutline)
  : ClassOutline :=
  match o with
  | ClassOutline.mk nm s u es ms ns eu mu nu =>
      match k with
      | Event => ClassOutline.mk nm s u (<[n:=v]> es) ms ns eu mu nu
      | Method => ClassOutline.mk nm s u es (<[n:=v]> ms) ns eu mu nu
      | Namespace => ClassOutline.mk nm s u es ms (<[n:=v]> ns) eu mu nu
      end
  end.

(** [if (classOutline) release.classesLifespan.set(classOutline.name, classOutline)] *)
Definition seal (m : gmap jsstring ClassOutline) (cur : option ClassOutline)
  : gmap jsstring ClassOutline :=
  match cur with
  | Some o => <[ClassOutline.name o := o]> m
  | None => m
  end.

(** A member heading: [console.assert] only logs, so with no open class
    the following property read of [null] throws. *)
Definition addSymbol (k : SymbolKind) (property : string)
    (n releaseName : jsstring) (cur : option ClassOutline)
  : Exception + option ClassOutline :=
  match cur with
  | None => inl (TypeError property)
  | Some o => inr (Some (setSince k n releaseName o))
  end.

(** One iteration of [for (const title of titles)]: each [test] and the
    [match] that follows it are one call of [exec]. *)
Definition scan_title (releaseName : jsstring)
    (st : gmap jsstring ClassOutline * option ClassOutline) (title : jsstring)
  : Exception + (gmap jsstring ClassOutline * option ClassOutline) :=
  let '(m, cur) := st in
  match exec classRegex title with
  | Some className => inr (seal m cur, Some (newOutline className releaseName))
  | None =>
    match exec eventRegex title with
    | Some eventName =>
        match addSymbol Event "eventsSince" eventName releaseName cur with
        | inl e => inl e | inr cur' => inr (m, cur') end
    | None =>
      match exec methodRegex title with
      | Some methodName =>
          match addSymbol Method "methodsSince" methodName releaseName cur with
          | inl e => inl e | inr cur' => inr (m, cur') end
      | None =>
        match exec nsRegex title with
        | Some nsName =>
            match addSymbol Namespace "namespacesSince" nsName releaseName cur with
            | inl e => inl e | inr cur' => inr (m, cur') end
        | None => inr (m, cur)
        end
      end
    end
  end.

Fixpoint scan_titles (releaseName : jsstring) (ts : list jsstring)
    (st : gmap jsstring ClassOutline * option ClassOutline)
  : Exception + (gmap jsstring ClassOutline * option ClassOutline) :=
  match ts with
  | [] => inr st
  | t :: ts' =>
      match scan_title releaseName st t with
      | inl e => inl e
      | inr st' => scan_titles releaseName ts' st'
      end
  end.

(** The body of the first loop for one release. *)
Definition scan_release (r : Release) : Exception + Release :=
  match scan_titles (Release.name r) (titles r) (∅, None) with
  | inl e => inl e
  | inr (m, cur) =>
      inr (Release.mk (Release.name r) (Release.apiText r) (seal m cur))
  end.

(** The first loop: the first release whose scan throws aborts it. *)
Fixpoint scan_releases (rs : list Release) : Exception + list Release :=
  match rs with
  | [] => inr []
  | r :: rs' =>
      match scan_release r with
      | inl e => inl e
      | inr r' =>
          match scan_releases rs' with
          | inl e => inl e
          | inr out => inr (r' :: out)
          end
      end
  end.

(** *** "since" sweep *)

(** [for ([name, since] of previous) if (current.has(name)) current.set(name, since)] *)
Definition carrySince (previous current : gmap jsstring jsstring)
  : gmap jsstring jsstring :=
  map_fold (λ n since cur,
              if decide (is_Some (cur !! n)) then <[n:=since]> cur else cur)
           current previous.

Definition since_class (previous : option ClassOutline) (o : ClassOutline)
  : ClassOutline :=
  match previous with
  | None => o
  | Some p =>
      ClassOutline.mk (ClassOutline.name o) (ClassOutline.since p)
        (ClassOutline.until o)
        (carrySince (ClassOutline.eventsSince p) (ClassOutline.eventsSince o))
        (carrySince (ClassOutline.methodsSince p) (ClassOutline.methodsSince o))
        (carrySince (ClassOutline.namespacesSince p) (ClassOutline.namespacesSince o))
        (ClassOutline.eventsUntil o) (ClassOutline.methodsUntil o)
        (ClassOutline.namespacesUntil o)
  end.

(** [for ([className, classOutline] of release.classesLifespan) ...] *)
Definition since_release (previousRelease release : Release) : Release :=
  Release.mk (Release.name release) (Release.apiText release)
    (map_imap (λ className o,
         Some (since_class (Release.classesLifespan previousRelease !! className) o))
       (Release.classesLifespan release)).

(** Iteration [i] of the sweep, on the array of releases. *)
Definition since_iter (rs : list Release) (i : nat) : list Release :=
  match rs !! (i + 1), rs !! i with
  | Some previousRelease, Some release =>
      <[i := since_release previousRelease release]> rs
  | _, _ => rs
  end.

(** [for (let i = length - 2; i >= 0; --i)] *)
Definition since_phase (rs : list Release) : list Release :=
  fold_left since_iter (reverse (seq 0 (length rs - 1))) rs.

(** *** "until" sweep *)

(** The branch taken when the class is missing from the newer release. *)
Definition vanishUntil (nextName : jsstring) (current : gmap jsstring jsstring)
  : gmap jsstring jsstring :=
  map_fold (λ n _ cur, <[n:=nextName]> cur) current current.

(** The loop over the keys of [classOutline.<kind>Since]. *)
Definition resolveUntil (nextName : jsstring)
    (nextUntil nextSince currentSince currentUntil : gmap jsstring jsstring)
  : gmap jsstring jsstring :=
  map_fold (λ n _ cur,
              match nextUntil !! n with
              | Some v => <[n:=v]> cur
              | None =>
                  if decide (is_Some (nextSince !! n)) then cur
                  else <[n:=nextName]> cur
              end)
           currentUntil currentSince.

Definition until_class (nextName : jsstring) (next : option ClassOutline)
    (o : ClassOutline) : ClassOutline :=
  match next with
  | None =>
      ClassOutline.mk (ClassOutline.name o) (ClassOutline.since o) nextName
        (ClassOutline.eventsSince o) (ClassOutline.methodsSince o)
        (ClassOutline.namespacesSince o)
        (vanishUntil nextName (ClassOutline.eventsUntil o))
        (vanishUntil nextName (ClassOutline.methodsUntil o))
        (vanishUntil nextName (ClassOutline.namespacesUntil o))
  | Some nx =>
      ClassOutline.mk (ClassOutline.name o) (ClassOutline.since o)
        (ClassOutline.until nx)
        (ClassOutline.eventsSince o) (ClassOutline.methodsSince o)
        (ClassOutline.namespacesSince o)
        (resolveUntil nextName (ClassOutline.eventsUntil nx)
           (ClassOutline.eventsSince nx) (ClassOutline.eventsSince o)
           (ClassOutline.eventsUntil o))
        (resolveUntil nextName (ClassOutline.methodsUntil nx)
           (ClassOutline.methodsSince nx) (ClassOutline.methodsSince o)
           (ClassOutline.methodsUntil o))
        (resolveUntil nextName (ClassOutline.namespacesUntil nx)
           (ClassOutline.namespacesSince nx) (ClassOutline.namespacesSince o)
           (ClassOutline.namespacesUntil o))
  end.

Definition until_release (nextRelease release : Release) : Release :=
  Release.mk (Release.name release) (Release.apiText release)
    (map_imap (λ className o,
         Some (until_class (Release.name nextRelease)
                 (Release.classesLifespan nextRelease !! className) o))
       (Release.classesLifespan release)).

Definition until_iter (rs : list Release) (i : nat) : list Release :=
  match rs !! i, rs !! (i + 1) with
  | Some nextRelease, Some release =>
      <[i + 1 := until_release nextRelease release]> rs
  | _, _ => rs
  end.

(** [for (let i = 0; i < length - 1; ++i)] *)
Definition until_phase (rs : list Release) : list Release :=
  fold_left until_iter (seq 0 (length rs - 1)) rs.

(** The whole method, as run by the constructor. *)
Definition _initializeAPILifespan (releases : list Release)
  : Exception + list Release :=
  match scan_releases releases with
  | inl e => inl e
  | inr scanned => inr (until_phase (since_phase scanned))
  end.

End Lifespan.


(** ** The DOM nodes the renderer builds *)

Module DOM.

#[warnings="-register-all"]
Inductive Node :=
  | Text (data : jsstring)
  | Element (tagName : jsstring) (childNodes : list Node)
  | DocumentFragment (childNodes : list Node).

Definition createTextNode (data : jsstring) : Node := Text data.

(** [document.createElement(tagName)] for a name that the document accepts
    and that has no upper-case letter; [Checked.createElement] is the call
    for any name. *)
Definition createElement (tagName : jsstring) : Node := Element tagName [].

Definition createDocumentFragment : Node := DocumentFragment [].

Definition childNodes (n : Node) : list Node :=
  match n with
  | Text _ => []
  | Element _ cs => cs
  | DocumentFragment cs => cs
  end.

(** [parent.appendChild(child)]: appending a document fragment moves its
    children into the parent.  (A text node is never a parent here.) *)
Definition appendChild (parent child : Node) : Node :=
  let added := match child with
               | DocumentFragment cs => cs
               | _ => [child]
               end in
  match parent with
  | Text d => Text d
  | Element t cs => Element t (cs ++ added)
  | DocumentFragment cs => DocumentFragment (cs ++ added)
  end.

(** [node.textContent = s]: the children are replaced by one text node,
    or by nothing when [s] is empty. *)
Definition setTextContent (n : Node) (s : jsstring) : Node :=
  let cs := match s with [] => [] | _ => [Text s] end in
  match n with
  | Text _ => Text s
  | Element t _ => Element t cs
  | DocumentFragment _ => DocumentFragment cs
  end.

(** [node.textContent] *)
Fixpoint textContent (n : Node) : jsstring :=
  match n with
  | Text d => d
  | Element _ cs => flat_map textContent cs
  | DocumentFragment cs => flat_map textContent cs
  end.

End DOM.

(** ** [renderTokensWithMatches] *)

Module Token.
Record t := mk {
  text : jsstring;
  tagName : option jsstring;   (* [None]: the property is missing *)
}.
End Token.
Abbreviation Token := Token.t.

Module Render.
Import DOM.

(** The tag to use where [token.tagName] is truthy. *)
Definition tagOf (token : Token) : option jsstring :=
  match Token.tagName token with
  | Some t => if JS.truthy t then Some t else None
  | None => None
  end.

(** The loop body of the branch for an empty [matches]. *)
Definition renderPlain (fragment : Node) (token : Token) : Node :=
  match tagOf token with
  | Some t =>
      let node := setTextContent (createElement t) (Token.text token) in
      appendChild fragment node
  | None => appendChild fragment (createTextNode (Token.text token))
  end.

(** The variables of the loop over one token. *)
Record LoopState := mkLoop {
  from : nat;
  lastInsideHighlight : bool;
  result : Node;
}.

Definition search_highlight : jsstring := JS.lit "search-highlight".

(** One iteration of [for (let to = 0; to <= token.text.length; ++to)]. *)
Definition scan_position (token : Token) (offset : nat) (matchesSet : gset Z)
    (st : LoopState) (to : nat) : LoopState :=
  let insideHighlight := bool_decide (Z.of_nat (to + offset) ∈ matchesSet) in
  if Bool.eqb insideHighlight (lastInsideHighlight st)
     && (to <? JS.length (Token.text token))
  then st
  else
    let flushed :=
      if from st <? to then
        let piece := JS.substring (Token.text token) (from st) to in
        let node :=
          if lastInsideHighlight st
          then setTextContent (createElement search_highlight) piece
          else createTextNode piece in
        (to, appendChild (result st) node)
      else (from st, result st) in
    mkLoop flushed.1 insideHighlight flushed.2.

(** The node built for one token, given the offset of its first
    character. *)
Definition renderToken (matchesSet : gset Z) (offset : nat) (token : Token)
  : Node :=
  let result0 :=
    match tagOf token with
    | Some t => createElement t
    | None => createDocumentFragment
    end in
  result
    (fold_left (scan_position token offset matchesSet)
       (seq 0 (S (JS.length (Token.text token))))
       (mkLoop 0 false result0)).

(** The loop body of the main branch: the state is the fragment and the
    running offset. *)
Definition renderMatched (matchesSet : gset Z) (st : Node * nat)
    (token : Token) : Node * nat :=
  (appendChild st.1 (renderToken matchesSet st.2 token),
   st.2 + JS.length (Token.text token)).

Definition renderTokensWithMatches (matches : list Z) (tokens : list Token)
  : Node :=
  match matches with
  | [] => fold_left renderPlain tokens createDocumentFragment
  | _ :: _ =>
      let matchesSet : gset Z := list_to_set matches in
      (fold_left (renderMatched matchesSet) tokens
         (createDocumentFragment, 0)).1
  end.

End Render.

(** ** Search items *)

(** The API entries are built by the documentation parser; only the
    properties the search items read are kept.  [paragraph] stands for the
    text of [element.querySelector('p')], when there is such an element. *)
Module APIClass.
Record t := mk {
  name : jsstring;
  loweredName : jsstring;
  paragraph : option jsstring;
}.
End APIClass.

Module APIMethod.
Record t := mk {
  apiClass : APIClass.t;
  name : jsstring;
  args : jsstring;
  paragraph : option jsstring;
}.
End APIMethod.

Module APIEvent.
Record t := mk {
  apiClass : APIClass.t;
  name : jsstring;
  paragraph : option jsstring;
}.
End APIEvent.

Module APINamespace.
Record t := mk {
  apiClass : APIClass.t;
  name : jsstring;
  paragraph : option jsstring;
}.
End APINamespace.

(** A class of the loaded version with its members, in document order. *)
Module APIClassEntry.
Record t := mk {
  apiClass : APIClass.t;
  events : list APIEvent.t;
  namespaces : list APINamespace.t;
  methods : list APIMethod.t;
}.
End APIClassEntry.

Module PPTRSearchItem.
Import DOM Render.

Record t := mk {
  text : jsstring;
  iconTagName : jsstring;
  titleRenderer : list Z → Node;
  description : jsstring;
}.

(** [desc ? desc.textContent : ''] *)
Definition descriptionOf (paragraph : option jsstring) : jsstring :=
  default [] paragraph.

Definition method_class : jsstring := JS.lit "search-item-api-method-class".
Definition method_name : jsstring := JS.lit "search-item-api-method-name".

Definition methodTokens (apiMethod : APIMethod.t) : list Token :=
  let className := APIClass.loweredName (APIMethod.apiClass apiMethod) in
  let name := APIMethod.name apiMethod in
  let args := APIMethod.args apiMethod in
  [Token.mk (className ++ JS.lit ".") (Some method_class);
   Token.mk (name ++ JS.lit "(" ++ args ++ JS.lit ")") (Some method_name)].

Definition createForMethod (apiMethod : APIMethod.t) : t :=
  let className := APIClass.loweredName (APIMethod.apiClass apiMethod) in
  let name := APIMethod.name apiMethod in
  let args := APIMethod.args apiMethod in
  let text := className ++ JS.lit "." ++ name ++ JS.lit "(" ++ args ++ JS.lit ")" in
  mk text (JS.lit "pptr-method-icon")
     (λ matches, renderTokensWithMatches matches (methodTokens apiMethod))
     (descriptionOf (APIMethod.paragraph apiMethod)).

Definition eventTokens (apiEvent : APIEvent.t) : list Token :=
  let className := APIClass.loweredName (APIEvent.apiClass apiEvent) in
  let name := APIEvent.name apiEvent in
  [Token.mk (className ++ JS.lit ".on(") (Some method_class);
   Token.mk (JS.lit "'" ++ name ++ JS.lit "'") (Some method_name);
   Token.mk (JS.lit ")") (Some method_class)].

Definition createForEvent (apiEvent : APIEvent.t) : t :=
  let className := APIClass.loweredName (APIEvent.apiClass apiEvent) in
  let name := APIEvent.name apiEvent in
  let text := className ++ JS.lit ".on('" ++ name ++ JS.lit "')" in
  mk text (JS.lit "pptr-event-icon")
     (λ matches, renderTokensWithMatches matches (eventTokens apiEvent))
     (descriptionOf (APIEvent.paragraph apiEvent)).

Definition namespaceTokens (apiNamespace : APINamespace.t) : list Token :=
  let className := APIClass.loweredName (APINamespace.apiClass apiNamespace) in
  let name := APINamespace.name apiNamespace in
  [Token.mk (className ++ JS.lit ".") (Some method_class);
   Token.mk name (Some method_name)].

Definition createForNamespace (apiNamespace : APINamespace.t) : t :=
  let className := APIClass.loweredName (APINamespace.apiClass apiNamespace) in
  let name := APINamespace.name apiNamespace in
  let text := className ++ JS.lit "." ++ name in
  mk text (JS.lit "pptr-ns-icon")
     (λ matches, renderTokensWithMatches matches (namespaceTokens apiNamespace))
     (descriptionOf (APINamespace.paragraph apiNamespace)).

Definition classTokens (apiClass : APIClass.t) : list Token :=
  [Token.mk (APIClass.name apiClass) (Some method_name)].

Definition createForClass (apiClass : APIClass.t) : t :=
  let className := APIClass.name apiClass in
  let text := className in
  mk text (JS.lit "pptr-class-icon")
     (λ matches, renderTokensWithMatches matches (classTokens apiClass))
     (descriptionOf (APIClass.paragraph apiClass)).

(** The loop of the [PPTRVersion] constructor that fills [_searchItems]. *)
Definition searchItems (classes : list APIClassEntry.t) : list t :=
  flat_map (λ c,
      createForClass (APIClassEntry.apiClass c)
      :: (createForEvent <$> APIClassEntry.events c)
      ++ (createForNamespace <$> APIClassEntry.namespaces c)
      ++ (createForMethod <$> APIClassEntry.methods c))
    classes.

End PPTRSearchItem.


(** ** Descriptions used in the proofs *)

Module LifespanSpec.
Import Lifespan.

(** *** The sweeps over the release array

    Both sweeps walk the array by index.  Each has a recursive description
    on the list, used in the proofs below. *)

Fixpoint since_sweep (rs : list Release) : list Release :=
  match rs with
  | [] => []
  | r :: rs' =>
      match since_sweep rs' with
      | [] => [r]
      | p :: tl => since_release p r :: p :: tl
      end
  end.

Fixpoint until_sweep (next : Release) (rs : list Release) : list Release :=
  match rs with
  | [] => []
  | r :: rs' => until_release next r :: until_sweep (until_release next r) rs'
  end.

(** An outline as the scan of release [releaseName] leaves it. *)
Definition fresh (releaseName : jsstring) (o : ClassOutline) : Prop :=
  ClassOutline.since o = releaseName
  ∧ ClassOutline.until o = []
  ∧ (∀ k n v, sinceOf k o !! n = Some v → v = releaseName)
  ∧ (∀ k, untilOf k o = ∅).

Definition scan_inv (releaseName : jsstring)
    (st : gmap jsstring ClassOutline * option ClassOutline) : Prop :=
  (∀ c o, st.1 !! c = Some o → fresh releaseName o)
  ∧ (∀ o, st.2 = Some o → fresh releaseName o).

(** [R] has the name, the classes and the members of [r]: the sweeps
    change versions, never what a release contains. *)
Definition same_members (r R : Release) : Prop :=
  Release.name R = Release.name r
  ∧ ∀ c,
      match Release.classesLifespan r !! c, Release.classesLifespan R !! c with
      | Some o0, Some o =>
          ∀ k n, is_Some (sinceOf k o !! n) ↔ is_Some (sinceOf k o0 !! n)
      | None, None => True
      | _, _ => False
      end.

(** *** Malformed heading lists *)

(** A heading the scan files under the open class. *)
Definition member_heading (title : jsstring) : Prop :=
  Regex.exec classRegex title = None
  ∧ (is_Some (Regex.exec eventRegex title)
     ∨ is_Some (Regex.exec methodRegex title)
     ∨ is_Some (Regex.exec nsRegex title)).

(** The heading list of [r] has a member heading with no class heading
    before it. *)
Definition malformed (r : Release) : Prop :=
  ∃ pre h post,
    titles r = pre ++ h :: post
    ∧ Forall (λ t, Regex.exec classRegex t = None) pre
    ∧ member_heading h.

(** [h] is the first such heading of [r]. *)
Definition offending (r : Release) (h : jsstring) : Prop :=
  ∃ pre post,
    titles r = pre ++ h :: post
    ∧ Forall (λ t, Regex.exec classRegex t = None ∧ ¬ member_heading t) pre
    ∧ member_heading h.

(** The properties whose read of [null] can throw. *)
Definition since_properties : list string :=
  ["eventsSince"; "methodsSince"; "namespacesSince"]%string.

(** Names used in the three-release scenario. *)
Definition Page : jsstring := JS.lit "Page".
Definition close : jsstring := JS.lit "close".

End LifespanSpec.

(** ** Descriptions of the rendered output *)

Module RenderSpec.
Import DOM Render.

(** Whether the character at local position [p] of a token that starts at
    [offset] is matched. *)
Definition inside (matchesSet : gset Z) (offset p : nat) : bool :=
  bool_decide (Z.of_nat (p + offset) ∈ matchesSet).

(** A run of a token: highlighted or plain, with its text. *)
Definition runNode (r : bool * jsstring) : Node :=
  if r.1 then Element search_highlight [Text r.2] else Text r.2.

(** The per-character highlight flags a list of runs stands for. *)
Definition flags (runs : list (bool * jsstring)) : list bool :=
  flat_map (λ r, replicate (length r.2) r.1) runs.

Definition alternating (l : list bool) : Prop :=
  ∀ i a b, l !! i = Some a → l !! S i = Some b → a ≠ b.

(** [runs] cuts [text] into its maximal runs of equal flag: the runs
    concatenate to the text, carry the flag of each of their characters,
    are non-empty, and neighbours differ in flag. *)
Record maximal_runs (hl : nat → bool) (text : jsstring)
    (runs : list (bool * jsstring)) : Prop := {
  runs_text : mjoin (snd <$> runs) = text;
  runs_flags : flags runs = hl <$> seq 0 (length text);
  runs_nonempty : Forall (λ r, r.2 ≠ []) runs;
  runs_alternate : alternating (fst <$> runs);
}.

(** What a token contributes to the fragment, given its children. *)
Definition wrapToken (token : Token) (chunk : list Node) : list Node :=
  match tagOf token with
  | Some t => [Element t chunk]
  | None => chunk
  end.

(** The node of a token in the branch for an empty [matches]. *)
Definition plainNode (token : Token) : Node :=
  match tagOf token with
  | Some t => Element t (match Token.text token with
                         | [] => []
                         | _ => [Text (Token.text token)]
                         end)
  | None => Text (Token.text token)
  end.

Definition totalLength (tokens : list Token) : nat :=
  sum_list (JS.length ∘ Token.text <$> tokens).

(** The offset of the first character of token [i]. *)
Definition offsetOf (tokens : list Token) (i : nat) : nat :=
  totalLength (take i tokens).

(** The offsets of [matches] that point into the concatenated text. *)
Definition validOffsets (tokens : list Token) (matches : list Z) : list Z :=
  List.filter (λ z, (0 <=? z)%Z && (z <? Z.of_nat (totalLength tokens))%Z)
              matches.

(** The node a token's children are appended to. *)
Definition shell (token : Token) (cs : list Node) : Node :=
  match tagOf token with
  | Some t => Element t cs
  | None => DocumentFragment cs
  end.

(** A node with its empty text nodes taken out, at every depth. *)
Fixpoint removeEmptyText (n : Node) : Node :=
  let keep := λ c, match c with
                   | Text [] => []
                   | _ => [removeEmptyText c]
                   end in
  match n with
  | Text d => Text d
  | Element t cs => Element t (flat_map keep cs)
  | DocumentFragment cs => DocumentFragment (flat_map keep cs)
  end.

(** What a token none of whose characters is matched contributes in the
    main branch. *)
Definition unmatchedNodes (token : Token) : list Node :=
  wrapToken token (match Token.text token with
                   | [] => []
                   | _ => [Text (Token.text token)]
                   end).

(** The invariant of the loop over the positions of one token, before
    position [t] is visited. *)
Definition loop_inv (hl : nat → bool) (token : Token) (t : nat)
    (st : LoopState) : Prop :=
  from st ≤ t
  ∧ (1 ≤ t → from st < t)
  ∧ (∀ p, from st ≤ p < t → hl p = lastInsideHighlight st)
  ∧ (0 < from st → hl (from st - 1) = negb (lastInsideHighlight st))
  ∧ ∃ runs,
      result st = shell token (runNode <$> runs)
      ∧ maximal_runs hl (take (from st) (Token.text token)) runs.

End RenderSpec.

(** Sample inputs. *)
Module Scenario.

Definition nl : jsstring := [10%N].

(** Newest first: v1.1.0 and v0.9.0 document [page.close()], v1.0.0 does
    not. *)
Definition r11 : Release :=
  Release.mk (JS.lit "v1.1.0")
    (JS.lit "### class: Page" ++ nl ++ JS.lit "#### page.close()") ∅.
Definition r10 : Release :=
  Release.mk (JS.lit "v1.0.0")
    (JS.lit "# API" ++ nl ++ JS.lit "### class: Page" ++ nl
     ++ JS.lit "#### page.click(selector)") ∅.
Definition r09 : Release :=
  Release.mk (JS.lit "v0.9.0")
    (JS.lit "### class: Page" ++ nl ++ JS.lit "#### event: 'load'" ++ nl
     ++ JS.lit "#### page.close()" ++ nl ++ JS.lit "#### page.mouse") ∅.

(** A class that the newer release no longer has. *)
Definition q2 : Release :=
  Release.mk (JS.lit "v2.0.0") (JS.lit "### class: Browser") ∅.
Definition q1 : Release :=
  Release.mk (JS.lit "v1.0.0")
    (JS.lit "### class: Browser" ++ nl ++ JS.lit "### class: Page" ++ nl
     ++ JS.lit "#### page.close()") ∅.

(** Member headings with no class heading before them. *)
Definition bad1 : Release :=
  Release.mk (JS.lit "v1.0.0") (JS.lit "#### event: 'load'") ∅.
Definition bad2 : Release :=
  Release.mk (JS.lit "v2.0.0") (JS.lit "#### event: 'close'") ∅.

(** [page.click(selector)] as the two title tokens of a method. *)
Definition click : APIMethod.t :=
  APIMethod.mk (APIClass.mk (JS.lit "Page") (JS.lit "page") None)
    (JS.lit "click") (JS.lit "selector") None.
Definition clickTokens : list Token := PPTRSearchItem.methodTokens click.

(** The class [Page] with its one method, as an entry of the loaded
    version. *)
Definition pageEntry : APIClassEntry.t :=
  APIClassEntry.mk (APIMethod.apiClass click) [] [] [click].

(** A token without tag and without text. *)
Definition emptyToken : Token := Token.mk [] None.

End Scenario.

(** ** Descriptions of the constructed index *)

Module IndexSpec.
Import Lifespan.

(** Release [R] documents class [c]. *)
Definition has_class (R : Release) (c : jsstring) : Prop :=
  is_Some (Release.classesLifespan R !! c).

(** Release [R] documents member [n], of kind [k], in class [c]. *)
Definition has_member (R : Release) (c : jsstring) (k : SymbolKind)
    (n : jsstring) : Prop :=
  ∃ o, Release.classesLifespan R !! c = Some o ∧ is_Some (sinceOf k o !! n).

(** A non-empty string of characters of one class. *)
Definition identifier (cls : N → bool) (s : jsstring) : Prop :=
  s ≠ [] ∧ Forall (λ c, cls c = true) s.

(** The character class of the names of a kind of member. *)
Definition name_class (k : SymbolKind) : N → bool :=
  match k with
  | Method => Regex.word_or_dollar
  | _ => Regex.word
  end.

(** Whether a pattern has a capturing group. *)
Definition has_cap (p : list Regex.item) : bool :=
  existsb (λ it, match it with Regex.Cap _ _ => true | _ => false end) p.

(** The names of an outline are identifiers. *)
Definition names_ok (o : ClassOutline) : Prop :=
  identifier Regex.word (ClassOutline.name o)
  ∧ ∀ k n, is_Some (sinceOf k o !! n) → identifier (name_class k) n.

(** The member a heading files under the open class, if it is a member
    heading: the patterns are tried in the order of the scan. *)
Definition member_of (t : jsstring) : option (SymbolKind * jsstring) :=
  match Regex.exec classRegex t with
  | Some _ => None
  | None =>
      match Regex.exec eventRegex t with
      | Some n => Some (Event, n)
      | None =>
          match Regex.exec methodRegex t with
          | Some n => Some (Method, n)
          | None =>
              match Regex.exec nsRegex t with
              | Some n => Some (Namespace, n)
              | None => None
              end
          end
      end
  end.

(** The headings up to the next class heading. *)
Fixpoint section (ts : list jsstring) : list jsstring :=
  match ts with
  | [] => []
  | t :: ts' =>
      match Regex.exec classRegex t with
      | Some _ => []
      | None => t :: section ts'
      end
  end.

End IndexSpec.

(** More sample inputs. *)
Module Scenario2.

(** A release that opens class [Page] twice. *)
Definition dup : Release :=
  Release.mk (JS.lit "v3.0.0")
    (JS.lit "### class: Page" ++ Scenario.nl ++ JS.lit "#### page.click()"
     ++ Scenario.nl ++ JS.lit "### class: Page" ++ Scenario.nl
     ++ JS.lit "#### page.close()") ∅.

End Scenario2.

(** ** More descriptions of the rendered output *)

Module RenderSpec2.
Import DOM Render.

(** The text inside the [search-highlight] elements of a node. *)
Fixpoint highlighted (n : Node) : jsstring :=
  match n with
  | Text _ => []
  | Element t cs =>
      if bool_decide (t = search_highlight) then flat_map textContent cs
      else flat_map highlighted cs
  | DocumentFragment cs => flat_map highlighted cs
  end.

(** The characters of [s] whose offsets, counted from [off], are in the
    set. *)
Fixpoint matchedText (M : gset Z) (off : nat) (s : jsstring) : jsstring :=
  match s with
  | [] => []
  | c :: s' =>
      (if bool_decide (Z.of_nat off ∈ M) then [c] else [])
      ++ matchedText M (S off) s'
  end.

End RenderSpec2.

(** ** The product: construction and version lookup *)

Module PPTRProduct.
Import Lifespan.

Record t := mk {
  _readmeText : jsstring;
  _releases : list Release;
  _fetchTimestamp : Z;
}.

(** [new PPTRProduct(readmeText, releases, fetchTimestamp)]: the fields are
    stored and the lifespan index is computed in the release array. *)
Definition new (readmeText : jsstring) (releases : list Release)
    (fetchTimestamp : Z) : Exception + t :=
  match _initializeAPILifespan releases with
  | inl e => inl e
  | inr indexed => inr (mk readmeText indexed fetchTimestamp)
  end.

(** [this._releases[1].name]; reading [name] of a missing slot throws. *)
Definition defaultVersionName (p : t) : Exception + jsstring :=
  match _releases p !! 1 with
  | Some release => inr (Release.name release)
  | None => inl (TypeError "name")
  end.

Definition versionNames (p : t) : list jsstring :=
  Release.name <$> _releases p.

(** [getVersion(name)]: [None] is [null]; otherwise the arguments handed to
    [new PPTRVersion]. *)
Definition getVersion (p : t) (name : jsstring)
  : option (jsstring * Release) :=
  match find (λ release, bool_decide (Release.name release = name))
             (_releases p) with
  | None => None
  | Some release => Some (_readmeText p, release)
  end.

End PPTRProduct.

(** ** Release priorities

    The numbers of the priority computation.  An integer of magnitude at
    most 2^53 is held exactly by a double, and sums, differences and
    products of such integers are exact as long as they stay in that range;
    the two zeros are not told apart.  Any other result ([Unknown]: a
    rounded value, an infinity, or whatever follows from one) is left
    undetermined. *)

Module Priority.

Inductive Number := NaN | Int (z : Z) | Unknown.

Definition exact (z : Z) : Number :=
  if (Z.abs z <=? 2 ^ 53)%Z then Int z else Unknown.

Definition arith (op : Z → Z → Z) (a b : Number) : Number :=
  match a, b with
  | NaN, _ | _, NaN => NaN
  | Int x, Int y => exact (op x y)
  | _, _ => Unknown
  end.

Definition add := arith Z.add.
Definition sub := arith Z.sub.
Definition mul := arith Z.mul.

(** A decimal digit. *)
Definition digit (c : N) : bool := ((48 <=? c) && (c <=? 57))%N.

Definition digitsValue (ds : jsstring) : Z :=
  fold_left (λ acc c, (10 * acc + (Z.of_N c - 48))%Z) ds 0%Z.

(** [parseInt(s, 10)]: leading white space is skipped, one sign is read,
    then the longest run of digits; without a digit the result is NaN. *)
Definition parseInt10 (s : jsstring) : Number :=
  let s1 := drop (Regex.span Regex.space s) s in
  let '(sign, s2) :=
    match s1 with
    | c :: r => if (c =? 45)%N then ((-1)%Z, r)
                else if (c =? 43)%N then (1%Z, r)
                else (1%Z, s1)
    | [] => (1%Z, s1)
    end in
  let ds := take (Regex.span digit s2) s2 in
  match ds with
  | [] => NaN
  | _ => exact (sign * digitsValue ds)
  end.

(** [name.substring(1).split('.').map(e => parseInt(e, 10))] *)
Definition components (name : jsstring) : list Number :=
  parseInt10 <$> JS.split 46 (JS.substring name 1 (JS.length name)).

(** An element bound by the destructuring pattern; a missing one is
    [undefined], which is NaN in arithmetic. *)
Definition component (i : nat) (cs : list Number) : Number :=
  default NaN (cs !! i).

(** [major * 100 * 100 + minor * 100 + patch] *)
Definition priority (name : jsstring) : Number :=
  let cs := components name in
  let major := component 0 cs in
  let minor := component 1 cs in
  let patch := component 2 cs in
  add (add (mul (mul major (Int 100)) (Int 100)) (mul minor (Int 100))) patch.

(** The comparator of [releases.sort]: [(a, b) => b.priority - a.priority],
    on the names of [a] and [b]. *)
Definition comparator (a b : jsstring) : Number :=
  sub (priority b) (priority a).

(** The name [c M.m.p rest] of a release: one character, three runs of
    digits separated by dots, and a rest that does not go on with a digit. *)
Definition versionName (c : N) (M m p rest : jsstring) : jsstring :=
  c :: M ++ 46%N :: m ++ 46%N :: p ++ rest.

Definition digits (ds : jsstring) : Prop :=
  ds ≠ [] ∧ Forall (λ c, digit c = true) ds.

Definition no_digit_ahead (rest : jsstring) : Prop :=
  match rest with [] => True | c :: _ => digit c = false end.

(** The number the priority of a version is meant to be. *)
Definition weight (M m p : jsstring) : Z :=
  (digitsValue M * 10000 + digitsValue m * 100 + digitsValue p)%Z.

End Priority.

Module PrioritySpec.
Import Priority.

(** The numbers of a version [M.m.p]. *)
Definition triple (M m p : jsstring) : Z * Z * Z :=
  (digitsValue M, digitsValue m, digitsValue p).

(** Lexicographic order of the numbers: [a] is the newer version. *)
Definition newer (a b : Z * Z * Z) : Prop :=
  let '(Ma, ma, pa) := a in
  let '(Mb, mb, pb) := b in
  (Mb < Ma ∨ Mb = Ma ∧ (mb < ma ∨ mb = ma ∧ pb < pa))%Z.

(** Number of dots of a name. *)
Definition dots (s : jsstring) : nat := count_occ N.eq_dec s 46%N.

End PrioritySpec.

(** ** The document as a store of nodes

    The page builder moves existing nodes into new boxes and later looks at
    a node's neighbours, and a search item keeps the nodes it has created.
    Nodes have an identity there: a node is a reference into a store that
    holds, for every node, its kind, its parent and its children.  Only
    text nodes and elements of an HTML document occur; references are
    those of nodes of the store. *)

Module Doc.

Abbreviation ref := nat.

Inductive Kind :=
  | TextKind (data : jsstring)
  | ElementKind (localName : jsstring).

Record Obj := mkObj {
  kind : Kind;
  parentNode : option ref;
  childNodes : list ref;
}.

Abbreviation Store := (gmap ref Obj).

Inductive Thrown :=
  | DOMException (name : string)
  | Uncaught (e : Exception).

(** Computations on the store that may throw. *)
Definition M (A : Type) : Type := Store → Thrown + A * Store.

Definition ret {A} (a : A) : M A := λ σ, inr (a, σ).

Definition bind {A B} (m : M A) (f : A → M B) : M B :=
  λ σ, match m σ with
       | inl e => inl e
       | inr (a, σ') => f a σ'
       end.

Definition throw {A} (e : Thrown) : M A := λ _, inl e.

Notation "'let*' x ':=' m 'in' k" := (bind m (λ x, k))
  (at level 10, x name, m at level 100, k at level 200).

Definition toASCIIUpper (s : jsstring) : jsstring :=
  (λ c, if (97 <=? c) && (c <=? 122) then c - 32 else c)%N <$> s.

Definition toASCIILower (s : jsstring) : jsstring :=
  (λ c, if (65 <=? c) && (c <=? 90) then c + 32 else c)%N <$> s.

(** The names [document.createElement] accepts: the [Name] production of
    XML, which the DOM standard prescribes for element names, read over
    UTF-16 code units; a high surrogate from D800 to DB7F followed by a
    low surrogate stands for a character from U+10000 to U+EFFFF. *)
Definition nameStartChar (c : N) : bool :=
  ((c =? 58) || (65 <=? c) && (c <=? 90) || (c =? 95)
   || (97 <=? c) && (c <=? 122)
   || (0xC0 <=? c) && (c <=? 0xD6) || (0xD8 <=? c) && (c <=? 0xF6)
   || (0xF8 <=? c) && (c <=? 0x2FF) || (0x370 <=? c) && (c <=? 0x37D)
   || (0x37F <=? c) && (c <=? 0x1FFF) || (0x200C <=? c) && (c <=? 0x200D)
   || (0x2070 <=? c) && (c <=? 0x218F) || (0x2C00 <=? c) && (c <=? 0x2FEF)
   || (0x3001 <=? c) && (c <=? 0xD7FF) || (0xF900 <=? c) && (c <=? 0xFDCF)
   || (0xFDF0 <=? c) && (c <=? 0xFFFD))%N.

Definition nameChar (c : N) : bool :=
  (nameStartChar c || (c =? 45) || (c =? 46) || (48 <=? c) && (c <=? 57)
   || (c =? 0xB7) || (0x300 <=? c) && (c <=? 0x36F)
   || (0x203F <=? c) && (c <=? 0x2040))%N.

Definition highSurrogate (c : N) : bool :=
  ((0xD800 <=? c) && (c <=? 0xDB7F))%N.

Definition lowSurrogate (c : N) : bool :=
  ((0xDC00 <=? c) && (c <=? 0xDFFF))%N.

Fixpoint nameChars (s : jsstring) : bool :=
  match s with
  | [] => true
  | c :: r =>
      if highSurrogate c then
        match r with
        | l :: r' => lowSurrogate l && nameChars r'
        | [] => false
        end
      else nameChar c && nameChars r
  end.

Definition validName (s : jsstring) : bool :=
  match s with
  | [] => false
  | c :: r =>
      if highSurrogate c then
        match r with
        | l :: r' => lowSurrogate l && nameChars r'
        | [] => false
        end
      else nameStartChar c && nameChars r
  end.

(** [node.tagName]: the upper-cased name of an element, [undefined]
    ([None]) on a text node. *)
Definition tagName (σ : Store) (r : ref) : option jsstring :=
  match kind <$> σ !! r with
  | Some (ElementKind localName) => Some (toASCIIUpper localName)
  | _ => None
  end.

(** [node.parentElement]: the parent when it is an element. *)
Definition parentElement (σ : Store) (r : ref) : option ref :=
  match σ !! r ≫= parentNode with
  | Some p =>
      match kind <$> σ !! p with
      | Some (ElementKind _) => Some p
      | _ => None
      end
  | None => None
  end.

(** The element of [l] just before [r]. *)
Fixpoint before (r : ref) (l : list ref) : option ref :=
  match l with
  | a :: t =>
      if decide (a = r) then None
      else match t with
           | b :: _ => if decide (b = r) then Some a else before r t
           | [] => None
           end
  | [] => None
  end.

(** [node.previousSibling] *)
Definition previousSibling (σ : Store) (r : ref) : option ref :=
  match σ !! r ≫= parentNode with
  | Some p =>
      match σ !! p with
      | Some o => before r (childNodes o)
      | None => None
      end
  | None => None
  end.

Definition setParent (p : option ref) (o : Obj) : Obj :=
  mkObj (kind o) p (childNodes o).

Definition setChildren (cs : list ref) (o : Obj) : Obj :=
  mkObj (kind o) (parentNode o) cs.

(** [document.createElement(localName)]: a name that is not a valid
    element name is refused; an accepted name is written in lower case. *)
Definition createElement (localName : jsstring) : M ref := λ σ,
  if validName localName then
    let r := fresh (dom σ) in
    inr (r, <[r := mkObj (ElementKind (toASCIILower localName)) None []]> σ)
  else inl (DOMException "InvalidCharacterError").

(** [document.createTextNode(data)] *)
Definition createTextNode (data : jsstring) : M ref := λ σ,
  let r := fresh (dom σ) in
  inr (r, <[r := mkObj (TextKind data) None []]> σ).

(** A node is taken out of the children of its parent.  The children of a
    node are pairwise distinct, so that taking out every occurrence is
    taking out the node. *)
Definition detach (r : ref) (σ : Store) : Store :=
  match σ !! r ≫= parentNode with
  | Some p =>
      alter (setParent None) r
        (alter (λ o, setChildren (filter (λ c, c ≠ r) (childNodes o)) o) p σ)
  | None => σ
  end.

(** [node.remove()] *)
Definition remove (r : ref) : M unit := λ σ, inr (tt, detach r σ).

(** Whether [a] is [r] or one of its ancestors.  The walk up takes at most
    as many steps as there are nodes. *)
Fixpoint isInclusiveAncestor (fuel : nat) (σ : Store) (a r : ref) : bool :=
  match fuel with
  | 0 => false
  | S fuel' =>
      if decide (a = r) then true
      else match σ !! r ≫= parentNode with
           | Some p => isInclusiveAncestor fuel' σ a p
           | None => false
           end
  end.

(** [parent.appendChild(node)]: refused when [parent] is not an element or
    [node] is [parent] or one of its ancestors; otherwise [node] leaves
    its old parent and becomes the last child of [parent]. *)
Definition appendChild (parent node : ref) : M ref := λ σ,
  match kind <$> σ !! parent with
  | Some (ElementKind _) =>
      if isInclusiveAncestor (S (size σ)) σ node parent
      then inl (DOMException "HierarchyRequestError")
      else
        let σ1 := alter (setParent (Some parent)) node (detach node σ) in
        inr (node,
             alter (λ o, setChildren (childNodes o ++ [node]) o) parent σ1)
  | _ => inl (DOMException "HierarchyRequestError")
  end.

(** [element.textContent = data]: the children are replaced by one text
    node, or by nothing when [data] is empty. *)
Definition setTextContent (r : ref) (data : jsstring) : M unit := λ σ,
  match σ !! r with
  | Some o =>
      let σ1 := foldr (λ c, alter (setParent None) c) σ (childNodes o) in
      match data with
      | [] => inr (tt, <[r := setChildren [] o]> σ1)
      | _ =>
          let t := fresh (dom σ1) in
          inr (tt, <[t := mkObj (TextKind data) (Some r) []]>
                     (<[r := setChildren [t] o]> σ1))
      end
  | None => inr (tt, σ)
  end.

End Doc.

(** ** The page of a class (main.js) *)

Module Page.
Import Doc.

(** What [_showAPIClass] reads of a class: [apiClass.element] and the
    [element] of every namespace, event and method. *)
Record ClassElements := mkClassElements {
  element : ref;
  namespaces : list ref;
  events : list ref;
  methods : list ref;
}.

Definition content_box : jsstring := JS.lit "content-box".
Definition content_delimeter : jsstring := JS.lit "content-delimeter".
Definition h3 : jsstring := JS.lit "h3".
Definition pptr_api : jsstring := JS.lit "pptr-api".

Definition _insertBox (container : ref) : M ref :=
  let* box := createElement content_box in
  let* _ := appendChild container box in
  ret box.

(** The body of [for (const element of elements)]; the result is the new
    value of [lastDelimeter]. *)
Definition render_step (box element : ref) : M ref :=
  let* _ := appendChild box element in
  let* lastDelimeter := createElement content_delimeter in
  let* _ := appendChild box lastDelimeter in
  ret lastDelimeter.

Fixpoint render_loop (box : ref) (elements : list ref)
    (lastDelimeter : option ref) : M (option ref) :=
  match elements with
  | [] => ret lastDelimeter
  | element :: rest =>
      let* d := render_step box element in
      render_loop box rest (Some d)
  end.

(** [title] is [null] ([None]) or a string. *)
Definition _renderElements (container : ref) (title : option jsstring)
    (elements : list ref) : M unit :=
  match elements with
  | [] => ret tt
  | _ =>
      let* _ :=
        match title with
        | Some ((_ :: _) as text) =>
            let* header := createElement h3 in
            let* _ := setTextContent header text in
            let* _ := appendChild container header in
            ret tt
        | _ => ret tt
        end in
      let* box := _insertBox container in
      let* lastDelimeter := render_loop box elements None in
      match lastDelimeter with
      | Some d => remove d
      | None => throw (Uncaught (TypeError "remove"))
      end
  end.

Definition _showAPIClass (apiClass : ClassElements) : M ref :=
  let* page := createElement pptr_api in
  let* box := _insertBox page in
  let* _ := appendChild box (element apiClass) in
  let* _ := _renderElements page (Some (JS.lit "NameSpaces"))
              (namespaces apiClass) in
  let* _ := _renderElements page (Some (JS.lit "Events"))
              (events apiClass) in
  let* _ := _renderElements page (Some (JS.lit "Methods"))
              (methods apiClass) in
  ret page.

(** The loop of [_scrollAnchor]; [None] when the fuel is used up. *)
Fixpoint parentBox_loop (fuel : nat) (σ : Store) (parentBox : option ref)
  : option (option ref) :=
  match parentBox with
  | None => Some None
  | Some r =>
      if decide (tagName σ r = Some (JS.lit "CONTENT-BOX")) then Some (Some r)
      else match fuel with
           | 0 => None
           | S fuel' => parentBox_loop fuel' σ (parentElement σ r)
           end
  end.

Definition _scrollAnchor (fuel : nat) (σ : Store) (entryElement : ref)
  : option (option ref) :=
  match previousSibling σ entryElement with
  | Some previous =>
      if decide (tagName σ previous = Some (JS.lit "CONTENT-DELIMETER"))
      then Some (Some previous)
      else parentBox_loop fuel σ (Some entryElement)
  | None => parentBox_loop fuel σ (Some entryElement)
  end.

End Page.

(** ** The elements a search item keeps *)

Module SearchItemElements.
Import Doc.

(** A search item with its two caches. *)
Record t := mk {
  item : PPTRSearchItem.t;
  _subtitleElement : option ref;
  _iconElement : option ref;
}.

(** The caches as the constructor leaves them. *)
Definition new (item : PPTRSearchItem.t) : t := mk item None None.

(** [iconElement()]: the result and the item after the call. *)
Definition iconElement (this : t) : M (option ref * t) :=
  match _iconElement this, PPTRSearchItem.iconTagName (item this) with
  | None, (_ :: _) as tag =>
      let* e := createElement tag in
      ret (Some e, mk (item this) (_subtitleElement this) (Some e))
  | _, _ => ret (_iconElement this, this)
  end.

(** [subtitleElement()] *)
Definition subtitleElement (this : t) : M (option ref * t) :=
  match PPTRSearchItem.description (item this) with
  | [] => ret (None, this)
  | (_ :: _) as description =>
      match _subtitleElement this with
      | None =>
          let* e := createTextNode description in
          ret (Some e, mk (item this) (Some e) (_iconElement this))
      | Some e => ret (Some e, this)
      end
  end.

End SearchItemElements.

Module PageSpec.
Import Doc Page.

(** [e1, d1, e2, d2, ..., en]: the elements with one delimiter between
    neighbours. *)
Definition separated (elements delimiters : list ref) : list ref :=
  match elements with
  | [] => []
  | e :: es => e :: concat (zip_with (λ d e', [d; e']) delimiters es)
  end.

(** The node [r] of the store. *)
Definition node (σ : Store) (r : ref) (k : Kind) (p : option ref)
    (cs : list ref) : Prop :=
  σ !! r = Some (mkObj k p cs).

(** [box] is a content box of [container] that holds [elements] with the
    [delimiters] between them; the box and the delimiters are not nodes of
    the store [σ0] the work started from. *)
Definition boxed (σ0 σ : Store) (container box : ref)
    (elements delimiters : list ref) : Prop :=
  σ0 !! box = None
  ∧ node σ box (ElementKind content_box) (Some container)
         (separated elements delimiters)
  ∧ S (length delimiters) = length elements
  ∧ (∀ d, d ∈ delimiters →
       σ0 !! d = None
       ∧ node σ d (ElementKind content_delimeter) (Some box) [])
  ∧ (∀ e, e ∈ elements → ∃ o, σ !! e = Some o ∧ parentNode o = Some box).

(** The children a call of [_renderElements] adds to [container]: none
    when there are no elements, otherwise the header (for a title) and the
    box, all new with respect to [σ0]. *)
Definition rendered (σ0 σ : Store) (container : ref)
    (title : option jsstring) (elements added : list ref) : Prop :=
  match elements with
  | [] => added = []
  | _ :: _ =>
      ∃ box delimiters,
        boxed σ0 σ container box elements delimiters
        ∧ match title with
          | Some ((_ :: _) as text) =>
              ∃ header t,
                added = [header; box]
                ∧ σ0 !! header = None ∧ σ0 !! t = None
                ∧ node σ header (ElementKind h3) (Some container) [t]
                ∧ node σ t (TextKind text) (Some header) []
          | _ => added = [box]
          end
  end.

(** No node of [σ] is lost or changes its kind. *)
Definition extends (σ σ' : Store) : Prop :=
  ∀ r o, σ !! r = Some o → ∃ o', σ' !! r = Some o' ∧ kind o' = kind o.

(** The entry elements are nodes of the store, pairwise distinct. *)
Definition entries (σ : Store) (elements : list ref) : Prop :=
  NoDup elements ∧ ∀ e, e ∈ elements → is_Some (σ !! e).

(** [container] is an element without parent none of whose children is to
    be moved. *)
Definition root_for (σ : Store) (container : ref) (elements : list ref)
  : Prop :=
  ∃ o localName,
    σ !! container = Some o ∧ kind o = ElementKind localName
    ∧ parentNode o = None ∧ (container ∉ elements)
    ∧ ∀ e, e ∈ elements → e ∉ childNodes o.

(** What a node keeps in a store update: its kind and its parent. *)
Definition stays (σ σ' : Store) (r : ref) : Prop :=
  ∀ o, σ !! r = Some o →
    ∃ o', σ' !! r = Some o' ∧ kind o' = kind o
          ∧ parentNode o' = parentNode o.

(** The children the loop appends: every element followed by its
    delimiter. *)
Definition pairs (elements ds : list ref) : list ref :=
  concat (zip_with (λ e d, [e; d]) elements ds).

Definition class_entries (apiClass : ClassElements) : list ref :=
  element apiClass
    :: namespaces apiClass ++ events apiClass ++ methods apiClass.

(** The element reached from [r] by [n] steps of [parentElement]. *)
Fixpoint ancestor (σ : Store) (n : nat) (r : ref) : option ref :=
  match n with
  | 0 => Some r
  | S n' => parentElement σ r ≫= ancestor σ n'
  end.

Definition is_content_box (σ : Store) (r : ref) : Prop :=
  tagName σ r = Some (JS.lit "CONTENT-BOX").

(** The previous sibling, when it is a delimiter. *)
Definition delimiterBefore (σ : Store) (r : ref) : option ref :=
  match previousSibling σ r with
  | Some previous =>
      if decide (tagName σ previous = Some (JS.lit "CONTENT-DELIMETER"))
      then Some previous else None
  | None => None
  end.

(** Proof steps: the cases of a lookup after updates, and membership in
    a list that is written out. *)
Ltac lookup_cases :=
  repeat case_decide; try congruence;
  match goal with
  | |- context [?σ !! ?x] => destruct (σ !! x) eqn:?; simplify_eq/=; done
  end.

Ltac not_listed :=
  let H := fresh in
  intros H; repeat (apply elem_of_cons in H as [H|H]; [discriminate|]);
  by apply elem_of_nil in H.

Ltac listed H :=
  repeat (apply elem_of_cons in H as [->|H]); [..|by apply elem_of_nil in H].

End PageSpec.

(** A store with a page root and the elements of a class with one
    namespace and two methods, and a store with nested elements. *)
Module Scenario3.
Import Doc Page.

Definition div : Obj := mkObj (ElementKind (JS.lit "div")) None [].

Definition store : Store :=
  <[0 := div]> (<[1 := div]> (<[2 := div]> (<[3 := div]>
    (<[4 := mkObj (ElementKind pptr_api) None []]> ∅)))).

Definition page : ClassElements := mkClassElements 0 [1] [] [2; 3].

(** A paragraph in a section in a content box. *)
Definition nested : Store :=
  <[0 := mkObj (ElementKind content_box) None [1]]>
    (<[1 := mkObj (ElementKind (JS.lit "section")) (Some 0) [2]]>
       (<[2 := mkObj (ElementKind (JS.lit "p")) (Some 1) []]> ∅)).

End Scenario3.

(** ** The renderer with the name check of the document

    [document.createElement] throws [InvalidCharacterError] for a name
    that is not a valid element name and writes an accepted name in lower
    case.  The renderer is embedded here with both; the exception ends
    the call. *)

Module Checked.
Import DOM Render.

Abbreviation Thrown := Doc.Thrown.

Definition bind {A B} (m : Thrown + A) (f : A → Thrown + B) : Thrown + B :=
  match m with
  | inl e => inl e
  | inr a => f a
  end.

Notation "'let+' x ':=' m 'in' k" := (bind m (λ x, k))
  (at level 10, x name, m at level 100, k at level 200).

(** A loop over a list that an exception ends. *)
Fixpoint foldE {A B} (f : A → B → Thrown + A) (l : list B) (a : A)
  : Thrown + A :=
  match l with
  | [] => inr a
  | b :: l' => let+ a' := f a b in foldE f l' a'
  end.

(** [document.createElement(localName)] *)
Definition createElement (localName : jsstring) : Thrown + Node :=
  if Doc.validName localName
  then inr (Element (Doc.toASCIILower localName) [])
  else inl (Doc.DOMException "InvalidCharacterError").

(** The loop body of the branch for an empty [matches]. *)
Definition renderPlain (fragment : Node) (token : Token) : Thrown + Node :=
  match tagOf token with
  | Some t =>
      let+ node := createElement t in
      inr (appendChild fragment (setTextContent node (Token.text token)))
  | None => inr (appendChild fragment (createTextNode (Token.text token)))
  end.

(** One iteration of [for (let to = 0; to <= token.text.length; ++to)]. *)
Definition scan_position (token : Token) (offset : nat) (matchesSet : gset Z)
    (st : LoopState) (to : nat) : Thrown + LoopState :=
  let insideHighlight := bool_decide (Z.of_nat (to + offset) ∈ matchesSet) in
  if Bool.eqb insideHighlight (lastInsideHighlight st)
     && (to <? JS.length (Token.text token))
  then inr st
  else
    let+ flushed :=
      if from st <? to then
        let piece := JS.substring (Token.text token) (from st) to in
        let+ node :=
          if lastInsideHighlight st
          then let+ node := createElement search_highlight in
               inr (setTextContent node piece)
          else inr (createTextNode piece) in
        inr (to, appendChild (result st) node)
      else inr (from st, result st) in
    inr (mkLoop flushed.1 insideHighlight flushed.2).

(** The node built for one token, given the offset of its first
    character. *)
Definition renderToken (matchesSet : gset Z) (offset : nat) (token : Token)
  : Thrown + Node :=
  let+ result0 :=
    match tagOf token with
    | Some t => createElement t
    | None => inr createDocumentFragment
    end in
  let+ st :=
    foldE (scan_position token offset matchesSet)
      (seq 0 (S (JS.length (Token.text token))))
      (mkLoop 0 false result0) in
  inr (result st).

(** The loop body of the main branch: the state is the fragment and the
    running offset. *)
Definition renderMatched (matchesSet : gset Z) (st : Node * nat)
    (token : Token) : Thrown + Node * nat :=
  let+ node := renderToken matchesSet st.2 token in
  inr (appendChild st.1 node, st.2 + JS.length (Token.text token)).

Definition renderTokensWithMatches (matches : list Z) (tokens : list Token)
  : Thrown + Node :=
  match matches with
  | [] => foldE renderPlain tokens createDocumentFragment
  | _ :: _ =>
      let matchesSet : gset Z := list_to_set matches in
      let+ st :=
        foldE (renderMatched matchesSet) tokens (createDocumentFragment, 0) in
      inr st.1
  end.

End Checked.

Module CheckedSpec.
Import DOM Render.

Definition InvalidCharacterError : Doc.Thrown :=
  Doc.DOMException "InvalidCharacterError".

(** The tag name of the token, when it has one, is accepted by the
    document. *)
Definition accepted (token : Token) : bool :=
  match tagOf token with
  | Some t => Doc.validName t
  | None => true
  end.

(** The token with its tag name in lower case. *)
Definition lowerToken (token : Token) : Token :=
  Token.mk (Token.text token) (Doc.toASCIILower <$> Token.tagName token).

End CheckedSpec.

(** More sample inputs: three releases of which only the oldest documents
    [page.close()], and a token whose tag name is not a name. *)
Module Scenario4.

Definition p3 : Release :=
  Release.mk (JS.lit "v3.0.0")
    (JS.lit "### class: Page" ++ Scenario.nl
     ++ JS.lit "#### page.click(selector)") ∅.
Definition p2 : Release :=
  Release.mk (JS.lit "v2.0.0")
    (JS.lit "### class: Page" ++ Scenario.nl
     ++ JS.lit "#### page.click(selector)") ∅.
Definition p1 : Release :=
  Release.mk (JS.lit "v1.0.0")
    (JS.lit "### class: Page" ++ Scenario.nl
     ++ JS.lit "#### page.click(selector)" ++ Scenario.nl
     ++ JS.lit "#### page.close()") ∅.

Definition badToken : Token := Token.mk (JS.lit "x") (Some (JS.lit "<")).

Definition upperToken : Token := Token.mk (JS.lit "x") (Some (JS.lit "Div")).

End Scenario4.


(** * Properties of the lifespan index *)

Module LifespanFacts.
Import Lifespan LifespanSpec.


(** ** The heading patterns on sample headings *)

Example classRegex_Page :
  Regex.exec classRegex (JS.lit "### class: Page  ") = Some (JS.lit "Page").
Proof. vm_compute. reflexivity. Qed.

Example classRegex_needs_end :
  Regex.exec classRegex (JS.lit "### class: Page extends EventEmitter") = None.
Proof. vm_compute. reflexivity. Qed.

Example eventRegex_load :
  Regex.exec eventRegex (JS.lit "#### event: 'load'") = Some (JS.lit "load").
Proof. vm_compute. reflexivity. Qed.

Example methodRegex_dollar :
  Regex.exec methodRegex (JS.lit "#### page.$eval(selector, pageFunction)")
  = Some (JS.lit "$eval").
Proof. vm_compute. reflexivity. Qed.

Example nsRegex_mouse :
  Regex.exec nsRegex (JS.lit "#### page.mouse") = Some (JS.lit "mouse").
Proof. vm_compute. reflexivity. Qed.

Example nsRegex_not_a_method :
  Regex.exec nsRegex (JS.lit "#### page.close()") = None.
Proof. vm_compute. reflexivity. Qed.

Example titles_r09 :
  titles Scenario.r09
  = [JS.lit "### class: Page"; JS.lit "#### event: 'load'";
     JS.lit "#### page.close()"; JS.lit "#### page.mouse"].
Proof. vm_compute. reflexivity. Qed.

(** ** The loops over a [Map] *)

Lemma lookup_carrySince (previous current : gmap jsstring jsstring) (n : jsstring) :
  carrySince previous current !! n =
  match current !! n with
  | Some v => Some (default v (previous !! n))
  | None => None
  end.
Proof.
  unfold carrySince. revert n.
  apply (map_fold_weak_ind (λ r m, ∀ n, r !! n =
    match current !! n with
    | Some v => Some (default v (m !! n))
    | None => None
    end)).
  - intros n. rewrite lookup_empty. by destruct (current !! n).
  - intros i x m r Hi IH n.
    assert (Hdom : is_Some (r !! i) ↔ is_Some (current !! i)).
    { rewrite IH. destruct (current !! i); split; intros [? ?]; eauto; done. }
    destruct (decide (i = n)) as [->|Hne].
    + rewrite lookup_insert_eq. case_decide as Hs.
      * rewrite lookup_insert_eq. apply Hdom in Hs as [v ->]. done.
      * rewrite IH. destruct (current !! n) eqn:E; [|done].
        exfalso. apply Hs, Hdom. eauto.
    + rewrite lookup_insert_ne by done.
      case_decide; [rewrite lookup_insert_ne by done|]; apply IH.
Qed.

Lemma lookup_vanishUntil (nextName : jsstring)
    (current : gmap jsstring jsstring) (n : jsstring) :
  vanishUntil nextName current !! n = (λ _, nextName) <$> current !! n.
Proof.
  unfold vanishUntil.
  enough (H : ∀ m0 : gmap jsstring jsstring,
    map_fold (λ n _ cur, <[n:=nextName]> cur) current m0 !! n =
    match m0 !! n with Some _ => Some nextName | None => current !! n end).
  { rewrite H. by destruct (current !! n). }
  intros m0.
  apply (map_fold_weak_ind (λ r m, r !! n =
    match m !! n with Some _ => Some nextName | None => current !! n end)).
  - by rewrite lookup_empty.
  - intros i x m r Hi IH. destruct (decide (i = n)) as [->|Hne].
    + by rewrite !lookup_insert_eq.
    + by rewrite !lookup_insert_ne.
Qed.

Lemma lookup_resolveUntil (nextName : jsstring)
    (nextUntil nextSince currentSince currentUntil : gmap jsstring jsstring)
    (n : jsstring) :
  resolveUntil nextName nextUntil nextSince currentSince currentUntil !! n =
  match currentSince !! n with
  | Some _ =>
      match nextUntil !! n with
      | Some v => Some v
      | None => if decide (is_Some (nextSince !! n)) then currentUntil !! n
                else Some nextName
      end
  | None => currentUntil !! n
  end.
Proof.
  unfold resolveUntil.
  apply (map_fold_weak_ind (λ r m, r !! n =
    match m !! n with
    | Some _ =>
        match nextUntil !! n with
        | Some v => Some v
        | None => if decide (is_Some (nextSince !! n)) then currentUntil !! n
                  else Some nextName
        end
    | None => currentUntil !! n
    end)).
  - by rewrite lookup_empty.
  - intros i x m r Hi IH. destruct (decide (i = n)) as [->|Hne].
    + rewrite lookup_insert_eq. rewrite Hi in IH.
      destruct (nextUntil !! n); [by rewrite lookup_insert_eq|].
      case_decide; [done|by rewrite lookup_insert_eq].
    + rewrite (lookup_insert_ne m) by done.
      destruct (nextUntil !! i); [by rewrite lookup_insert_ne|].
      destruct (decide (is_Some (nextSince !! i))); [done|].
      by rewrite lookup_insert_ne.
Qed.

(** ** The sweeps over the release array *)

Lemma since_iter_S r (rs : list Release) i :
  since_iter (r :: rs) (S i) = r :: since_iter rs i.
Proof.
  unfold since_iter. simpl.
  destruct (rs !! (i + 1)), (rs !! i); reflexivity.
Qed.

Lemma fold_since_iter_S r (l : list nat) : ∀ rs : list Release,
  fold_left since_iter (S <$> l) (r :: rs) = r :: fold_left since_iter l rs.
Proof.
  induction l as [|i l IH]; intros rs; simpl; [done|].
  by rewrite since_iter_S, IH.
Qed.

Lemma since_iter_0 r (rs : list Release) :
  since_iter (r :: rs) 0 =
  match rs with [] => [r] | p :: tl => since_release p r :: p :: tl end.
Proof. by destruct rs. Qed.

Lemma since_phase_sweep (rs : list Release) : since_phase rs = since_sweep rs.
Proof.
  induction rs as [|r rs IH]; [done|].
  unfold since_phase in *. simpl length.
  replace (S (length rs) - 1) with (length rs) by lia.
  destruct rs as [|r1 rs]; [done|].
  simpl length in *. replace (S (length rs) - 1) with (length rs) in IH by lia.
  cbn [seq]. rewrite <- (fmap_S_seq 0), reverse_cons, fold_left_app.
  rewrite <- fmap_reverse, fold_since_iter_S, IH.
  cbn [fold_left]. by rewrite since_iter_0.
Qed.

Lemma until_iter_S r (rs : list Release) i :
  until_iter (r :: rs) (S i) = r :: until_iter rs i.
Proof.
  unfold until_iter. simpl.
  destruct (rs !! i), (rs !! (i + 1)); reflexivity.
Qed.

Lemma fold_until_iter_S r (l : list nat) : ∀ rs : list Release,
  fold_left until_iter (S <$> l) (r :: rs) = r :: fold_left until_iter l rs.
Proof.
  induction l as [|i l IH]; intros rs; simpl; [done|].
  by rewrite until_iter_S, IH.
Qed.

Lemma until_phase_sweep r (rs : list Release) :
  until_phase (r :: rs) = r :: until_sweep r rs.
Proof.
  unfold until_phase. simpl length.
  replace (S (length rs) - 1) with (length rs) by lia.
  revert r. induction rs as [|r1 rs IH]; intros r; [done|].
  simpl length. cbn [seq]. rewrite <- (fmap_S_seq 0). simpl fold_left.
  change (until_iter (r :: r1 :: rs) 0) with (r :: until_release r r1 :: rs).
  by rewrite fold_until_iter_S, IH.
Qed.

Lemma since_sweep_lookup_S r (rs : list Release) i :
  since_sweep (r :: rs) !! S i = since_sweep rs !! i.
Proof. cbn [since_sweep]. by destruct (since_sweep rs). Qed.

Lemma since_sweep_lookup (rs : list Release) : ∀ i r,
  rs !! i = Some r →
  since_sweep rs !! i =
  Some (match since_sweep rs !! S i with
        | Some p => since_release p r
        | None => r
        end).
Proof.
  induction rs as [|r0 rs IH]; intros i r Hi; [done|].
  destruct i as [|i].
  - simplify_eq/=. by destruct (since_sweep rs).
  - rewrite !since_sweep_lookup_S. simpl in Hi. rewrite (IH _ _ Hi).
    destruct rs as [|r1 rs]; [done|].
    by rewrite since_sweep_lookup_S.
Qed.

Lemma since_sweep_lookup_None (rs : list Release) i :
  rs !! i = None → since_sweep rs !! i = None.
Proof.
  revert i. induction rs as [|r0 rs IH]; intros i Hi; [done|].
  destruct i as [|i]; [done|]. rewrite since_sweep_lookup_S. by apply IH.
Qed.

Lemma until_sweep_lookup (rs : list Release) : ∀ next i r,
  rs !! i = Some r →
  ∃ nx, (next :: until_sweep next rs) !! i = Some nx
        ∧ until_sweep next rs !! i = Some (until_release nx r).
Proof.
  induction rs as [|r0 rs IH]; intros next i r Hi; [done|].
  destruct i as [|i].
  - simplify_eq/=. eauto.
  - simpl in Hi. apply (IH (until_release next r0)) in Hi as (nx & H1 & H2).
    exists nx. simpl. split; [apply H1|apply H2].
Qed.

Lemma until_phase_lookup_0 (rs : list Release) : until_phase rs !! 0 = rs !! 0.
Proof. destruct rs as [|r rs]; [done|]. by rewrite until_phase_sweep. Qed.

Lemma until_phase_lookup_S (rs : list Release) i r :
  rs !! S i = Some r →
  ∃ nx, until_phase rs !! i = Some nx
        ∧ until_phase rs !! S i = Some (until_release nx r).
Proof.
  destruct rs as [|r0 rs]; [done|]. rewrite until_phase_sweep. simpl.
  intros Hi. by apply until_sweep_lookup.
Qed.

Lemma until_phase_lookup_None (rs : list Release) i :
  rs !! i = None → until_phase rs !! i = None.
Proof.
  destruct rs as [|r0 rs]; [done|]. rewrite until_phase_sweep.
  destruct i as [|i]; [done|]. simpl. revert r0 i.
  induction rs as [|r1 rs IH]; intros r0 i Hi; [done|].
  destruct i as [|i]; [done|]. simpl in *. by apply IH.
Qed.

(** ** One release against its neighbour *)

Lemma since_release_classes (p r : Release) (c : jsstring) :
  Release.classesLifespan (since_release p r) !! c =
  since_class (Release.classesLifespan p !! c) <$> Release.classesLifespan r !! c.
Proof.
  unfold since_release. simpl. rewrite map_lookup_imap.
  by destruct (Release.classesLifespan r !! c).
Qed.

Lemma until_release_classes (nx r : Release) (c : jsstring) :
  Release.classesLifespan (until_release nx r) !! c =
  until_class (Release.name nx) (Release.classesLifespan nx !! c)
    <$> Release.classesLifespan r !! c.
Proof.
  unfold until_release. simpl. rewrite map_lookup_imap.
  by destruct (Release.classesLifespan r !! c).
Qed.

Lemma sinceOf_since_class k (p o : ClassOutline) (n : jsstring) :
  sinceOf k (since_class (Some p) o) !! n =
  match sinceOf k o !! n with
  | Some v => Some (default v (sinceOf k p !! n))
  | None => None
  end.
Proof. destruct k; simpl; apply lookup_carrySince. Qed.

Lemma untilOf_since_class k prev (o : ClassOutline) :
  untilOf k (since_class prev o) = untilOf k o.
Proof. by destruct prev, k. Qed.

Lemma until_since_class prev (o : ClassOutline) :
  ClassOutline.until (since_class prev o) = ClassOutline.until o.
Proof. by destruct prev. Qed.

Lemma sinceOf_until_class k nm next (o : ClassOutline) :
  sinceOf k (until_class nm next o) = sinceOf k o.
Proof. by destruct next, k. Qed.

Lemma since_until_class nm next (o : ClassOutline) :
  ClassOutline.since (until_class nm next o) = ClassOutline.since o.
Proof. by destruct next. Qed.

Lemma untilOf_until_class_None k nm (o : ClassOutline) (n : jsstring) :
  untilOf k (until_class nm None o) !! n = (λ _, nm) <$> untilOf k o !! n.
Proof. destruct k; simpl; apply lookup_vanishUntil. Qed.

Lemma untilOf_until_class_Some k nm (nx o : ClassOutline) (n : jsstring) :
  untilOf k (until_class nm (Some nx) o) !! n =
  match sinceOf k o !! n with
  | Some _ =>
      match untilOf k nx !! n with
      | Some v => Some v
      | None => if decide (is_Some (sinceOf k nx !! n)) then untilOf k o !! n
                else Some nm
      end
  | None => untilOf k o !! n
  end.
Proof. destruct k; simpl; apply lookup_resolveUntil. Qed.

(** ** What the heading scan produces *)

Lemma fresh_newOutline className releaseName :
  fresh releaseName (newOutline className releaseName).
Proof.
  repeat split; try done.
  - by intros [] n v; simpl; rewrite lookup_empty.
  - by intros [].
Qed.

Lemma fresh_setSince k (n releaseName : jsstring) o :
  fresh releaseName o → fresh releaseName (setSince k n releaseName o).
Proof.
  intros (Hs & Hu & Hv & He). destruct o as [nm s u es ms ns eu mu nu].
  simpl in *. repeat split.
  - by destruct k.
  - by destruct k.
  - intros k' n' v. specialize (Hv k' n' v).
    destruct k, k'; simpl in *; try done;
      (destruct (decide (n = n')) as [->|];
       [rewrite lookup_insert_eq; congruence|by rewrite lookup_insert_ne]).
  - intros k'. specialize (He k'). by destruct k, k'.
Qed.

Lemma seal_fresh releaseName m cur :
  scan_inv releaseName (m, cur) →
  ∀ c o, seal m cur !! c = Some o → fresh releaseName o.
Proof.
  intros [Hm Hc] c o. destruct cur as [oc|]; simpl; [|apply Hm].
  destruct (decide (ClassOutline.name oc = c)) as [->|].
  - rewrite lookup_insert_eq. intros [= <-]. by apply Hc.
  - rewrite lookup_insert_ne by done. apply Hm.
Qed.

Lemma addSymbol_inv k property n releaseName cur cur' :
  (∀ o, cur = Some o → fresh releaseName o) →
  addSymbol k property n releaseName cur = inr cur' →
  ∀ o, cur' = Some o → fresh releaseName o.
Proof.
  intros Hc. destruct cur as [oc|]; simpl; [|done].
  intros [= <-] o [= <-]. apply fresh_setSince. by apply Hc.
Qed.

Lemma scan_title_inv releaseName st title st' :
  scan_inv releaseName st →
  scan_title releaseName st title = inr st' →
  scan_inv releaseName st'.
Proof.
  destruct st as [m cur]. intros Hinv. unfold scan_title.
  destruct (Regex.exec classRegex title) as [className|].
  { intros [= <-]. split; simpl.
    - by apply seal_fresh.
    - intros o [= <-]. apply fresh_newOutline. }
  destruct Hinv as [Hm Hc].
  destruct (Regex.exec eventRegex title) as [eventName|].
  { destruct (addSymbol _ _ _ _ _) eqn:E; [done|]. intros [= <-].
    split; [done|]. by eapply addSymbol_inv. }
  destruct (Regex.exec methodRegex title) as [methodName|].
  { destruct (addSymbol _ _ _ _ _) eqn:E; [done|]. intros [= <-].
    split; [done|]. by eapply addSymbol_inv. }
  destruct (Regex.exec nsRegex title) as [nsName|].
  { destruct (addSymbol _ _ _ _ _) eqn:E; [done|]. intros [= <-].
    split; [done|]. by eapply addSymbol_inv. }
  by intros [= <-].
Qed.

Lemma scan_titles_inv releaseName ts : ∀ st st',
  scan_inv releaseName st →
  scan_titles releaseName ts st = inr st' →
  scan_inv releaseName st'.
Proof.
  induction ts as [|t ts IH]; intros st st' Hinv; simpl.
  - by intros [= <-].
  - destruct (scan_title releaseName st t) as [e|st1] eqn:E; [done|].
    apply IH. by eapply scan_title_inv.
Qed.

Lemma scan_release_fresh (r r' : Release) :
  scan_release r = inr r' →
  Release.name r' = Release.name r
  ∧ ∀ c o, Release.classesLifespan r' !! c = Some o → fresh (Release.name r) o.
Proof.
  unfold scan_release.
  destruct (scan_titles _ _ _) as [e|[m cur]] eqn:E; [done|].
  intros [= <-]. split; [done|]. simpl. apply seal_fresh.
  eapply scan_titles_inv; [|exact E]. split; simpl; [|done].
  intros c o. by rewrite lookup_empty.
Qed.

Lemma scan_releases_lookup (rs : list Release) : ∀ scanned,
  scan_releases rs = inr scanned →
  ∀ i r', scanned !! i = Some r' →
  ∃ r, rs !! i = Some r ∧ scan_release r = inr r'.
Proof.
  induction rs as [|r rs IH]; intros scanned; simpl.
  - by intros [= <-].
  - destruct (scan_release r) as [e|r1] eqn:E1; [done|].
    destruct (scan_releases rs) as [e|out] eqn:E2; [done|].
    intros [= <-] [|i] r'; simpl.
    + intros [= <-]. eauto.
    + by apply IH.
Qed.

(** Every outline of a scanned array is fresh for its release. *)
Lemma scanned_fresh (rs scanned : list Release) i r' c o :
  scan_releases rs = inr scanned →
  scanned !! i = Some r' →
  Release.classesLifespan r' !! c = Some o →
  fresh (Release.name r') o.
Proof.
  intros Hs Hi Hc.
  destruct (scan_releases_lookup _ _ Hs _ _ Hi) as (r & _ & Hr).
  apply scan_release_fresh in Hr as [-> Hf]. by eapply Hf.
Qed.

Lemma since_sweep_inv (rs : list Release) i R :
  since_sweep rs !! i = Some R →
  ∃ r, rs !! i = Some r
       ∧ (since_sweep rs !! S i = None ∧ R = r
          ∨ ∃ p, since_sweep rs !! S i = Some p ∧ R = since_release p r).
Proof.
  intros HR. destruct (rs !! i) as [r|] eqn:Hi.
  - exists r. split; [done|]. rewrite (since_sweep_lookup _ _ _ Hi) in HR.
    destruct (since_sweep rs !! S i) as [p|]; simplify_eq; eauto.
  - by rewrite since_sweep_lookup_None in HR.
Qed.

(** ** The claims about the two sweeps *)


(** C3.  The "until" sweep, run on any array of releases.  Take the
    release at index [i+1] before the sweep ([R0]) and after it ([R]), and
    its newer neighbour [Rn] after the sweep.  For a class of that release:
    when [Rn] lacks the class, [until] is [Rn]'s name and every entry the
    [*Until] maps already had is set to that name; when [Rn] has it,
    [until] is copied from [Rn]'s outline, and for each member name in
    [*Since] the [*Until] entry is [Rn]'s entry where it has one, else
    [Rn]'s name where [Rn] lacks the member, else what it was (nothing,
    when the maps started empty). *)
Theorem C3_until_propagation (rs : list Release) i R0 R Rn c o0 :
  rs !! (i + 1) = Some R0 →
  until_phase rs !! (i + 1) = Some R →
  until_phase rs !! i = Some Rn →
  Release.classesLifespan R0 !! c = Some o0 →
  ∃ o, Release.classesLifespan R !! c = Some o ∧
    match Release.classesLifespan Rn !! c with
    | None =>
        ClassOutline.until o = Release.name Rn
        ∧ ∀ k n, untilOf k o !! n = (λ _, Release.name Rn) <$> untilOf k o0 !! n
    | Some nx =>
        ClassOutline.until o = ClassOutline.until nx
        ∧ ∀ k n, is_Some (sinceOf k o0 !! n) →
            untilOf k o !! n =
            match untilOf k nx !! n with
            | Some v => Some v
            | None =>
                if decide (sinceOf k nx !! n = None)
                then Some (Release.name Rn)
                else untilOf k o0 !! n
            end
            ∧ (untilOf k o0 !! n = None →
               untilOf k nx !! n = None → sinceOf k nx !! n ≠ None →
               untilOf k o !! n = None)
    end.
Proof.
  replace (i + 1) with (S i) by lia. intros H0 HR HRn Hc.
  destruct (until_phase_lookup_S _ _ _ H0) as (nx' & Hnx & HR').
  assert (nx' = Rn) as -> by congruence.
  assert (R = until_release Rn R0) as -> by congruence.
  exists (until_class (Release.name Rn) (Release.classesLifespan Rn !! c) o0).
  split; [by rewrite until_release_classes, Hc|].
  destruct (Release.classesLifespan Rn !! c) as [nx|].
  - split; [done|]. intros k n [v Hv].
    rewrite untilOf_until_class_Some, Hv.
    destruct (untilOf k nx !! n) as [w|]; [by split|].
    destruct (sinceOf k nx !! n) as [w|] eqn:Hw.
    + rewrite decide_True by eauto. rewrite decide_False by done.
      split; [done|]. by intros ->.
    + rewrite decide_False by (by intros [? ?]). rewrite decide_True by done.
      split; [done|]. by intros _ _ ?.
  - split; [done|]. intros k n. apply untilOf_until_class_None.
Qed.

(** ** The constructed index *)

(** Before the "until" sweep no [*Until] map has an entry. *)
Lemma since_phase_unresolved (releases scanned : list Release) i b c o :
  scan_releases releases = inr scanned →
  since_phase scanned !! i = Some b →
  Release.classesLifespan b !! c = Some o →
  ∀ k, untilOf k o = ∅.
Proof.
  intros Hscan Hb Hc k. rewrite since_phase_sweep in Hb.
  destruct (since_sweep_inv _ _ _ Hb) as (r & Hr & [[_ ->]|(p & _ & ->)]).
  - by destruct (scanned_fresh _ _ _ _ _ _ Hscan Hr Hc) as (_ & _ & _ & He).
  - rewrite since_release_classes in Hc.
    apply fmap_Some in Hc as (o0 & Ho0 & ->). rewrite untilOf_since_class.
    by destruct (scanned_fresh _ _ _ _ _ _ Hscan Hr Ho0) as (_ & _ & _ & He).
Qed.

(** The release at index [i+1] after the "until" sweep, in terms of the
    array before it and of the newer neighbour after it. *)
Lemma until_phase_step (B : list Release) i R :
  until_phase B !! S i = Some R →
  ∃ b nx, B !! S i = Some b ∧ until_phase B !! i = Some nx
          ∧ R = until_release nx b.
Proof.
  intros HR. destruct (B !! S i) as [b|] eqn:Hb.
  - destruct (until_phase_lookup_S _ _ _ Hb) as (nx & Hnx & HR').
    exists b, nx. repeat split; [done|congruence].
  - by rewrite until_phase_lookup_None in HR.
Qed.

(** C9.  In the constructed index, a class of a release that the next
    newer release lacks has [until] set to that newer release's name and
    its three [*Until] maps empty: the loops of the class-vanish branch
    run over maps that nothing has filled yet. *)
Theorem C9_vanished_class_has_no_member_until
    (releases out : list Release) i R Rn c o :
  _initializeAPILifespan releases = inr out →
  out !! (i + 1) = Some R →
  out !! i = Some Rn →
  Release.classesLifespan R !! c = Some o →
  Release.classesLifespan Rn !! c = None →
  ClassOutline.until o = Release.name Rn
  ∧ ClassOutline.eventsUntil o = ∅
  ∧ ClassOutline.methodsUntil o = ∅
  ∧ ClassOutline.namespacesUntil o = ∅.
Proof.
  unfold _initializeAPILifespan.
  destruct (scan_releases releases) as [e|scanned] eqn:Hscan; [done|].
  intros [= <-]. replace (i + 1) with (S i) by lia. intros HR HRn Hc Hn.
  destruct (until_phase_step _ _ _ HR) as (b & nx & Hb & Hnx & ->).
  assert (nx = Rn) as -> by congruence.
  rewrite until_release_classes, Hn in Hc.
  apply fmap_Some in Hc as (o0 & Ho0 & ->).
  split; [done|].
  assert (He : ∀ k, untilOf k (until_class (Release.name Rn) None o0) = ∅).
  { intros k. apply map_eq. intros n.
    rewrite untilOf_until_class_None, lookup_empty.
    by rewrite (since_phase_unresolved _ _ _ _ _ _ Hscan Hb Ho0 k), lookup_empty. }
  exact (conj (He Event) (conj (He Method) (He Namespace))).
Qed.

(** Where a resolved [*Until] entry of the sweep comes from. *)
Lemma until_phase_resolved (B : list Release) :
  (∀ i b c o k, B !! i = Some b → Release.classesLifespan b !! c = Some o →
                untilOf k o = ∅) →
  ∀ i R c o k n V,
    until_phase B !! i = Some R →
    Release.classesLifespan R !! c = Some o →
    untilOf k o !! n = Some V →
    is_Some (sinceOf k o !! n)
    ∧ ∃ j Rv ov Ra oa,
        j < i
        ∧ until_phase B !! j = Some Rv ∧ Release.name Rv = V
        ∧ Release.classesLifespan Rv !! c = Some ov
        ∧ sinceOf k ov !! n = None
        ∧ until_phase B !! (j + 1) = Some Ra
        ∧ Release.classesLifespan Ra !! c = Some oa
        ∧ is_Some (sinceOf k oa !! n)
        ∧ ∀ m, j < m ≤ i →
            ∃ Rm om, until_phase B !! m = Some Rm
                     ∧ Release.classesLifespan Rm !! c = Some om
                     ∧ is_Some (sinceOf k om !! n).
Proof.
  intros HB i. induction i as [|i IH]; intros R c o k n V HR Hc HV.
  - rewrite until_phase_lookup_0 in HR.
    by rewrite (HB _ _ _ _ k HR Hc), lookup_empty in HV.
  - destruct (until_phase_step _ _ _ HR) as (b & nx & Hb & Hnx & ->).
    pose proof Hc as Hc'. rewrite until_release_classes in Hc.
    apply fmap_Some in Hc as (o0 & Ho0 & ->).
    pose proof (HB _ _ _ _ k Hb Ho0) as He.
    destruct (Release.classesLifespan nx !! c) as [onx|] eqn:Hnxc.
    + rewrite untilOf_until_class_Some in HV.
      rewrite sinceOf_until_class.
      destruct (sinceOf k o0 !! n) as [w|] eqn:Hw;
        [|by rewrite He, lookup_empty in HV].
      split; [eauto|].
      assert (Hhere : ∃ Rm om, until_phase B !! S i = Some Rm
                ∧ Release.classesLifespan Rm !! c = Some om
                ∧ is_Some (sinceOf k om !! n)).
      { eexists _, _. split; [exact HR|]. split; [exact Hc'|].
        rewrite sinceOf_until_class. eauto. }
      destruct (untilOf k onx !! n) as [v|] eqn:Hv.
      * injection HV as ->.
        destruct (IH _ _ _ _ _ _ Hnx Hnxc Hv)
          as (_ & j & Rv & ov & Ra & oa & Hj & H1 & H2 & H3 & H4 & H5 & H6
              & H7 & Hbetween).
        exists j, Rv, ov, Ra, oa. split; [lia|]. do 7 (split; [done|]).
        intros m Hm. destruct (decide (m = S i)) as [->|]; [done|].
        apply Hbetween. lia.
      * destruct (decide (is_Some (sinceOf k onx !! n))) as [|Hnone];
          [by rewrite He, lookup_empty in HV|].
        injection HV as <-.
        exists i, nx, onx, (until_release nx b),
          (until_class (Release.name nx) (Some onx) o0).
        replace (i + 1) with (S i) by lia.
        split; [lia|]. split; [done|]. split; [done|]. split; [done|].
        split; [by apply eq_None_not_Some|]. split; [done|].
        split; [done|]. split; [rewrite sinceOf_until_class; eauto|].
        intros m Hm. by replace m with (S i) by lia.
    + rewrite untilOf_until_class_None, He, lookup_empty in HV. done.
Qed.

(** C7.  In the constructed index, a member's [*Until] entry that holds a
    release name [V] was produced at a release named [V] that sits at a
    newer position [j] of the array, has the class and lacks the member,
    while the release right next to it on the older side (position [j+1])
    has the member in that class, as has every release from there down to
    the entry's own. *)
Theorem C7_resolved_until_marks_absence
    (releases out : list Release) i R c o k n V :
  _initializeAPILifespan releases = inr out →
  out !! i = Some R →
  Release.classesLifespan R !! c = Some o →
  untilOf k o !! n = Some V →
  is_Some (sinceOf k o !! n)
  ∧ ∃ j Rv ov Ra oa,
      j < i
      ∧ out !! j = Some Rv ∧ Release.name Rv = V
      ∧ Release.classesLifespan Rv !! c = Some ov
      ∧ sinceOf k ov !! n = None
      ∧ out !! (j + 1) = Some Ra
      ∧ Release.classesLifespan Ra !! c = Some oa
      ∧ is_Some (sinceOf k oa !! n)
      ∧ ∀ m, j < m ≤ i →
          ∃ Rm om, out !! m = Some Rm
                   ∧ Release.classesLifespan Rm !! c = Some om
                   ∧ is_Some (sinceOf k om !! n).
Proof.
  unfold _initializeAPILifespan.
  destruct (scan_releases releases) as [e|scanned] eqn:Hscan; [done|].
  intros [= <-]. apply until_phase_resolved.
  intros i' b c' o' k' Hb Hc'. by eapply since_phase_unresolved.
Qed.

(** ** The sweeps keep names, classes and members *)

Lemma same_members_refl r : same_members r r.
Proof.
  split; [done|]. intros c. by destruct (Release.classesLifespan r !! c).
Qed.

Lemma same_members_trans r1 r2 r3 :
  same_members r1 r2 → same_members r2 r3 → same_members r1 r3.
Proof.
  intros [Hn1 H1] [Hn2 H2]. split; [congruence|]. intros c.
  specialize (H1 c). specialize (H2 c).
  destruct (Release.classesLifespan r1 !! c),
    (Release.classesLifespan r2 !! c),
    (Release.classesLifespan r3 !! c); try done.
  intros k n. by rewrite H2, H1.
Qed.

Lemma since_release_same_members p r : same_members r (since_release p r).
Proof.
  split; [done|]. intros c. rewrite since_release_classes.
  destruct (Release.classesLifespan r !! c) as [o0|]; [|done].
  cbn [fmap option_fmap option_map]. intros k n.
  destruct (Release.classesLifespan p !! c) as [po|]; [|done].
  rewrite sinceOf_since_class.
  destruct (sinceOf k o0 !! n); split; intros [? ?]; eauto; done.
Qed.

Lemma until_release_same_members nx r : same_members r (until_release nx r).
Proof.
  split; [done|]. intros c. rewrite until_release_classes.
  destruct (Release.classesLifespan r !! c) as [o0|]; [|done].
  cbn [fmap option_fmap option_map]. intros k n.
  by rewrite sinceOf_until_class.
Qed.

Lemma since_phase_same_members (rs : list Release) i R :
  since_phase rs !! i = Some R → ∃ r, rs !! i = Some r ∧ same_members r R.
Proof.
  rewrite since_phase_sweep. intros HR.
  destruct (since_sweep_inv _ _ _ HR) as (r & Hr & [[_ ->]|(p & _ & ->)]);
    exists r; split; try done.
  - apply same_members_refl.
  - apply since_release_same_members.
Qed.

Lemma until_phase_same_members (rs : list Release) i R :
  until_phase rs !! i = Some R → ∃ r, rs !! i = Some r ∧ same_members r R.
Proof.
  destruct i as [|i].
  - rewrite until_phase_lookup_0. intros HR. exists R. split; [done|].
    apply same_members_refl.
  - intros HR. destruct (until_phase_step _ _ _ HR) as (b & nx & Hb & _ & ->).
    exists b. split; [done|]. apply until_release_same_members.
Qed.

(** The constructed index lists, release by release, what the scan found. *)
Lemma index_same_members (releases out : list Release) :
  _initializeAPILifespan releases = inr out →
  ∃ scanned,
    scan_releases releases = inr scanned
    ∧ ∀ i R, out !! i = Some R →
        ∃ r, scanned !! i = Some r ∧ same_members r R.
Proof.
  unfold _initializeAPILifespan.
  destruct (scan_releases releases) as [e|scanned]; [done|].
  intros [= <-]. exists scanned. split; [done|]. intros i R HR.
  destruct (until_phase_same_members _ _ _ HR) as (b & Hb & Hbm).
  destruct (since_phase_same_members _ _ _ Hb) as (r & Hr & Hrm).
  exists r. split; [done|]. by eapply same_members_trans.
Qed.


(** ** The three-release scenario *)

(** C1.  Three releases stored newest first, named v1.1.0, v1.0.0 and
    v0.9.0, whose scans all find class [Page]; method [close] is found in
    v1.1.0 and v0.9.0 and not in v1.0.0.  In the constructed index the
    v0.9.0 outline of [Page] has [methodsSince[close] = v0.9.0] and
    [methodsUntil[close] = v1.0.0]; the v1.1.0 outline has
    [methodsSince[close] = v1.1.0] and no [methodsUntil] entry for
    [close]. *)
Theorem C1_close_removed_then_reintroduced
    (r11 r10 r09 s11 s10 s09 : Release) (o11 o10 o09 : ClassOutline) :
  Release.name r11 = JS.lit "v1.1.0" →
  Release.name r10 = JS.lit "v1.0.0" →
  Release.name r09 = JS.lit "v0.9.0" →
  scan_release r11 = inr s11 →
  scan_release r10 = inr s10 →
  scan_release r09 = inr s09 →
  Release.classesLifespan s11 !! Page = Some o11 →
  Release.classesLifespan s10 !! Page = Some o10 →
  Release.classesLifespan s09 !! Page = Some o09 →
  is_Some (ClassOutline.methodsSince o11 !! close) →
  ClassOutline.methodsSince o10 !! close = None →
  is_Some (ClassOutline.methodsSince o09 !! close) →
  ∃ i11 i10 i09 p11 p09,
    _initializeAPILifespan [r11; r10; r09] = inr [i11; i10; i09]
    ∧ Release.classesLifespan i09 !! Page = Some p09
    ∧ ClassOutline.methodsSince p09 !! close = Some (JS.lit "v0.9.0")
    ∧ ClassOutline.methodsUntil p09 !! close = Some (JS.lit "v1.0.0")
    ∧ Release.classesLifespan i11 !! Page = Some p11
    ∧ ClassOutline.methodsSince p11 !! close = Some (JS.lit "v1.1.0")
    ∧ ClassOutline.methodsUntil p11 !! close = None.
Proof.
  intros N11 N10 N09 S11 S10 S09 C11 C10 C09 [v11 M11] M10 [v09 M09].
  destruct (scan_release_fresh _ _ S11) as [E11 F11].
  destruct (scan_release_fresh _ _ S10) as [E10 F10].
  destruct (scan_release_fresh _ _ S09) as [E09 F09].
  destruct (F11 _ _ C11) as (_ & _ & V11 & U11).
  destruct (F10 _ _ C10) as (_ & _ & _ & U10).
  destruct (F09 _ _ C09) as (_ & _ & V09 & U09).
  pose proof (V11 Method _ _ M11) as ->. pose proof (V09 Method _ _ M09) as ->.
  set (b10 := since_release s09 s10).
  set (b11 := since_release b10 s11).
  set (u10 := until_release b11 b10).
  set (u09 := until_release u10 s09).
  assert (Hb10 : Release.classesLifespan b10 !! Page
                 = Some (since_class (Some o09) o10)).
  { unfold b10. by rewrite since_release_classes, C09, C10. }
  assert (Hb11 : Release.classesLifespan b11 !! Page
                 = Some (since_class (Some (since_class (Some o09) o10)) o11)).
  { unfold b11. by rewrite since_release_classes, Hb10, C11. }
  assert (Hu10 : Release.classesLifespan u10 !! Page
                 = Some (until_class (Release.name b11)
                           (Some (since_class (Some (since_class (Some o09) o10)) o11))
                           (since_class (Some o09) o10))).
  { unfold u10. by rewrite until_release_classes, Hb11, Hb10. }
  exists b11, u10, u09. eexists. eexists.
  split.
  { unfold _initializeAPILifespan. cbn [scan_releases].
    rewrite S11, S10, S09, since_phase_sweep. cbn [since_sweep].
    by rewrite until_phase_sweep. }
  split.
  { unfold u09. rewrite until_release_classes, Hu10, C09. reflexivity. }
  assert (Hs10 : ∀ prev, sinceOf Method (since_class prev o10) !! close = None).
  { intros [p|]; [|done]. by rewrite sinceOf_since_class; simpl; rewrite M10. }
  split; [by rewrite N09 in M09|].
  split.
  { change (ClassOutline.methodsUntil ?o) with (untilOf Method o).
    rewrite untilOf_until_class_Some. simpl sinceOf at 1. rewrite M09.
    rewrite untilOf_until_class_Some, Hs10, untilOf_since_class.
    rewrite (U10 Method), lookup_empty.
    rewrite sinceOf_until_class, Hs10.
    rewrite decide_False by (by intros [? ?]).
    unfold u10, b10. simpl. by rewrite E10, N10. }
  split; [exact Hb11|].
  split.
  { change (ClassOutline.methodsSince ?o) with (sinceOf Method o).
    rewrite sinceOf_since_class, Hs10. simpl sinceOf. rewrite M11. simpl.
    by rewrite N11. }
  change (ClassOutline.methodsUntil ?o) with (untilOf Method o).
  by rewrite untilOf_since_class, (U11 Method), lookup_empty.
Qed.

Lemma C1_close_removed_then_reintroduced_witness :
  ∃ i11 i10 i09 p11 p09,
    _initializeAPILifespan [Scenario.r11; Scenario.r10; Scenario.r09]
    = inr [i11; i10; i09]
    ∧ Release.classesLifespan i09 !! Page = Some p09
    ∧ ClassOutline.methodsSince p09 !! close = Some (JS.lit "v0.9.0")
    ∧ ClassOutline.methodsUntil p09 !! close = Some (JS.lit "v1.0.0")
    ∧ Release.classesLifespan i11 !! Page = Some p11
    ∧ ClassOutline.methodsSince p11 !! close = Some (JS.lit "v1.1.0")
    ∧ ClassOutline.methodsUntil p11 !! close = None.
Proof.
  eapply C1_close_removed_then_reintroduced.
  - reflexivity.
  - reflexivity.
  - reflexivity.
  - vm_compute. reflexivity.
  - vm_compute. reflexivity.
  - vm_compute. reflexivity.
  - vm_compute. reflexivity.
  - vm_compute. reflexivity.
  - vm_compute. reflexivity.
  - vm_compute. eexists. reflexivity.
  - vm_compute. reflexivity.
  - vm_compute. eexists. reflexivity.
Defined.

(** ** The sweeps on the sample releases *)


Lemma C3_until_propagation_witness :
  ∃ rs R0 R Rn o0,
    scan_releases [Scenario.r11; Scenario.r10; Scenario.r09] = inr rs
    ∧ rs !! (1 + 1) = Some R0
    ∧ until_phase rs !! (1 + 1) = Some R
    ∧ until_phase rs !! 1 = Some Rn
    ∧ Release.classesLifespan R0 !! Page = Some o0
    ∧ ∃ o, Release.classesLifespan R !! Page = Some o ∧
        match Release.classesLifespan Rn !! Page with
        | None =>
            ClassOutline.until o = Release.name Rn
            ∧ ∀ k n, untilOf k o !! n
                     = (λ _, Release.name Rn) <$> untilOf k o0 !! n
        | Some nx =>
            ClassOutline.until o = ClassOutline.until nx
            ∧ ∀ k n, is_Some (sinceOf k o0 !! n) →
                untilOf k o !! n =
                match untilOf k nx !! n with
                | Some v => Some v
                | None =>
                    if decide (sinceOf k nx !! n = None)
                    then Some (Release.name Rn)
                    else untilOf k o0 !! n
                end
                ∧ (untilOf k o0 !! n = None →
                   untilOf k nx !! n = None → sinceOf k nx !! n ≠ None →
                   untilOf k o !! n = None)
        end.
Proof.
  do 5 eexists.
  split; [vm_compute; reflexivity|].
  match goal with
  | |- ?rs !! (1 + 1) = _ ∧ _ => pose proof (C3_until_propagation rs 1) as H
  end.
  split; [vm_compute; reflexivity|].
  split; [vm_compute; reflexivity|].
  split; [vm_compute; reflexivity|].
  split; [vm_compute; reflexivity|].
  eapply H.
  - vm_compute. reflexivity.
  - vm_compute. reflexivity.
  - vm_compute. reflexivity.
  - vm_compute. reflexivity.
Defined.

Lemma C7_resolved_until_marks_absence_witness :
  ∃ out R o,
    _initializeAPILifespan [Scenario.r11; Scenario.r10; Scenario.r09] = inr out
    ∧ out !! 2 = Some R
    ∧ Release.classesLifespan R !! Page = Some o
    ∧ untilOf Method o !! close = Some (JS.lit "v1.0.0")
    ∧ (is_Some (sinceOf Method o !! close)
       ∧ ∃ j Rv ov Ra oa,
           j < 2
           ∧ out !! j = Some Rv ∧ Release.name Rv = JS.lit "v1.0.0"
           ∧ Release.classesLifespan Rv !! Page = Some ov
           ∧ sinceOf Method ov !! close = None
           ∧ out !! (j + 1) = Some Ra
           ∧ Release.classesLifespan Ra !! Page = Some oa
           ∧ is_Some (sinceOf Method oa !! close)
           ∧ ∀ m, j < m ≤ 2 →
               ∃ Rm om, out !! m = Some Rm
                        ∧ Release.classesLifespan Rm !! Page = Some om
                        ∧ is_Some (sinceOf Method om !! close)).
Proof.
  do 3 eexists.
  split; [vm_compute; reflexivity|].
  split; [vm_compute; reflexivity|].
  split; [vm_compute; reflexivity|].
  split; [vm_compute; reflexivity|].
  eapply (C7_resolved_until_marks_absence
            [Scenario.r11; Scenario.r10; Scenario.r09]).
  - vm_compute. reflexivity.
  - vm_compute. reflexivity.
  - vm_compute. reflexivity.
  - vm_compute. reflexivity.
Defined.

Lemma C9_vanished_class_has_no_member_until_witness :
  ∃ out R Rn o,
    _initializeAPILifespan [Scenario.q2; Scenario.q1] = inr out
    ∧ out !! (0 + 1) = Some R
    ∧ out !! 0 = Some Rn
    ∧ Release.classesLifespan R !! Page = Some o
    ∧ Release.classesLifespan Rn !! Page = None
    ∧ (ClassOutline.until o = Release.name Rn
       ∧ ClassOutline.eventsUntil o = ∅
       ∧ ClassOutline.methodsUntil o = ∅
       ∧ ClassOutline.namespacesUntil o = ∅).
Proof.
  do 4 eexists.
  split; [vm_compute; reflexivity|].
  split; [vm_compute; reflexivity|].
  split; [vm_compute; reflexivity|].
  split; [vm_compute; reflexivity|].
  split; [vm_compute; reflexivity|].
  eapply (C9_vanished_class_has_no_member_until
            [Scenario.q2; Scenario.q1] _ 0 _ _ Page).
  - vm_compute. reflexivity.
  - vm_compute. reflexivity.
  - vm_compute. reflexivity.
  - vm_compute. reflexivity.
  - vm_compute. reflexivity.
Defined.

(** ** Member headings with no open class *)

(** Every exception of the scan is a read of one of the three [*Since]
    properties of [null]. *)
Lemma scan_title_error releaseName st title e :
  scan_title releaseName st title = inl e →
  ∃ p, p ∈ since_properties ∧ e = TypeError p.
Proof.
  destruct st as [m cur]. unfold scan_title, since_properties.
  destruct (Regex.exec classRegex title); [done|].
  destruct (Regex.exec eventRegex title).
  { destruct cur; simpl; [done|]. intros [= <-]. eexists. split; [|done].
    set_solver. }
  destruct (Regex.exec methodRegex title).
  { destruct cur; simpl; [done|]. intros [= <-]. eexists. split; [|done].
    set_solver. }
  destruct (Regex.exec nsRegex title); [|done].
  destruct cur; simpl; [done|]. intros [= <-]. eexists. split; [|done].
  set_solver.
Qed.

Lemma scan_titles_error releaseName ts : ∀ st e,
  scan_titles releaseName ts st = inl e →
  ∃ p, p ∈ since_properties ∧ e = TypeError p.
Proof.
  induction ts as [|t ts IH]; intros st e; simpl; [done|].
  destruct (scan_title releaseName st t) as [e'|st'] eqn:E.
  - intros [= <-]. by eapply scan_title_error.
  - apply IH.
Qed.

Lemma scan_release_error r e :
  scan_release r = inl e → ∃ p, p ∈ since_properties ∧ e = TypeError p.
Proof.
  unfold scan_release.
  destruct (scan_titles _ _ _) as [e'|[m cur]] eqn:E; [|done].
  intros [= <-]. by eapply scan_titles_error.
Qed.

Lemma scan_title_no_class releaseName m title :
  Regex.exec classRegex title = None →
  (∃ e, scan_title releaseName (m, None) title = inl e)
  ∨ scan_title releaseName (m, None) title = inr (m, None).
Proof.
  intros Hc. unfold scan_title. rewrite Hc.
  destruct (Regex.exec eventRegex title); [left; by eexists|].
  destruct (Regex.exec methodRegex title); [left; by eexists|].
  destruct (Regex.exec nsRegex title); [left; by eexists|].
  by right.
Qed.

Lemma scan_title_member releaseName m title :
  member_heading title →
  ∃ e, scan_title releaseName (m, None) title = inl e.
Proof.
  intros [Hc Hm]. unfold scan_title. rewrite Hc.
  destruct (Regex.exec eventRegex title); [by eexists|].
  destruct (Regex.exec methodRegex title); [by eexists|].
  destruct (Regex.exec nsRegex title); [by eexists|].
  destruct Hm as [[? ?]|[[? ?]|[? ?]]]; done.
Qed.

Lemma scan_titles_malformed releaseName pre h post m :
  Forall (λ t, Regex.exec classRegex t = None) pre →
  member_heading h →
  ∃ e pre' h' post',
    pre ++ h :: post = pre' ++ h' :: post'
    ∧ scan_titles releaseName pre' (m, None) = inr (m, None)
    ∧ scan_title releaseName (m, None) h' = inl e
    ∧ scan_titles releaseName (pre ++ h :: post) (m, None) = inl e.
Proof.
  intros Hpre Hh.
  induction Hpre as [|t pre Ht Hpre IH]; cbn [app scan_titles].
  - destruct (scan_title_member releaseName m h Hh) as [e He].
    exists e, [], h, post. by rewrite He.
  - destruct (scan_title_no_class releaseName m t Ht) as [[e He]|He].
    + exists e, [], t, (pre ++ h :: post). by rewrite He.
    + destruct IH as (e & pre' & h' & post' & Heq & Hpre' & Hh' & Hall).
      exists e, (t :: pre'), h', post'. rewrite He.
      split; [by rewrite Heq|]. split; [|done].
      cbn [scan_titles]. by rewrite He.
Qed.

Lemma scan_releases_fails (releases : list Release) r e :
  r ∈ releases → scan_release r = inl e →
  ∃ e', scan_releases releases = inl e'.
Proof.
  intros Hin Hr. induction releases as [|r0 rs IH]; [by inversion Hin|].
  cbn [scan_releases]. apply elem_of_cons in Hin as [<-|Hin].
  - rewrite Hr. by eexists.
  - destruct (scan_release r0); [by eexists|].
    destruct (IH Hin) as [e' ->]. by eexists.
Qed.

Lemma scan_releases_error (releases : list Release) : ∀ e,
  scan_releases releases = inl e →
  ∃ p, p ∈ since_properties ∧ e = TypeError p.
Proof.
  induction releases as [|r rs IH]; intros e; simpl; [done|].
  destruct (scan_release r) as [e1|r1] eqn:E1.
  - intros [= <-]. by eapply scan_release_error.
  - destruct (scan_releases rs) as [e2|out]; [|done].
    intros [= <-]. by apply IH.
Qed.

(** C6, as the code has it.  A release whose heading list has a member
    heading before any class heading makes its scan throw: some heading is
    reached with no class recorded and none open, and filing it reads a
    [*Since] property of [null].  The exception is that [TypeError]; it
    carries the property name only.  The construction of the index over any
    array containing the release throws such an exception instead of
    returning an index. *)
Theorem C6_malformed_release_throws (releases : list Release) (r : Release) :
  malformed r →
  r ∈ releases →
  (∃ p pre h post,
     p ∈ since_properties
     ∧ titles r = pre ++ h :: post
     ∧ scan_titles (Release.name r) pre (∅, None) = inr (∅, None)
     ∧ scan_title (Release.name r) (∅, None) h = inl (TypeError p)
     ∧ scan_release r = inl (TypeError p))
  ∧ (∃ p, p ∈ since_properties
          ∧ _initializeAPILifespan releases = inl (TypeError p)).
Proof.
  intros (pre & h & post & Ht & Hpre & Hh) Hin.
  destruct (scan_titles_malformed (Release.name r) pre h post ∅ Hpre Hh)
    as (e & pre' & h' & post' & Heq & Hpre' & Hh' & Hall).
  assert (Hr : scan_release r = inl e).
  { unfold scan_release. by rewrite Ht, Hall. }
  destruct (scan_release_error _ _ Hr) as (p & Hp & ->).
  split.
  - exists p, pre', h', post'. by rewrite Ht.
  - destruct (scan_releases_fails _ _ _ Hin Hr) as [e' He'].
    destruct (scan_releases_error _ _ He') as (p' & Hp' & ->).
    exists p'. split; [done|]. unfold _initializeAPILifespan. by rewrite He'.
Qed.

Lemma C6_malformed_release_throws_witness :
  malformed Scenario.bad1
  ∧ Scenario.bad1 ∈ [Scenario.r11; Scenario.bad1]
  ∧ (∃ p pre h post,
       p ∈ since_properties
       ∧ titles Scenario.bad1 = pre ++ h :: post
       ∧ scan_titles (Release.name Scenario.bad1) pre (∅, None)
         = inr (∅, None)
       ∧ scan_title (Release.name Scenario.bad1) (∅, None) h
         = inl (TypeError p)
       ∧ scan_release Scenario.bad1 = inl (TypeError p))
  ∧ (∃ p, p ∈ since_properties
          ∧ _initializeAPILifespan [Scenario.r11; Scenario.bad1]
            = inl (TypeError p)).
Proof.
  assert (Hm : malformed Scenario.bad1).
  { exists [], (JS.lit "#### event: 'load'"), [].
    split; [vm_compute; reflexivity|]. split; [constructor|].
    split; [vm_compute; reflexivity|]. left. vm_compute. by eexists. }
  assert (Hin : Scenario.bad1 ∈ [Scenario.r11; Scenario.bad1]).
  { apply list_elem_of_In. simpl. auto. }
  split; [exact Hm|]. split; [exact Hin|].
  exact (C6_malformed_release_throws _ _ Hm Hin).
Defined.

(** The exception does not tell which release or which heading was at
    fault: two releases that differ in both throw the same value. *)
Lemma C6_error_does_not_identify_release :
  ¬ ∃ describe : Exception → jsstring * jsstring,
      ∀ r h, offending r h →
        ∃ e, _initializeAPILifespan [r] = inl e
             ∧ describe e = (Release.name r, h).
Proof.
  intros [describe H].
  assert (H1 : offending Scenario.bad1 (JS.lit "#### event: 'load'")).
  { exists [], []. split; [vm_compute; reflexivity|]. split; [constructor|].
    split; [vm_compute; reflexivity|]. left. vm_compute. by eexists. }
  assert (H2 : offending Scenario.bad2 (JS.lit "#### event: 'close'")).
  { exists [], []. split; [vm_compute; reflexivity|]. split; [constructor|].
    split; [vm_compute; reflexivity|]. left. vm_compute. by eexists. }
  destruct (H _ _ H1) as (e1 & He1 & Hd1).
  destruct (H _ _ H2) as (e2 & He2 & Hd2).
  vm_compute in He1, He2. injection He1 as <-. injection He2 as <-.
  rewrite Hd1 in Hd2. vm_compute in Hd2. discriminate Hd2.
Qed.

End LifespanFacts.

(** * Properties of the renderer *)

Module RenderFacts.
Import DOM Render RenderSpec.

(** ** Substrings *)

Lemma substring_take_drop (s : jsstring) a b :
  a ≤ b → b ≤ length s → JS.substring s a b = take (b - a) (drop a s).
Proof.
  intros Hab Hb. unfold JS.substring, JS.length.
  by rewrite (Nat.min_l a), (Nat.min_l b), Nat.min_l, Nat.max_r by lia.
Qed.

Lemma take_substring (s : jsstring) a b :
  a ≤ b → b ≤ length s → take b s = take a s ++ JS.substring s a b.
Proof.
  intros Hab Hb. rewrite substring_take_drop, take_take_drop by done.
  f_equal. lia.
Qed.

Lemma length_substring (s : jsstring) a b :
  a ≤ b → b ≤ length s → length (JS.substring s a b) = b - a.
Proof.
  intros Hab Hb. rewrite substring_take_drop by done.
  rewrite length_take, length_drop. lia.
Qed.

Lemma substring_all (s : jsstring) : JS.substring s 0 (length s) = s.
Proof.
  rewrite substring_take_drop by lia. rewrite drop_0, Nat.sub_0_r.
  by apply take_ge.
Qed.

(** ** Runs *)

Lemma fmap_seq_const (hl : nat → bool) b n : ∀ a,
  (∀ p, a ≤ p < a + n → hl p = b) → hl <$> seq a n = replicate n b.
Proof.
  induction n as [|n IH]; intros a H; [done|].
  simpl. rewrite (H a) by lia. f_equal. apply IH. intros p Hp. apply H. lia.
Qed.

Lemma flags_app runs1 runs2 : flags (runs1 ++ runs2) = flags runs1 ++ flags runs2.
Proof. unfold flags. apply flat_map_app. Qed.

Lemma last_flags (runs : list (bool * jsstring)) :
  Forall (λ r, r.2 ≠ []) runs → last (flags runs) = last (fst <$> runs).
Proof.
  induction runs as [|r runs IH] using rev_ind; intros Hne; [done|].
  rewrite Forall_app, Forall_singleton in Hne. destruct Hne as [_ Hr].
  rewrite flags_app, fmap_app. destruct r as [b s]. simpl in Hr.
  change ([(b, s)].*1) with [b]. rewrite last_snoc. unfold flags at 2.
  simpl. rewrite app_nil_r. destruct s as [|c s]; [done|]. simpl length.
  rewrite replicate_S_end, app_assoc. apply last_snoc.
Qed.

Lemma last_fmap_seq (hl : nat → bool) n :
  last (hl <$> seq 0 n) = match n with 0 => None | S m => Some (hl m) end.
Proof.
  destruct n as [|m]; [done|]. rewrite seq_S, fmap_app.
  change (hl <$> [0 + m]) with [hl m]. apply last_snoc.
Qed.

Lemma alternating_snoc (l : list bool) b :
  alternating l → last l ≠ Some b → alternating (l ++ [b]).
Proof.
  intros Hl Hlast i x y Hx Hy.
  destruct (decide (S i < length l)) as [Hlt|Hge].
  - rewrite lookup_app_l in Hx, Hy by lia. by eapply Hl.
  - apply lookup_lt_Some in Hy as Hlen. rewrite length_app in Hlen.
    simpl in Hlen. assert (S i = length l) as Hi by lia.
    rewrite lookup_app_r in Hy by lia.
    replace (S i - length l) with 0 in Hy by lia. injection Hy as <-.
    rewrite lookup_app_l in Hx by lia. rewrite last_lookup in Hlast.
    replace (pred (length l)) with i in Hlast by lia. congruence.
Qed.

Lemma maximal_runs_nil hl : maximal_runs hl [] [].
Proof. by split. Qed.

Lemma maximal_runs_snoc hl (text : jsstring) runs a b flag :
  maximal_runs hl (take a text) runs →
  a < b → b ≤ length text →
  (∀ p, a ≤ p < b → hl p = flag) →
  (0 < a → hl (a - 1) = negb flag) →
  maximal_runs hl (take b text) (runs ++ [(flag, JS.substring text a b)]).
Proof.
  intros [Ht Hf Hn Ha] Hab Hb Hflag Hprev.
  rewrite length_take, Nat.min_l in Hf by lia.
  split.
  - rewrite fmap_app, join_app, Ht. simpl. rewrite app_nil_r.
    symmetry. apply take_substring; lia.
  - rewrite flags_app, Hf, length_take, Nat.min_l by lia.
    unfold flags at 1. simpl. rewrite app_nil_r, length_substring by lia.
    replace b with (a + (b - a)) at 2 by lia.
    rewrite seq_app, fmap_app. f_equal. simpl. symmetry.
    apply fmap_seq_const. intros p Hp. apply Hflag. lia.
  - apply Forall_app. split; [done|]. apply Forall_singleton. simpl.
    intros Hnil. apply (f_equal length) in Hnil.
    rewrite length_substring in Hnil by lia. simpl in Hnil. lia.
  - rewrite fmap_app. apply alternating_snoc; [done|].
    rewrite <- last_flags, Hf, last_fmap_seq by done.
    destruct a as [|a']; [done|]. intros [= Heq].
    specialize (Hprev ltac:(lia)). replace (S a' - 1) with a' in Hprev by lia.
    rewrite Heq in Hprev. by destruct flag.
Qed.

(** ** The loop over the positions of one token *)

Lemma appendChild_shell tok cs r :
  appendChild (shell tok cs) (runNode r) = shell tok (cs ++ [runNode r]).
Proof. unfold shell, runNode. by destruct (tagOf tok), r as [[] s]. Qed.

Lemma flush_node (flag : bool) (piece : jsstring) :
  piece ≠ [] →
  (if flag then setTextContent (createElement search_highlight) piece
   else createTextNode piece) = runNode (flag, piece).
Proof. by destruct flag, piece. Qed.

Lemma substring_nonempty (s : jsstring) a b :
  a < b → b ≤ length s → JS.substring s a b ≠ [].
Proof.
  intros Hab Hb Hnil. apply (f_equal length) in Hnil.
  rewrite length_substring in Hnil by lia. simpl in Hnil. lia.
Qed.

Section token_loop.
Variables (tok : Token) (off : nat) (M : gset Z).

Lemma scan_position_step t st :
  t < length (Token.text tok) →
  loop_inv (inside M off) tok t st →
  loop_inv (inside M off) tok (S t) (scan_position tok off M st t).
Proof.
  intros Ht (Hle & Hlt & Hseg & Hprev & runs & Hres & Hruns).
  unfold scan_position. fold (inside M off t). unfold JS.length.
  destruct st as [a last res].
  cbn [from lastInsideHighlight result] in *.
  apply Nat.ltb_lt in Ht as Ht'. rewrite Ht', andb_true_r.
  destruct (Bool.eqb_spec (inside M off t) last) as [Heq|Hne].
  - repeat split; cbn [from lastInsideHighlight result fst snd];
      [lia|lia| |done|by exists runs].
    intros p Hp. destruct (decide (p = t)) as [->|]; [done|].
    apply Hseg. lia.
  - destruct (a <? t) eqn:Hat.
    + apply Nat.ltb_lt in Hat.
      assert (Hlast : inside M off (t - 1) = last) by (apply Hseg; lia).
      repeat split; cbn [from lastInsideHighlight result fst snd];
        [lia|lia| | |].
      * intros p Hp. by replace p with t by lia.
      * intros _. rewrite Hlast. by destruct (inside M off t), last.
      * exists (runs ++ [(last, JS.substring (Token.text tok) a t)]).
        split.
        -- rewrite flush_node by (apply substring_nonempty; lia).
           by rewrite Hres, appendChild_shell, fmap_app.
        -- apply maximal_runs_snoc; [done|lia|lia|done|done].
    + apply Nat.ltb_ge in Hat.
      assert (t = 0) as -> by (destruct t; [done|lia]).
      assert (a = 0) as -> by lia.
      repeat split; cbn [from lastInsideHighlight result fst snd];
        [lia|lia| |lia|by exists runs].
      intros p Hp. by replace p with 0 by lia.
Qed.

Lemma scan_position_final st :
  loop_inv (inside M off) tok (length (Token.text tok)) st →
  ∃ runs,
    result (scan_position tok off M st (length (Token.text tok)))
    = shell tok (runNode <$> runs)
    ∧ maximal_runs (inside M off) (Token.text tok) runs.
Proof.
  intros (Hle & Hlt & Hseg & Hprev & runs & Hres & Hruns).
  unfold scan_position. unfold JS.length.
  rewrite Nat.ltb_irrefl, andb_false_r.
  destruct st as [a last res].
  cbn [from lastInsideHighlight result] in *.
  destruct (a <? length (Token.text tok)) eqn:Hat;
    cbn [from lastInsideHighlight result fst snd].
  - apply Nat.ltb_lt in Hat.
    exists (runs ++ [(last, JS.substring (Token.text tok) a
                              (length (Token.text tok)))]).
    split.
    + rewrite flush_node by (apply substring_nonempty; lia).
      by rewrite Hres, appendChild_shell, fmap_app.
    + rewrite <- (take_ge (Token.text tok) (length (Token.text tok)))
        at 1 by lia.
      apply maximal_runs_snoc; [done|lia|lia|done|done].
  - apply Nat.ltb_ge in Hat. exists runs. split; [done|].
    by rewrite take_ge in Hruns by lia.
Qed.

Lemma loop_inv_fold t :
  t ≤ length (Token.text tok) →
  loop_inv (inside M off) tok t
    (fold_left (scan_position tok off M) (seq 0 t)
       (mkLoop 0 false (shell tok []))).
Proof.
  induction t as [|t IH]; intros Ht.
  - split; [simpl; lia|]. split; [lia|]. split; [simpl; lia|].
    split; [simpl; lia|]. exists []. split; [done|].
    apply maximal_runs_nil.
  - rewrite seq_S, fold_left_app. simpl.
    apply scan_position_step; [lia|]. apply IH. lia.
Qed.

(** The children built for a token are its maximal runs. *)
Lemma renderToken_runs :
  ∃ runs,
    renderToken M off tok = shell tok (runNode <$> runs)
    ∧ maximal_runs (inside M off) (Token.text tok) runs.
Proof.
  unfold renderToken, JS.length. rewrite seq_S, fold_left_app. simpl.
  apply scan_position_final.
  assert (E : match tagOf tok with
              | Some t => createElement t
              | None => createDocumentFragment
              end = shell tok []) by (unfold shell; by destruct (tagOf tok)).
  rewrite E. by apply loop_inv_fold.
Qed.

End token_loop.

(** ** The whole token list *)

Lemma appendChild_fragment_shell cs tok chunk :
  appendChild (DocumentFragment cs) (shell tok chunk)
  = DocumentFragment (cs ++ wrapToken tok chunk).
Proof. unfold shell, wrapToken. by destruct (tagOf tok). Qed.

Lemma totalLength_cons tok tokens :
  totalLength (tok :: tokens) = length (Token.text tok) + totalLength tokens.
Proof. done. Qed.

Lemma fold_renderMatched (M : gset Z) (tokens : list Token) : ∀ cs off,
  ∃ chunks : list (list (bool * jsstring)),
    length chunks = length tokens
    ∧ fold_left (renderMatched M) tokens (DocumentFragment cs, off)
      = (DocumentFragment
           (cs ++ mjoin (zip_with (λ tok runs, wrapToken tok (runNode <$> runs))
                           tokens chunks)),
         off + totalLength tokens)
    ∧ ∀ i tok runs,
        tokens !! i = Some tok → chunks !! i = Some runs →
        maximal_runs (inside M (off + offsetOf tokens i)) (Token.text tok) runs.
Proof.
  induction tokens as [|tok tokens IH]; intros cs off.
  - exists []. split; [done|]. split; [|done].
    simpl. by rewrite app_nil_r, Nat.add_0_r.
  - destruct (renderToken_runs tok off M) as (runs0 & Hr & Hm).
    destruct (IH (cs ++ wrapToken tok (runNode <$> runs0))
                 (off + length (Token.text tok)))
      as (chunks & Hlen & Hfold & Hall).
    exists (runs0 :: chunks). split; [simpl; by rewrite Hlen|]. split.
    + cbn [fold_left]. unfold renderMatched at 2. cbn [fst snd].
      rewrite Hr, appendChild_fragment_shell. unfold JS.length.
      rewrite Hfold, totalLength_cons. simpl. by rewrite <- !app_assoc, Nat.add_assoc.
    + intros [|i] tok' runs; simpl.
      * intros [= <-] [= <-]. unfold offsetOf. simpl.
        by rewrite Nat.add_0_r.
      * intros Ht Hc. specialize (Hall i tok' runs Ht Hc).
        unfold offsetOf in *. cbn [take]. rewrite totalLength_cons.
        by rewrite Nat.add_assoc.
Qed.

Lemma fold_renderPlain (tokens : list Token) : ∀ cs,
  fold_left renderPlain tokens (DocumentFragment cs)
  = DocumentFragment (cs ++ (plainNode <$> tokens)).
Proof.
  induction tokens as [|tok tokens IH]; intros cs; simpl.
  - by rewrite app_nil_r.
  - assert (E : renderPlain (DocumentFragment cs) tok
                = DocumentFragment (cs ++ [plainNode tok])).
    { unfold renderPlain, plainNode. destruct (tagOf tok); [|done].
      by destruct (Token.text tok). }
    by rewrite E, IH, <- app_assoc.
Qed.

(** ** Text content *)

Lemma textContent_runNode r : textContent (runNode r) = r.2.
Proof. destruct r as [[] s]; simpl; [apply app_nil_r|done]. Qed.

Lemma textContent_runs (runs : list (bool * jsstring)) :
  flat_map textContent (runNode <$> runs) = mjoin (snd <$> runs).
Proof.
  induction runs as [|r runs IH]; [done|].
  cbn [fmap list_fmap flat_map mjoin list_join].
  by rewrite textContent_runNode, IH.
Qed.

Lemma textContent_wrapToken tok chunk :
  flat_map textContent (wrapToken tok chunk) = flat_map textContent chunk.
Proof.
  unfold wrapToken. destruct (tagOf tok); [|done]. simpl. apply app_nil_r.
Qed.

Lemma textContent_plainNode tok : textContent (plainNode tok) = Token.text tok.
Proof.
  unfold plainNode. destruct (tagOf tok); [|done].
  destruct (Token.text tok); [done|]. simpl. by rewrite app_nil_r.
Qed.

Lemma textContent_chunks (hl : nat → nat → bool) (tokens : list Token) :
  ∀ (chunks : list (list (bool * jsstring))) off,
  length chunks = length tokens →
  (∀ i tok runs, tokens !! i = Some tok → chunks !! i = Some runs →
     maximal_runs (hl (off + offsetOf tokens i)) (Token.text tok) runs) →
  flat_map textContent
    (mjoin (zip_with (λ tok runs, wrapToken tok (runNode <$> runs))
              tokens chunks))
  = mjoin (Token.text <$> tokens).
Proof.
  induction tokens as [|tok tokens IH]; intros chunks off Hlen Hall; [done|].
  destruct chunks as [|runs chunks]; [done|].
  cbn [zip_with mjoin list_join fmap list_fmap]. rewrite flat_map_app.
  rewrite textContent_wrapToken, textContent_runs.
  rewrite (runs_text _ _ _ (Hall 0 tok runs eq_refl eq_refl)). f_equal.
  apply (IH chunks (off + length (Token.text tok))).
  - simpl in Hlen. lia.
  - intros i tok' runs' Ht Hc. specialize (Hall (S i) tok' runs' Ht Hc).
    unfold offsetOf in *. cbn [take] in Hall.
    by rewrite totalLength_cons, Nat.add_assoc in Hall.
Qed.

(** The text of the rendered fragment is the text of the tokens. *)
Lemma textContent_render (matches : list Z) (tokens : list Token) :
  textContent (renderTokensWithMatches matches tokens)
  = mjoin (Token.text <$> tokens).
Proof.
  unfold renderTokensWithMatches. destruct matches as [|z matches].
  - unfold createDocumentFragment. rewrite fold_renderPlain.
    cbn [textContent app].
    induction tokens as [|tok tokens IH]; [done|].
    cbn [fmap list_fmap flat_map mjoin list_join].
    by rewrite textContent_plainNode, IH.
  - destruct (fold_renderMatched (list_to_set (z :: matches)) tokens [] 0)
      as (chunks & Hlen & Hfold & Hall).
    unfold createDocumentFragment. rewrite Hfold. cbn [fst textContent app].
    by apply (textContent_chunks (inside (list_to_set (z :: matches)))
                tokens chunks 0).
Qed.

(** ** The claims about the rendered runs *)

(** C4.  Whatever the matched offsets, the text nodes of the rendered
    fragment, read in order, spell the concatenation of the token texts. *)
Theorem C4_render_roundtrip (matches : list Z) (tokens : list Token) :
  textContent (renderTokensWithMatches matches tokens)
  = mjoin (Token.text <$> tokens).
Proof. apply textContent_render. Qed.

(** C5.  With an empty [matches] every token gives one plain node and
    there is no highlight.  With a non-empty [matches], the fragment is the
    concatenation, token by token, of the token's own nodes (inside its
    element when it has a tag), and the children of token [i] are exactly
    its maximal runs: they spell the token's text, each carries the matched
    status of all its characters, none is empty, and neighbouring runs
    differ in status.  So consecutive matched offsets inside one token
    share one [search-highlight] node, and no highlight node reaches past
    the token it belongs to. *)
Theorem C5_highlight_runs (matches : list Z) (tokens : list Token) :
  (matches = [] →
   renderTokensWithMatches matches tokens
   = DocumentFragment (plainNode <$> tokens))
  ∧ (matches ≠ [] →
     ∃ chunks : list (list (bool * jsstring)),
       length chunks = length tokens
       ∧ renderTokensWithMatches matches tokens
         = DocumentFragment
             (mjoin (zip_with (λ tok runs, wrapToken tok (runNode <$> runs))
                       tokens chunks))
       ∧ ∀ i tok runs,
           tokens !! i = Some tok → chunks !! i = Some runs →
           maximal_runs (inside (list_to_set matches) (offsetOf tokens i))
             (Token.text tok) runs).
Proof.
  split.
  - intros ->. unfold renderTokensWithMatches, createDocumentFragment.
    by rewrite fold_renderPlain.
  - intros Hne. destruct matches as [|z matches]; [done|].
    destruct (fold_renderMatched (list_to_set (z :: matches)) tokens [] 0)
      as (chunks & Hlen & Hfold & Hall).
    exists chunks. split; [done|]. split; [|done].
    unfold renderTokensWithMatches, createDocumentFragment. by rewrite Hfold.
Qed.

(** ** Offsets outside the text *)

Lemma scan_position_ext tok off (M1 M2 : gset Z) st t :
  inside M1 off t = inside M2 off t →
  scan_position tok off M1 st t = scan_position tok off M2 st t.
Proof. unfold scan_position, inside. by intros ->. Qed.

Lemma fold_scan_position_ext tok off (M1 M2 : gset Z) (l : list nat) : ∀ st,
  (∀ t, t ∈ l → inside M1 off t = inside M2 off t) →
  fold_left (scan_position tok off M1) l st
  = fold_left (scan_position tok off M2) l st.
Proof.
  induction l as [|t l IH]; intros st H; [done|]. simpl.
  rewrite (scan_position_ext tok off M1 M2) by (apply H; set_solver).
  apply IH. intros t' Ht'. apply H. set_solver.
Qed.

(** The last position only flushes: what it reads from the set is not
    used for the node. *)
Lemma scan_position_last_result tok off (M1 M2 : gset Z) st :
  result (scan_position tok off M1 st (length (Token.text tok)))
  = result (scan_position tok off M2 st (length (Token.text tok))).
Proof.
  unfold scan_position, JS.length. by rewrite Nat.ltb_irrefl, !andb_false_r.
Qed.

Lemma renderToken_ext tok off (M1 M2 : gset Z) :
  (∀ t, t < length (Token.text tok) → inside M1 off t = inside M2 off t) →
  renderToken M1 off tok = renderToken M2 off tok.
Proof.
  intros H. unfold renderToken, JS.length.
  rewrite seq_S, !fold_left_app. cbn [fold_left plus].
  rewrite (fold_scan_position_ext tok off M1 M2).
  - apply scan_position_last_result.
  - intros t Ht. apply H. apply elem_of_seq in Ht. lia.
Qed.

Lemma fold_renderMatched_ext (M1 M2 : gset Z) (tokens : list Token) : ∀ st,
  (∀ z, (0 ≤ z < Z.of_nat (st.2 + totalLength tokens))%Z → z ∈ M1 ↔ z ∈ M2) →
  fold_left (renderMatched M1) tokens st
  = fold_left (renderMatched M2) tokens st.
Proof.
  induction tokens as [|tok tokens IH]; intros [frag off] H; [done|].
  cbn [fold_left]. cbn [snd] in H. rewrite totalLength_cons in H.
  assert (E : renderMatched M1 (frag, off) tok = renderMatched M2 (frag, off) tok).
  { unfold renderMatched. cbn [fst snd]. f_equal. f_equal.
    apply renderToken_ext. intros t Ht. unfold inside.
    apply bool_decide_ext, H. lia. }
  rewrite E. apply IH. intros z Hz. apply H.
  unfold renderMatched, JS.length in Hz. cbn [fst snd] in Hz. lia.
Qed.

Lemma elem_of_validOffsets (tokens : list Token) (matches : list Z) z :
  z ∈ validOffsets tokens matches
  ↔ z ∈ matches ∧ (0 ≤ z < Z.of_nat (totalLength tokens))%Z.
Proof.
  unfold validOffsets. rewrite !list_elem_of_In, filter_In.
  rewrite andb_true_iff, Z.leb_le, Z.ltb_lt. tauto.
Qed.

Lemma fold_scan_position_unmatched tok off (l : list nat) st :
  lastInsideHighlight st = false →
  (∀ t, t ∈ l → t < length (Token.text tok)) →
  fold_left (scan_position tok off ∅) l st = st.
Proof.
  intros Hlast. induction l as [|t l IH]; intros H; [done|]. simpl.
  assert (E : scan_position tok off ∅ st t = st).
  { unfold scan_position, JS.length. rewrite Hlast.
    rewrite bool_decide_false by set_solver.
    assert (t < length (Token.text tok)) as Ht by (apply H; set_solver).
    apply Nat.ltb_lt in Ht. by rewrite Ht. }
  rewrite E. apply IH. intros t' Ht'. apply H. set_solver.
Qed.

(** A token none of whose characters is matched is rendered as one text
    node, or as nothing when it has no text. *)
Lemma renderToken_unmatched tok off (M : gset Z) :
  (∀ t, t < length (Token.text tok) → inside M off t = false) →
  renderToken M off tok
  = shell tok (match Token.text tok with
               | [] => []
               | _ => [Text (Token.text tok)]
               end).
Proof.
  intros H. rewrite (renderToken_ext tok off M ∅).
  2:{ intros t Ht. rewrite (H t Ht). unfold inside.
      by rewrite bool_decide_false by set_solver. }
  unfold renderToken, JS.length. rewrite seq_S, fold_left_app.
  rewrite (fold_scan_position_unmatched tok off
             (seq 0 (length (Token.text tok)))).
  2:{ reflexivity. }
  2:{ intros t Ht. apply elem_of_seq in Ht. lia. }
  cbn [fold_left plus]. unfold scan_position, JS.length.
  rewrite Nat.ltb_irrefl, andb_false_r. cbn [from result lastInsideHighlight].
  unfold shell. destruct (Token.text tok) as [|c s] eqn:Ht.
  - by destruct (tagOf tok).
  - rewrite <- Ht. assert ((0 <? length (Token.text tok)) = true) as ->.
    { apply Nat.ltb_lt. rewrite Ht. simpl. lia. }
    cbn [fst snd]. rewrite substring_all.
    by destruct (tagOf tok).
Qed.

Lemma fold_renderMatched_unmatched (M : gset Z) (tokens : list Token) :
  ∀ cs off,
  (∀ z, (0 ≤ z < Z.of_nat (off + totalLength tokens))%Z → z ∉ M) →
  (fold_left (renderMatched M) tokens (DocumentFragment cs, off)).1
  = DocumentFragment (cs ++ flat_map unmatchedNodes tokens).
Proof.
  induction tokens as [|tok tokens IH]; intros cs off H.
  - simpl. by rewrite app_nil_r.
  - rewrite totalLength_cons in H.
    cbn [fold_left flat_map]. unfold renderMatched at 2. cbn [fst snd].
    rewrite renderToken_unmatched.
    2:{ intros t Ht. unfold inside. apply bool_decide_false, H. lia. }
    rewrite appendChild_fragment_shell, IH; [by rewrite <- app_assoc|].
    intros z Hz. apply H. unfold JS.length in Hz. lia.
Qed.

(** The two branches agree on a token that has a tag or a text. *)
Lemma unmatchedNodes_plainNode (tokens : list Token) :
  Forall (λ tok, tagOf tok = None → Token.text tok ≠ []) tokens →
  flat_map unmatchedNodes tokens = plainNode <$> tokens.
Proof.
  induction 1 as [|tok tokens Htok _ IH]; [done|].
  cbn [flat_map fmap list_fmap]. rewrite IH.
  unfold unmatchedNodes, wrapToken, plainNode.
  destruct (tagOf tok); [done|].
  destruct (Token.text tok); [by destruct Htok|done].
Qed.

(** On any token they agree up to an empty text node. *)
Lemma removeEmptyText_unmatchedNodes (tokens : list Token) :
  removeEmptyText (DocumentFragment (flat_map unmatchedNodes tokens))
  = removeEmptyText (DocumentFragment (plainNode <$> tokens)).
Proof.
  cbn [removeEmptyText]. f_equal.
  induction tokens as [|tok tokens IH]; [done|].
  cbn [flat_map fmap list_fmap]. rewrite flat_map_app, IH.
  unfold unmatchedNodes, wrapToken, plainNode.
  destruct (tagOf tok); [done|]. by destruct (Token.text tok).
Qed.

Lemma render_unmatched (matches : list Z) (tokens : list Token) :
  matches ≠ [] →
  validOffsets tokens matches = [] →
  renderTokensWithMatches matches tokens
  = DocumentFragment (flat_map unmatchedNodes tokens).
Proof.
  intros Hne Hv. destruct matches as [|z matches]; [done|].
  unfold renderTokensWithMatches, createDocumentFragment.
  rewrite fold_renderMatched_unmatched; [done|].
  intros z' Hz' Hin. apply elem_of_list_to_set in Hin.
  assert (z' ∈ validOffsets tokens (z :: matches)) as Hin'
    by (apply elem_of_validOffsets; split; [done|lia]).
  rewrite Hv in Hin'. by apply elem_of_nil in Hin'.
Qed.

Lemma render_valid (matches : list Z) (tokens : list Token) :
  validOffsets tokens matches ≠ [] →
  renderTokensWithMatches matches tokens
  = renderTokensWithMatches (validOffsets tokens matches) tokens.
Proof.
  intros Hv. destruct matches as [|z matches]; [done|].
  destruct (validOffsets tokens (z :: matches)) as [|v vs] eqn:E; [done|].
  rewrite <- E. unfold renderTokensWithMatches. rewrite E at 1.
  f_equal. apply fold_renderMatched_ext. intros z' Hz'. cbn [snd] in Hz'.
  rewrite !elem_of_list_to_set, elem_of_validOffsets. split; [|tauto].
  intros Hin. split; [done|lia].
Qed.

(** Offsets outside the concatenated text do not change the fragment: the
    one built from [matches] and the one built from the offsets of
    [matches] that lie inside the text are equal once empty text nodes are
    left out, and they are equal as they stand provided some offset does
    lie inside, or [matches] is empty, or no token lacks both a tag and a
    text. *)
Lemma out_of_range_offsets_ignored
    (matches : list Z) (tokens : list Token) :
  removeEmptyText (renderTokensWithMatches matches tokens)
  = removeEmptyText
      (renderTokensWithMatches (validOffsets tokens matches) tokens)
  ∧ (validOffsets tokens matches ≠ []
     ∨ matches = []
     ∨ Forall (λ tok, tagOf tok = None → Token.text tok ≠ []) tokens →
     renderTokensWithMatches matches tokens
     = renderTokensWithMatches (validOffsets tokens matches) tokens).
Proof.
  destruct (decide (matches = [])) as [->|Hne]; [done|].
  destruct (decide (validOffsets tokens matches = [])) as [Hv|Hv].
  - rewrite (render_unmatched _ _ Hne Hv), Hv.
    unfold renderTokensWithMatches at 1 2, createDocumentFragment.
    rewrite fold_renderPlain. cbn [app].
    split; [apply removeEmptyText_unmatchedNodes|].
    intros [?|[?|Hall]]; [done|done|].
    by rewrite unmatchedNodes_plainNode.
  - by rewrite <- (render_valid _ _ Hv).
Qed.

(** ** The renderer on [page.click(selector)] *)

(** Offsets 0 to 5 cover [page.c]: the first token is one highlighted run;
    the second has a highlighted [c] and a plain [lick(selector)].  The
    match runs across the token boundary and still gives one highlight node
    per token. *)
Example render_click :
  renderTokensWithMatches [0; 1; 2; 3; 4; 5]%Z Scenario.clickTokens
  = DocumentFragment
      [Element PPTRSearchItem.method_class
         [Element search_highlight [Text (JS.lit "page.")]];
       Element PPTRSearchItem.method_name
         [Element search_highlight [Text (JS.lit "c")];
          Text (JS.lit "lick(selector)")]].
Proof. vm_compute. reflexivity. Qed.

Lemma C5_highlight_runs_witness :
  [0; 1; 2; 3; 4; 5]%Z ≠ []
  ∧ ∃ chunks : list (list (bool * jsstring)),
      length chunks = length Scenario.clickTokens
      ∧ renderTokensWithMatches [0; 1; 2; 3; 4; 5]%Z Scenario.clickTokens
        = DocumentFragment
            (mjoin (zip_with (λ tok runs, wrapToken tok (runNode <$> runs))
                      Scenario.clickTokens chunks))
      ∧ ∀ i tok runs,
          Scenario.clickTokens !! i = Some tok → chunks !! i = Some runs →
          maximal_runs
            (inside (list_to_set [0; 1; 2; 3; 4; 5]%Z)
               (offsetOf Scenario.clickTokens i))
            (Token.text tok) runs.
Proof.
  assert (H : [0; 1; 2; 3; 4; 5]%Z ≠ []) by discriminate.
  split; [exact H|].
  exact (proj2 (C5_highlight_runs [0; 1; 2; 3; 4; 5]%Z Scenario.clickTokens)
           H).
Defined.

End RenderFacts.

(** * Properties of the search items *)

Module SearchFacts.
Import DOM Render PPTRSearchItem.

Lemma text_methodTokens m :
  mjoin (Token.text <$> methodTokens m) = text (createForMethod m).
Proof. simpl. by rewrite app_nil_r, <- !app_assoc. Qed.

Lemma text_eventTokens e :
  mjoin (Token.text <$> eventTokens e) = text (createForEvent e).
Proof. simpl. by rewrite <- !app_assoc. Qed.

Lemma text_namespaceTokens n :
  mjoin (Token.text <$> namespaceTokens n) = text (createForNamespace n).
Proof. simpl. by rewrite app_nil_r, <- !app_assoc. Qed.

Lemma text_classTokens c :
  mjoin (Token.text <$> classTokens c) = text (createForClass c).
Proof. simpl. by rewrite app_nil_r. Qed.

(** Where the items of the list come from. *)
Lemma elem_of_searchItems (classes : list APIClassEntry.t) item :
  item ∈ searchItems classes →
  (∃ c, item = createForClass c)
  ∨ (∃ m, item = createForMethod m)
  ∨ (∃ e, item = createForEvent e)
  ∨ (∃ n, item = createForNamespace n).
Proof.
  unfold searchItems. rewrite list_elem_of_In, in_flat_map.
  intros (c & _ & Hin). apply list_elem_of_In in Hin.
  rewrite elem_of_cons, !elem_of_app, !list_elem_of_fmap in Hin.
  destruct Hin as [->|[(e & -> & _)|[(n & -> & _)|(m & -> & _)]]]; eauto 6.
Qed.

(** C8.  Every item of the search list is built by one of the four
    constructors.  Its title renderer passes a fixed token list to
    [renderTokensWithMatches]; the texts of these tokens concatenate to the
    item's text, which is the class name for a class,
    [loweredName.name(args)] for a method, [loweredName.on('name')] for an
    event and [loweredName.name] for a namespace; so the rendered title
    always spells the item's text. *)
Theorem C8_search_item_text (classes : list APIClassEntry.t) (item : t) :
  item ∈ searchItems classes →
  ∃ tokens,
    titleRenderer item = (λ matches, renderTokensWithMatches matches tokens)
    ∧ mjoin (Token.text <$> tokens) = text item
    ∧ (∀ matches, textContent (titleRenderer item matches) = text item)
    ∧ ((∃ c, item = createForClass c ∧ text item = APIClass.name c)
       ∨ (∃ m, item = createForMethod m
               ∧ text item
                 = APIClass.loweredName (APIMethod.apiClass m) ++ JS.lit "."
                   ++ APIMethod.name m ++ JS.lit "(" ++ APIMethod.args m
                   ++ JS.lit ")")
       ∨ (∃ e, item = createForEvent e
               ∧ text item
                 = APIClass.loweredName (APIEvent.apiClass e)
                   ++ JS.lit ".on('" ++ APIEvent.name e ++ JS.lit "')")
       ∨ (∃ n, item = createForNamespace n
               ∧ text item
                 = APIClass.loweredName (APINamespace.apiClass n)
                   ++ JS.lit "." ++ APINamespace.name n)).
Proof.
  intros Hin.
  destruct (elem_of_searchItems _ _ Hin)
    as [[c ->]|[[m ->]|[[e ->]|[n ->]]]].
  - exists (classTokens c). split; [done|]. split; [apply text_classTokens|].
    split; [|left; by exists c].
    intros matches. cbn [titleRenderer createForClass].
    by rewrite RenderFacts.textContent_render, text_classTokens.
  - exists (methodTokens m). split; [done|]. split; [apply text_methodTokens|].
    split; [|right; left; by exists m].
    intros matches. cbn [titleRenderer createForMethod].
    by rewrite RenderFacts.textContent_render, text_methodTokens.
  - exists (eventTokens e). split; [done|]. split; [apply text_eventTokens|].
    split; [|right; right; left; by exists e].
    intros matches. cbn [titleRenderer createForEvent].
    by rewrite RenderFacts.textContent_render, text_eventTokens.
  - exists (namespaceTokens n). split; [done|].
    split; [apply text_namespaceTokens|].
    split; [|right; right; right; by exists n].
    intros matches. cbn [titleRenderer createForNamespace].
    by rewrite RenderFacts.textContent_render, text_namespaceTokens.
Qed.

Lemma C8_search_item_text_witness :
  createForMethod Scenario.click ∈ searchItems [Scenario.pageEntry]
  ∧ ∃ tokens,
      titleRenderer (createForMethod Scenario.click)
      = (λ matches, renderTokensWithMatches matches tokens)
      ∧ mjoin (Token.text <$> tokens) = JS.lit "page.click(selector)".
Proof.
  assert (Hin : createForMethod Scenario.click
                ∈ searchItems [Scenario.pageEntry]).
  { apply list_elem_of_In. simpl. auto. }
  split; [exact Hin|].
  destruct (C8_search_item_text [Scenario.pageEntry] _ Hin)
    as (tokens & Hr & Ht & _).
  exists tokens. split; [exact Hr|]. rewrite Ht. vm_compute. reflexivity.
Defined.

End SearchFacts.


(** * More on the lifespan index *)

Module IndexFacts.
Import Lifespan LifespanSpec LifespanFacts IndexSpec.

(** ** What a release documents *)

Lemma same_members_has_class r R c :
  same_members r R → has_class R c ↔ has_class r c.
Proof.
  intros [_ H]. specialize (H c). unfold has_class.
  destruct (Release.classesLifespan r !! c), (Release.classesLifespan R !! c);
    try done; split; intros [? ?]; eauto; done.
Qed.

Lemma same_members_has_member r R c k n :
  same_members r R → has_member R c k n ↔ has_member r c k n.
Proof.
  intros [_ H]. specialize (H c). unfold has_member.
  destruct (Release.classesLifespan r !! c) as [o0|],
    (Release.classesLifespan R !! c) as [o|]; try done.
  split; intros (? & [= <-] & Hs); eexists; (split; [done|]); by apply H.
Qed.

(** ** Where a [since] comes from *)

(** The "since" sweep on releases whose outlines are as the scan leaves
    them: a member's version is the name of the last release of the run of
    consecutive releases, from this one on towards the older ones, that
    document the member. *)
Lemma since_sweep_member_run (rs : list Release) :
  (∀ i r c o, rs !! i = Some r → Release.classesLifespan r !! c = Some o →
              fresh (Release.name r) o) →
  ∀ i R c o k n v,
    since_sweep rs !! i = Some R →
    Release.classesLifespan R !! c = Some o →
    sinceOf k o !! n = Some v →
    ∃ j rj,
      i ≤ j ∧ rs !! j = Some rj ∧ Release.name rj = v
      ∧ (∀ m, i ≤ m ≤ j → ∃ rm, rs !! m = Some rm ∧ has_member rm c k n)
      ∧ (∀ r', rs !! S j = Some r' → ¬ has_member r' c k n).
Proof.
  induction rs as [|r rs IH]; intros Hf i R c o k n v HR Hc Hv; [done|].
  assert (Hf' : ∀ i r c o, rs !! i = Some r →
            Release.classesLifespan r !! c = Some o → fresh (Release.name r) o).
  { intros i' r' c' o' Hi'. by apply (Hf (S i')). }
  destruct i as [|i].
  - (* the head of the array *)
    assert (Hhere : ∀ o0, Release.classesLifespan r !! c = Some o0 →
              sinceOf k o0 !! n = Some v →
              (∀ r', rs !! 0 = Some r' → ¬ has_member r' c k n) →
              ∃ j rj, 0 ≤ j ∧ (r :: rs) !! j = Some rj ∧ Release.name rj = v
                ∧ (∀ m, 0 ≤ m ≤ j →
                     ∃ rm, (r :: rs) !! m = Some rm ∧ has_member rm c k n)
                ∧ (∀ r', (r :: rs) !! S j = Some r' → ¬ has_member r' c k n)).
    { intros o0 Ho0 Hv0 Hnext. exists 0, r. split; [done|]. split; [done|].
      destruct (Hf 0 r c o0 eq_refl Ho0) as (_ & _ & Hval & _).
      split; [symmetry; by eapply Hval|]. split; [|done].
      intros m Hm. replace m with 0 by lia. exists r. split; [done|].
      exists o0. eauto. }
    destruct (since_sweep_inv _ _ _ HR) as (r0 & Hr0 & Hcase).
    simpl in Hr0. injection Hr0 as <-.
    rewrite since_sweep_lookup_S in Hcase.
    destruct Hcase as [[Hnone ->]|(p & Hp & ->)].
    + apply (Hhere o Hc Hv). intros r' Hr'.
      by rewrite (since_sweep_lookup rs 0 r' Hr') in Hnone.
    + destruct (since_phase_same_members rs 0 p) as (r1 & Hr1 & Hsame).
      { by rewrite since_phase_sweep. }
      rewrite since_release_classes in Hc.
      apply fmap_Some in Hc as (o0 & Ho0 & ->).
      destruct (Release.classesLifespan p !! c) as [po|] eqn:Hpc.
      * rewrite sinceOf_since_class in Hv.
        destruct (sinceOf k o0 !! n) as [w|] eqn:Hw; [|done].
        destruct (sinceOf k po !! n) as [v'|] eqn:Hpo.
        -- simpl in Hv. injection Hv as ->.
           destruct (IH Hf' 0 p c po k n v Hp Hpc Hpo)
             as (j & rj & Hj & Hrj & Hname & Hrun & Hend).
           exists (S j), rj. split; [lia|]. split; [done|]. split; [done|].
           split; [|done]. intros [|m] Hm.
           ++ exists r. split; [done|]. exists o0. eauto.
           ++ apply Hrun. lia.
        -- simpl in Hv. injection Hv as ->. apply (Hhere o0 Ho0 Hw).
           intros r' Hr'. assert (r' = r1) as -> by congruence.
           rewrite <- (same_members_has_member _ _ c k n Hsame).
           intros (po' & Hpo' & Hs). rewrite Hpc in Hpo'.
           injection Hpo' as <-. rewrite Hpo in Hs. by destruct Hs.
      * simpl in Hv. apply (Hhere o0 Ho0 Hv).
        intros r' Hr'. assert (r' = r1) as -> by congruence.
        rewrite <- (same_members_has_member _ _ c k n Hsame).
        intros (po' & Hpo' & _). congruence.
  - rewrite since_sweep_lookup_S in HR.
    destruct (IH Hf' i R c o k n v HR Hc Hv)
      as (j & rj & Hj & Hrj & Hname & Hrun & Hend).
    exists (S j), rj. split; [lia|]. split; [done|]. split; [done|].
    split; [|done]. intros [|m] Hm; [lia|]. apply Hrun. lia.
Qed.

(** The same for the [since] of a class. *)
Lemma since_sweep_class_run (rs : list Release) :
  (∀ i r c o, rs !! i = Some r → Release.classesLifespan r !! c = Some o →
              fresh (Release.name r) o) →
  ∀ i R c o,
    since_sweep rs !! i = Some R →
    Release.classesLifespan R !! c = Some o →
    ∃ j rj,
      i ≤ j ∧ rs !! j = Some rj ∧ Release.name rj = ClassOutline.since o
      ∧ (∀ m, i ≤ m ≤ j → ∃ rm, rs !! m = Some rm ∧ has_class rm c)
      ∧ (∀ r', rs !! S j = Some r' → ¬ has_class r' c).
Proof.
  induction rs as [|r rs IH]; intros Hf i R c o HR Hc; [done|].
  assert (Hf' : ∀ i r c o, rs !! i = Some r →
            Release.classesLifespan r !! c = Some o → fresh (Release.name r) o).
  { intros i' r' c' o' Hi'. by apply (Hf (S i')). }
  destruct i as [|i].
  - assert (Hhere : ∀ o0, Release.classesLifespan r !! c = Some o0 →
              (∀ r', rs !! 0 = Some r' → ¬ has_class r' c) →
              ∃ j rj, 0 ≤ j ∧ (r :: rs) !! j = Some rj
                ∧ Release.name rj = ClassOutline.since o0
                ∧ (∀ m, 0 ≤ m ≤ j →
                     ∃ rm, (r :: rs) !! m = Some rm ∧ has_class rm c)
                ∧ (∀ r', (r :: rs) !! S j = Some r' → ¬ has_class r' c)).
    { intros o0 Ho0 Hnext. exists 0, r. split; [done|]. split; [done|].
      destruct (Hf 0 r c o0 eq_refl Ho0) as (Hs & _).
      split; [done|]. split; [|done].
      intros m Hm. replace m with 0 by lia. exists r. split; [done|].
      by exists o0. }
    destruct (since_sweep_inv _ _ _ HR) as (r0 & Hr0 & Hcase).
    simpl in Hr0. injection Hr0 as <-.
    rewrite since_sweep_lookup_S in Hcase.
    destruct Hcase as [[Hnone ->]|(p & Hp & ->)].
    + apply (Hhere o Hc). intros r' Hr'.
      by rewrite (since_sweep_lookup rs 0 r' Hr') in Hnone.
    + destruct (since_phase_same_members rs 0 p) as (r1 & Hr1 & Hsame).
      { by rewrite since_phase_sweep. }
      rewrite since_release_classes in Hc.
      apply fmap_Some in Hc as (o0 & Ho0 & ->).
      destruct (Release.classesLifespan p !! c) as [po|] eqn:Hpc.
      * destruct (IH Hf' 0 p c po Hp Hpc)
          as (j & rj & Hj & Hrj & Hname & Hrun & Hend).
        exists (S j), rj. split; [lia|]. split; [done|]. split; [done|].
        split; [|done]. intros [|m] Hm.
        -- exists r. split; [done|]. by exists o0.
        -- apply Hrun. lia.
      * apply (Hhere o0 Ho0).
        intros r' Hr'. assert (r' = r1) as -> by congruence.
        rewrite <- (same_members_has_class _ _ c Hsame).
        intros [po' Hpo']. congruence.
  - rewrite since_sweep_lookup_S in HR.
    destruct (IH Hf' i R c o HR Hc)
      as (j & rj & Hj & Hrj & Hname & Hrun & Hend).
    exists (S j), rj. split; [lia|]. split; [done|]. split; [done|].
    split; [|done]. intros [|m] Hm; [lia|]. apply Hrun. lia.
Qed.

(** ** From the scan to the constructed index *)

Lemma index_unfold (releases out : list Release) :
  _initializeAPILifespan releases = inr out →
  ∃ scanned, scan_releases releases = inr scanned
             ∧ out = until_phase (since_phase scanned).
Proof.
  unfold _initializeAPILifespan.
  destruct (scan_releases releases) as [e|scanned]; [done|].
  intros [= <-]. by exists scanned.
Qed.

Lemma since_phase_lookup_Some (rs : list Release) i r :
  rs !! i = Some r → ∃ R, since_phase rs !! i = Some R ∧ same_members r R.
Proof.
  intros Hr. rewrite since_phase_sweep.
  rewrite (since_sweep_lookup _ _ _ Hr). eexists. split; [done|].
  destruct (since_sweep rs !! S i);
    [apply since_release_same_members|apply same_members_refl].
Qed.

Lemma until_phase_lookup_Some (rs : list Release) i r :
  rs !! i = Some r → ∃ R, until_phase rs !! i = Some R ∧ same_members r R.
Proof.
  intros Hr. destruct i as [|i].
  - rewrite until_phase_lookup_0. exists r. split; [done|].
    apply same_members_refl.
  - destruct (until_phase_lookup_S _ _ _ Hr) as (nx & _ & HR).
    eexists. split; [exact HR|]. apply until_release_same_members.
Qed.

(** Scanned array and index, position by position. *)
Lemma index_of_scanned (scanned : list Release) i r :
  scanned !! i = Some r →
  ∃ R, until_phase (since_phase scanned) !! i = Some R ∧ same_members r R.
Proof.
  intros Hr. destruct (since_phase_lookup_Some _ _ _ Hr) as (b & Hb & Hrb).
  destruct (until_phase_lookup_Some _ _ _ Hb) as (R & HR & HbR).
  exists R. split; [done|]. by eapply same_members_trans.
Qed.

Lemma scanned_of_index (scanned : list Release) i R :
  until_phase (since_phase scanned) !! i = Some R →
  ∃ r, scanned !! i = Some r ∧ same_members r R.
Proof.
  intros HR. destruct (until_phase_same_members _ _ _ HR) as (b & Hb & HbR).
  destruct (since_phase_same_members _ _ _ Hb) as (r & Hr & Hrb).
  exists r. split; [done|]. by eapply same_members_trans.
Qed.

(** The "until" sweep leaves every [since] as it was. *)
Lemma until_phase_since (B : list Release) i R c o :
  until_phase B !! i = Some R →
  Release.classesLifespan R !! c = Some o →
  ∃ b o0, B !! i = Some b ∧ Release.classesLifespan b !! c = Some o0
          ∧ ClassOutline.since o = ClassOutline.since o0
          ∧ ∀ k, sinceOf k o = sinceOf k o0.
Proof.
  destruct i as [|i].
  - rewrite until_phase_lookup_0. intros HR Hc. by exists R, o.
  - intros HR Hc. destruct (until_phase_step _ _ _ HR) as (b & nx & Hb & _ & ->).
    rewrite until_release_classes in Hc.
    apply fmap_Some in Hc as (o0 & Ho0 & ->). exists b, o0.
    split; [done|]. split; [done|]. split; [apply since_until_class|].
    intros k. apply sinceOf_until_class.
Qed.

(** X1.  In the constructed index, the [*Since] value of a member at a
    release is the name of the oldest release of the unbroken run of
    releases, from that release on towards the older ones, that document
    the member in that class: every release of the run has the member, and
    the release after the run, if any, does not. *)
Theorem X1_member_since_is_oldest_of_run
    (releases out : list Release) i R c o k n v :
  _initializeAPILifespan releases = inr out →
  out !! i = Some R →
  Release.classesLifespan R !! c = Some o →
  sinceOf k o !! n = Some v →
  ∃ j Rj,
    i ≤ j ∧ out !! j = Some Rj ∧ Release.name Rj = v
    ∧ (∀ m, i ≤ m ≤ j → ∃ Rm, out !! m = Some Rm ∧ has_member Rm c k n)
    ∧ (∀ R', out !! S j = Some R' → ¬ has_member R' c k n).
Proof.
  intros Hinit HR Hc Hv.
  destruct (index_unfold _ _ Hinit) as (scanned & Hscan & ->).
  destruct (until_phase_since _ _ _ _ _ HR Hc) as (b & o0 & Hb & Ho0 & _ & Hs).
  rewrite Hs in Hv. rewrite since_phase_sweep in Hb.
  destruct (since_sweep_member_run scanned
              (λ i r c o, scanned_fresh releases scanned i r c o Hscan)
              i b c o0 k n v Hb Ho0 Hv)
    as (j & rj & Hj & Hrj & Hname & Hrun & Hend).
  destruct (index_of_scanned _ _ _ Hrj) as (Rj & HRj & Hsame).
  exists j, Rj. split; [done|]. split; [done|].
  split; [by rewrite (proj1 Hsame)|]. split.
  - intros m Hm. destruct (Hrun m Hm) as (rm & Hrm & Hmem).
    destruct (index_of_scanned _ _ _ Hrm) as (Rm & HRm & Hsm).
    exists Rm. split; [done|]. by apply (same_members_has_member _ _ c k n Hsm).
  - intros R' HR' Hmem.
    destruct (scanned_of_index _ _ _ HR') as (r' & Hr' & Hs').
    apply (Hend r' Hr'). by apply (same_members_has_member _ _ c k n Hs').
Qed.

(** X2.  In the constructed index, the [since] of a class at a release is
    the name of the oldest release of the unbroken run of releases, from
    that release on towards the older ones, that document the class. *)
Theorem X2_class_since_is_oldest_of_run
    (releases out : list Release) i R c o :
  _initializeAPILifespan releases = inr out →
  out !! i = Some R →
  Release.classesLifespan R !! c = Some o →
  ∃ j Rj,
    i ≤ j ∧ out !! j = Some Rj ∧ Release.name Rj = ClassOutline.since o
    ∧ (∀ m, i ≤ m ≤ j → ∃ Rm, out !! m = Some Rm ∧ has_class Rm c)
    ∧ (∀ R', out !! S j = Some R' → ¬ has_class R' c).
Proof.
  intros Hinit HR Hc.
  destruct (index_unfold _ _ Hinit) as (scanned & Hscan & ->).
  destruct (until_phase_since _ _ _ _ _ HR Hc) as (b & o0 & Hb & Ho0 & Hs & _).
  rewrite Hs. rewrite since_phase_sweep in Hb.
  destruct (since_sweep_class_run scanned
              (λ i r c o, scanned_fresh releases scanned i r c o Hscan)
              i b c o0 Hb Ho0)
    as (j & rj & Hj & Hrj & Hname & Hrun & Hend).
  destruct (index_of_scanned _ _ _ Hrj) as (Rj & HRj & Hsame).
  exists j, Rj. split; [done|]. split; [done|].
  split; [by rewrite (proj1 Hsame)|]. split.
  - intros m Hm. destruct (Hrun m Hm) as (rm & Hrm & Hmem).
    destruct (index_of_scanned _ _ _ Hrm) as (Rm & HRm & Hsm).
    exists Rm. split; [done|]. by apply (same_members_has_class _ _ c Hsm).
  - intros R' HR' Hmem.
    destruct (scanned_of_index _ _ _ HR') as (r' & Hr' & Hs').
    apply (Hend r' Hr'). by apply (same_members_has_class _ _ c Hs').
Qed.

(** ** Where an [until] comes from *)

(** Before the "until" sweep every class [until] is the empty string. *)
Lemma since_phase_until_empty (releases scanned : list Release) i b c o :
  scan_releases releases = inr scanned →
  since_phase scanned !! i = Some b →
  Release.classesLifespan b !! c = Some o →
  ClassOutline.until o = [].
Proof.
  intros Hscan Hb Hc. rewrite since_phase_sweep in Hb.
  destruct (since_sweep_inv _ _ _ Hb) as (r & Hr & [[_ ->]|(p & _ & ->)]).
  - by destruct (scanned_fresh _ _ _ _ _ _ Hscan Hr Hc) as (_ & Hu & _).
  - rewrite since_release_classes in Hc.
    apply fmap_Some in Hc as (o0 & Ho0 & ->). rewrite until_since_class.
    by destruct (scanned_fresh _ _ _ _ _ _ Hscan Hr Ho0) as (_ & Hu & _).
Qed.

(** A member missing from a newer release, with the class there all the
    way, gets that release's name. *)
Lemma until_phase_member_complete (B : list Release) c k n j Rj :
  (∀ i b c o k, B !! i = Some b → Release.classesLifespan b !! c = Some o →
                untilOf k o = ∅) →
  until_phase B !! j = Some Rj →
  has_class Rj c → ¬ has_member Rj c k n →
  ∀ i,
    j < i →
    (∀ m, j < m ≤ i → ∃ Rm, until_phase B !! m = Some Rm ∧ has_member Rm c k n) →
    ∀ R o,
      until_phase B !! i = Some R →
      Release.classesLifespan R !! c = Some o →
      untilOf k o !! n = Some (Release.name Rj).
Proof.
  intros HB HRj Hcj Hnj i. induction i as [|i IH]; intros Hji Hrun R o HR Hc.
  { lia. }
  destruct (until_phase_step _ _ _ HR) as (b & nx & Hb & Hnx & ->).
  destruct (Hrun (S i) ltac:(lia)) as (R' & HR' & o' & Ho' & Hmem).
  rewrite HR in HR'. injection HR' as <-. rewrite Hc in Ho'.
  injection Ho' as <-.
  rewrite until_release_classes in Hc.
  apply fmap_Some in Hc as (o0 & Ho0 & ->).
  rewrite sinceOf_until_class in Hmem. destruct Hmem as [w Hw].
  destruct (decide (i = j)) as [->|Hne].
  - assert (nx = Rj) as -> by congruence.
    destruct Hcj as [onx Honx]. rewrite Honx.
    rewrite untilOf_until_class_Some, Hw.
    assert (Hsn : sinceOf k onx !! n = None).
    { apply eq_None_not_Some. intros Hs. apply Hnj. by exists onx. }
    destruct (untilOf k onx !! n) as [v|] eqn:Hv.
    + destruct (until_phase_resolved B HB _ _ _ _ _ _ _ Hnx Honx Hv)
        as ([? Hs] & _). congruence.
    + rewrite Hsn. rewrite decide_False by (by intros [? ?]). done.
  - destruct (Hrun i ltac:(lia)) as (nx' & Hnx' & onx & Honx & Hmx).
    assert (nx' = nx) as -> by congruence.
    rewrite Honx, untilOf_until_class_Some, Hw.
    rewrite (IH ltac:(lia) (λ m Hm, Hrun m ltac:(lia)) nx onx Hnx Honx).
    done.
Qed.

(** The class [until]: the name of the nearest newer release without the
    class ... *)
Lemma until_phase_class_vanished (B : list Release) c j Rj :
  until_phase B !! j = Some Rj →
  ¬ has_class Rj c →
  ∀ i,
    j < i →
    (∀ m, j < m ≤ i → ∃ Rm, until_phase B !! m = Some Rm ∧ has_class Rm c) →
    ∀ R o,
      until_phase B !! i = Some R →
      Release.classesLifespan R !! c = Some o →
      ClassOutline.until o = Release.name Rj.
Proof.
  intros HRj Hnj i. induction i as [|i IH]; intros Hji Hrun R o HR Hc.
  { lia. }
  destruct (until_phase_step _ _ _ HR) as (b & nx & Hb & Hnx & ->).
  rewrite until_release_classes in Hc.
  apply fmap_Some in Hc as (o0 & Ho0 & ->).
  destruct (decide (i = j)) as [->|Hne].
  - assert (nx = Rj) as -> by congruence.
    destruct (Release.classesLifespan Rj !! c) as [onx|] eqn:Honx; [|done].
    exfalso. apply Hnj. by exists onx.
  - destruct (Hrun i ltac:(lia)) as (nx' & Hnx' & onx & Honx).
    assert (nx' = nx) as -> by congruence. rewrite Honx. simpl.
    apply (IH ltac:(lia) (λ m Hm, Hrun m ltac:(lia)) nx onx Hnx Honx).
Qed.

(** ... and the empty string when every newer release has the class. *)
Lemma until_phase_class_kept (B : list Release) c :
  (∀ i b o, B !! i = Some b → Release.classesLifespan b !! c = Some o →
            ClassOutline.until o = []) →
  ∀ i,
    (∀ m, m < i → ∃ Rm, until_phase B !! m = Some Rm ∧ has_class Rm c) →
    ∀ R o,
      until_phase B !! i = Some R →
      Release.classesLifespan R !! c = Some o →
      ClassOutline.until o = [].
Proof.
  intros HB i. induction i as [|i IH]; intros Hrun R o HR Hc.
  - rewrite until_phase_lookup_0 in HR. by eapply HB.
  - destruct (until_phase_step _ _ _ HR) as (b & nx & Hb & Hnx & ->).
    rewrite until_release_classes in Hc.
    apply fmap_Some in Hc as (o0 & Ho0 & ->).
    destruct (Hrun i ltac:(lia)) as (nx' & Hnx' & onx & Honx).
    assert (nx' = nx) as -> by congruence. rewrite Honx. simpl.
    apply (IH (λ m Hm, Hrun m ltac:(lia)) nx onx Hnx Honx).
Qed.

(** X3.  In the constructed index, take a release [Rj] that has class [c]
    without member [n], and an older release [R] such that every release
    after [Rj] up to [R] has the member in that class.  Then the [*Until]
    entry of the member at [R] is resolved, to the name of [Rj]. *)
Theorem X3_member_until_is_first_absence
    (releases out : list Release) c k n j Rj i R o :
  _initializeAPILifespan releases = inr out →
  out !! j = Some Rj →
  has_class Rj c → ¬ has_member Rj c k n →
  j < i →
  (∀ m, j < m ≤ i → ∃ Rm, out !! m = Some Rm ∧ has_member Rm c k n) →
  out !! i = Some R →
  Release.classesLifespan R !! c = Some o →
  untilOf k o !! n = Some (Release.name Rj).
Proof.
  intros Hinit HRj Hcj Hnj Hji Hrun HR Hc.
  destruct (index_unfold _ _ Hinit) as (scanned & Hscan & ->).
  eapply (until_phase_member_complete (since_phase scanned) c k n j Rj);
    try done.
  intros i' b c' o' k' Hb Hc'. by eapply since_phase_unresolved.
Qed.

(** X4.  In the constructed index, the [until] of a class at a release is
    the name of the nearest newer release without the class, and the empty
    string when every newer release has the class. *)
Theorem X4_class_until_is_first_absence
    (releases out : list Release) c i R o :
  _initializeAPILifespan releases = inr out →
  out !! i = Some R →
  Release.classesLifespan R !! c = Some o →
  (∀ j Rj,
     out !! j = Some Rj → ¬ has_class Rj c → j < i →
     (∀ m, j < m ≤ i → ∃ Rm, out !! m = Some Rm ∧ has_class Rm c) →
     ClassOutline.until o = Release.name Rj)
  ∧ ((∀ m, m < i → ∃ Rm, out !! m = Some Rm ∧ has_class Rm c) →
     ClassOutline.until o = []).
Proof.
  intros Hinit HR Hc.
  destruct (index_unfold _ _ Hinit) as (scanned & Hscan & ->).
  split.
  - intros j Rj HRj Hnj Hji Hrun.
    by eapply (until_phase_class_vanished (since_phase scanned) c j Rj).
  - intros Hrun.
    eapply (until_phase_class_kept (since_phase scanned) c); try done.
    intros i' b o' Hb Hc'. by eapply since_phase_until_empty.
Qed.

(** ** The two ends of the array *)

(** X5.  The newest release of the constructed index has nothing
    resolved: every class has the empty string as [until] and no entry in
    its three [*Until] maps. *)
Theorem X5_newest_release_unresolved (releases out : list Release) R c o :
  _initializeAPILifespan releases = inr out →
  out !! 0 = Some R →
  Release.classesLifespan R !! c = Some o →
  ClassOutline.until o = []
  ∧ ClassOutline.eventsUntil o = ∅
  ∧ ClassOutline.methodsUntil o = ∅
  ∧ ClassOutline.namespacesUntil o = ∅.
Proof.
  intros Hinit HR Hc.
  destruct (index_unfold _ _ Hinit) as (scanned & Hscan & ->).
  rewrite until_phase_lookup_0 in HR.
  split; [by eapply since_phase_until_empty|].
  pose proof (since_phase_unresolved _ _ _ _ _ _ Hscan HR Hc) as He.
  exact (conj (He Event) (conj (He Method) (He Namespace))).
Qed.

(** X6.  The oldest release of the constructed index introduces all it
    has: every class has the release's own name as [since], and so has
    every member. *)
Theorem X6_oldest_release_since_own_name
    (releases out : list Release) i R c o :
  _initializeAPILifespan releases = inr out →
  out !! i = Some R →
  out !! S i = None →
  Release.classesLifespan R !! c = Some o →
  ClassOutline.since o = Release.name R
  ∧ ∀ k n v, sinceOf k o !! n = Some v → v = Release.name R.
Proof.
  intros Hinit HR Hlast Hc.
  destruct (index_unfold _ _ Hinit) as (scanned & Hscan & ->).
  destruct (until_phase_since _ _ _ _ _ HR Hc)
    as (b & o0 & Hb & Ho0 & Hs & Hso).
  destruct (until_phase_same_members _ _ _ HR) as (b' & Hb' & [Hname _]).
  assert (b' = b) as -> by congruence. rewrite Hs, Hname.
  assert (Hnone : since_phase scanned !! S i = None).
  { destruct (since_phase scanned !! S i) as [b1|] eqn:E; [|done].
    destruct (until_phase_lookup_Some _ _ _ E) as (R1 & HR1 & _). congruence. }
  rewrite since_phase_sweep in Hb, Hnone.
  destruct (since_sweep_inv _ _ _ Hb) as (r & Hr & [[_ ->]|(p & Hp & _)]);
    [|congruence].
  destruct (scanned_fresh _ _ _ _ _ _ Hscan Hr Ho0) as (Hsi & _ & Hval & _).
  split; [done|]. intros k n v. rewrite Hso. apply Hval.
Qed.

(** X7.  A member that every release documents, in the same class, has
    the name of the oldest release as [*Since] value and no [*Until]
    entry, at every release of the constructed index. *)
Theorem X7_member_in_every_release
    (releases out : list Release) c k n i R o :
  _initializeAPILifespan releases = inr out →
  (∀ m Rm, out !! m = Some Rm → has_member Rm c k n) →
  out !! i = Some R →
  Release.classesLifespan R !! c = Some o →
  (∃ Rlast, last out = Some Rlast
            ∧ sinceOf k o !! n = Some (Release.name Rlast))
  ∧ untilOf k o !! n = None.
Proof.
  intros Hinit Hall HR Hc.
  destruct (index_unfold _ _ Hinit) as (scanned & Hscan & Hout).
  split.
  - destruct (Hall _ _ HR) as (o' & Ho' & v & Hv).
    assert (o' = o) as -> by congruence. subst out.
    destruct (until_phase_since _ _ _ _ _ HR Hc) as (b & o0 & Hb & Ho0 & _ & Hs).
    rewrite Hs in Hv. rewrite since_phase_sweep in Hb.
    destruct (since_sweep_member_run scanned
                (λ i r c o, scanned_fresh releases scanned i r c o Hscan)
                i b c o0 k n v Hb Ho0 Hv)
      as (j & rj & Hj & Hrj & Hname & _ & Hend).
    destruct (index_of_scanned _ _ _ Hrj) as (Rj & HRj & Hsame).
    exists Rj. rewrite Hs, Hv, <- Hname, (proj1 Hsame). split; [|done].
    rewrite last_lookup.
    assert (Hnone : until_phase (since_phase scanned) !! S j = None).
    { destruct (until_phase (since_phase scanned) !! S j) as [R'|] eqn:E;
        [|done].
      destruct (scanned_of_index _ _ _ E) as (r' & Hr' & Hs').
      destruct (Hend r' Hr').
      apply (same_members_has_member _ _ c k n Hs'). by eapply Hall. }
    apply lookup_ge_None in Hnone. apply lookup_lt_Some in HRj as Hlt.
    by replace (pred (length (until_phase (since_phase scanned)))) with j by lia.
  - destruct (untilOf k o !! n) as [V|] eqn:HV; [|done]. subst out.
    destruct (until_phase_resolved (since_phase scanned)
                (λ i b c o k Hb Hc,
                   since_phase_unresolved releases scanned i b c o Hscan Hb Hc k)
                _ _ _ _ _ _ _ HR Hc HV)
      as (_ & j & Rv & ov & _ & _ & _ & HRv & _ & Hov & Hnone & _).
    destruct (Hall _ _ HRv) as (ov' & Hov' & Hs).
    assert (ov' = ov) as -> by congruence. rewrite Hnone in Hs.
    by destruct Hs.
Qed.

(** ** What the construction keeps *)

Lemma scan_release_fields (r r' : Release) :
  scan_release r = inr r' →
  Release.name r' = Release.name r ∧ Release.apiText r' = Release.apiText r.
Proof.
  unfold scan_release. destruct (scan_titles _ _ _) as [e|[m cur]]; [done|].
  by intros [= <-].
Qed.

Lemma scan_releases_Forall2 (rs : list Release) : ∀ scanned,
  scan_releases rs = inr scanned →
  Forall2 (λ r r', scan_release r = inr r') rs scanned.
Proof.
  induction rs as [|r rs IH]; intros scanned; simpl.
  - intros [= <-]. constructor.
  - destruct (scan_release r) as [e|r1] eqn:E1; [done|].
    destruct (scan_releases rs) as [e|out] eqn:E2; [done|].
    intros [= <-]. constructor; [done|]. by apply IH.
Qed.

Lemma since_release_fields p r :
  Release.name (since_release p r) = Release.name r
  ∧ Release.apiText (since_release p r) = Release.apiText r.
Proof. done. Qed.

Lemma index_fields (scanned : list Release) i R :
  until_phase (since_phase scanned) !! i = Some R →
  ∃ r, scanned !! i = Some r
       ∧ Release.name R = Release.name r
       ∧ Release.apiText R = Release.apiText r.
Proof.
  intros HR.
  assert (∃ b, since_phase scanned !! i = Some b
               ∧ Release.name R = Release.name b
               ∧ Release.apiText R = Release.apiText b) as (b & Hb & Hn & Ha).
  { destruct i as [|i].
    - rewrite until_phase_lookup_0 in HR. by exists R.
    - destruct (until_phase_step _ _ _ HR) as (b & nx & Hb & _ & ->).
      by exists b. }
  rewrite since_phase_sweep in Hb.
  destruct (since_sweep_inv _ _ _ Hb) as (r & Hr & [[_ ->]|(p & _ & ->)]);
    by exists r.
Qed.

(** The index keeps the releases, their order, names and api texts. *)
Lemma index_keeps_releases (releases out : list Release) :
  _initializeAPILifespan releases = inr out →
  Release.name <$> out = Release.name <$> releases
  ∧ Release.apiText <$> out = Release.apiText <$> releases.
Proof.
  intros Hinit.
  destruct (index_unfold _ _ Hinit) as (scanned & Hscan & ->).
  pose proof (scan_releases_Forall2 _ _ Hscan) as HF.
  assert (H : ∀ i,
    (Release.name <$> until_phase (since_phase scanned) !! i)
    = (Release.name <$> releases !! i)
    ∧ (Release.apiText <$> until_phase (since_phase scanned) !! i)
      = (Release.apiText <$> releases !! i)).
  { intros i.
    destruct (until_phase (since_phase scanned) !! i) as [R|] eqn:HR.
    - destruct (index_fields _ _ _ HR) as (r' & Hr' & Hn & Ha).
      destruct (Forall2_lookup_r _ _ _ _ _ HF Hr') as (r & Hr & Hsc).
      destruct (scan_release_fields _ _ Hsc) as [Hn' Ha'].
      rewrite Hr. simpl. by rewrite Hn, Ha, Hn', Ha'.
    - destruct (releases !! i) as [r|] eqn:Hr; [|done].
      destruct (Forall2_lookup_l _ _ _ _ _ HF Hr) as (r' & Hr' & _).
      destruct (index_of_scanned _ _ _ Hr') as (R & HR' & _). congruence. }
  split; apply list_eq; intros i; rewrite !list_lookup_fmap; apply H.
Qed.

(** X8.  Constructing the index changes neither the number of releases
    nor their order, names or api texts: the version names read off the
    index are those of the array given to the constructor. *)
Theorem X8_index_keeps_releases (releases out : list Release) :
  _initializeAPILifespan releases = inr out →
  Release.name <$> out = Release.name <$> releases
  ∧ Release.apiText <$> out = Release.apiText <$> releases.
Proof. apply index_keeps_releases. Qed.

(** Every outline the scan stores is stored under its own name. *)
Lemma scan_titles_keys releaseName ts : ∀ m cur m' cur',
  (∀ c o, m !! c = Some o → ClassOutline.name o = c) →
  scan_titles releaseName ts (m, cur) = inr (m', cur') →
  ∀ c o, m' !! c = Some o → ClassOutline.name o = c.
Proof.
  induction ts as [|t ts IH]; intros m cur m' cur' Hm; cbn [scan_titles].
  - by intros [= <- <-].
  - destruct (scan_title releaseName (m, cur) t) as [e|[m1 cur1]] eqn:E;
      [done|].
    apply IH. unfold scan_title in E.
    assert (Hsame : ∀ x : Exception + option ClassOutline,
      match x with inl e => inl e | inr cur' => inr (m, cur') end
      = inr (m1, cur1) → m1 = m).
    { intros [?|?]; [done|]. by intros [= <- _]. }
    destruct (Regex.exec classRegex t).
    { injection E as <- _. intros c o. destruct cur as [oc|]; simpl; [|apply Hm].
      destruct (decide (ClassOutline.name oc = c)) as [<-|].
      - rewrite lookup_insert_eq. by intros [= <-].
      - rewrite lookup_insert_ne by done. apply Hm. }
    destruct (Regex.exec eventRegex t); [by rewrite (Hsame _ E)|].
    destruct (Regex.exec methodRegex t); [by rewrite (Hsame _ E)|].
    destruct (Regex.exec nsRegex t); [by rewrite (Hsame _ E)|].
    by injection E as <- _.
Qed.

Lemma scan_release_keys (r r' : Release) c o :
  scan_release r = inr r' →
  Release.classesLifespan r' !! c = Some o → ClassOutline.name o = c.
Proof.
  unfold scan_release.
  destruct (scan_titles _ _ _) as [e|[m cur]] eqn:E; [done|].
  intros [= <-]. simpl.
  assert (Hm : ∀ c o, m !! c = Some o → ClassOutline.name o = c).
  { eapply scan_titles_keys; [|exact E]. intros c' o'.
    by rewrite lookup_empty. }
  destruct cur as [oc|]; simpl; [|apply Hm].
  destruct (decide (ClassOutline.name oc = c)) as [<-|].
  - rewrite lookup_insert_eq. by intros [= <-].
  - rewrite lookup_insert_ne by done. apply Hm.
Qed.

Lemma name_since_class prev o :
  ClassOutline.name (since_class prev o) = ClassOutline.name o.
Proof. by destruct prev. Qed.

Lemma name_until_class nm next o :
  ClassOutline.name (until_class nm next o) = ClassOutline.name o.
Proof. by destruct next. Qed.

(** X9.  In the constructed index every outline sits under its own name:
    the key of an entry of [classesLifespan] is the [name] of its
    outline. *)
Theorem X9_outline_key_is_name (releases out : list Release) i R c o :
  _initializeAPILifespan releases = inr out →
  out !! i = Some R →
  Release.classesLifespan R !! c = Some o →
  ClassOutline.name o = c.
Proof.
  intros Hinit HR Hc.
  destruct (index_unfold _ _ Hinit) as (scanned & Hscan & ->).
  assert (∃ b o1, since_phase scanned !! i = Some b
            ∧ Release.classesLifespan b !! c = Some o1
            ∧ ClassOutline.name o = ClassOutline.name o1)
    as (b & o1 & Hb & Ho1 & ->).
  { destruct i as [|i].
    - rewrite until_phase_lookup_0 in HR. by exists R, o.
    - destruct (until_phase_step _ _ _ HR) as (b & nx & Hb & _ & ->).
      rewrite until_release_classes in Hc.
      apply fmap_Some in Hc as (o0 & Ho0 & ->). exists b, o0.
      split; [done|]. split; [done|]. apply name_until_class. }
  rewrite since_phase_sweep in Hb.
  assert (∃ r o0, scanned !! i = Some r
            ∧ Release.classesLifespan r !! c = Some o0
            ∧ ClassOutline.name o1 = ClassOutline.name o0)
    as (r & o0 & Hr & Ho0 & ->).
  { destruct (since_sweep_inv _ _ _ Hb) as (r & Hr & [[_ ->]|(p & _ & ->)]).
    - by exists r, o1.
    - rewrite since_release_classes in Ho1.
      apply fmap_Some in Ho1 as (o0 & Ho0 & ->). exists r, o0.
      split; [done|]. split; [done|]. apply name_since_class. }
  destruct (scan_releases_lookup _ _ Hscan _ _ Hr) as (r0 & _ & Hsc).
  by eapply scan_release_keys.
Qed.

(** ** When the construction throws *)

Lemma scan_title_open releaseName m o t :
  ∃ m' o', scan_title releaseName (m, Some o) t = inr (m', Some o').
Proof.
  unfold scan_title.
  destruct (Regex.exec classRegex t); [by eexists _, _|].
  destruct (Regex.exec eventRegex t); [by eexists _, _|].
  destruct (Regex.exec methodRegex t); [by eexists _, _|].
  destruct (Regex.exec nsRegex t); by eexists _, _.
Qed.

(** Once a class is open the scan cannot throw. *)
Lemma scan_titles_open releaseName ts : ∀ m o,
  ∃ st, scan_titles releaseName ts (m, Some o) = inr st.
Proof.
  induction ts as [|t ts IH]; intros m o; cbn [scan_titles]; [by eexists|].
  destruct (scan_title_open releaseName m o t) as (m' & o' & ->). apply IH.
Qed.

Lemma scan_titles_throws releaseName ts : ∀ m e,
  scan_titles releaseName ts (m, None) = inl e →
  ∃ pre h post,
    ts = pre ++ h :: post
    ∧ Forall (λ t, Regex.exec classRegex t = None) pre
    ∧ member_heading h.
Proof.
  induction ts as [|t ts IH]; intros m e; cbn [scan_titles]; [done|].
  destruct (Regex.exec classRegex t) as [cn|] eqn:Hc.
  { unfold scan_title. rewrite Hc.
    destruct (scan_titles_open releaseName ts (seal m None)
                (newOutline cn releaseName)) as [st ->]. done. }
  destruct (scan_title_no_class releaseName m t Hc) as [[e' He']|He'].
  - intros _. exists [], t, ts. split; [done|]. split; [constructor|].
    split; [done|]. unfold scan_title in He'. rewrite Hc in He'.
    destruct (Regex.exec eventRegex t); [eauto|].
    destruct (Regex.exec methodRegex t); [eauto|].
    destruct (Regex.exec nsRegex t); [eauto|done].
  - rewrite He'. intros H.
    destruct (IH _ _ H) as (pre & h & post & -> & Hpre & Hh).
    exists (t :: pre), h, post. split; [done|]. split; [|done].
    by constructor.
Qed.

Lemma scan_releases_throws (rs : list Release) e :
  scan_releases rs = inl e → ∃ r, r ∈ rs ∧ scan_release r = inl e.
Proof.
  induction rs as [|r rs IH]; cbn [scan_releases]; [done|].
  destruct (scan_release r) as [e1|r1] eqn:E1.
  - intros [= <-]. exists r. split; [set_solver|done].
  - destruct (scan_releases rs) as [e2|out]; [|done].
    intros [= <-]. destruct (IH eq_refl) as (r' & Hin & Hr').
    exists r'. split; [set_solver|done].
Qed.

(** X10.  Constructing the index throws exactly when some release of the
    array has a member heading with no class heading before it; on every
    other array it returns an index. *)
Theorem X10_throws_iff_malformed (releases : list Release) :
  (∃ e, _initializeAPILifespan releases = inl e)
  ↔ ∃ r, r ∈ releases ∧ malformed r.
Proof.
  split.
  - intros [e He]. unfold _initializeAPILifespan in He.
    destruct (scan_releases releases) as [e'|scanned] eqn:Hscan; [|done].
    destruct (scan_releases_throws _ _ Hscan) as (r & Hin & Hr).
    exists r. split; [done|]. unfold scan_release in Hr.
    destruct (scan_titles _ _ _) as [e1|[m cur]] eqn:E; [|done].
    by eapply scan_titles_throws.
  - intros (r & Hin & pre & h & post & Ht & Hpre & Hh).
    destruct (scan_titles_malformed (Release.name r) pre h post ∅ Hpre Hh)
      as (e & _ & _ & _ & _ & _ & _ & Hall).
    assert (Hr : scan_release r = inl e).
    { unfold scan_release. by rewrite Ht, Hall. }
    destruct (scan_releases_fails _ _ _ Hin Hr) as [e' He'].
    exists e'. unfold _initializeAPILifespan. by rewrite He'.
Qed.

(** ** The names in the index *)

Lemma try_counts_Some {A} (cont : nat → option A) lo r : ∀ k,
  Regex.try_counts k lo cont = Some r →
  ∃ k', lo ≤ k' ≤ k ∧ cont k' = Some r.
Proof.
  induction k as [|k IH]; cbn [Regex.try_counts].
  - destruct (0 <? lo) eqn:E; [done|]. apply Nat.ltb_ge in E.
    destruct (cont 0) eqn:E0; [|done]. intros [= <-]. exists 0.
    split; [lia|done].
  - destruct (S k <? lo) eqn:E; [done|]. apply Nat.ltb_ge in E.
    destruct (cont (S k)) eqn:E0.
    + intros [= <-]. exists (S k). split; [lia|done].
    + intros H. destruct (IH H) as (k' & Hk' & Hc). exists k'.
      split; [lia|done].
Qed.

Lemma take_span (cls : N → bool) (s : jsstring) : ∀ k,
  k ≤ Regex.span cls s →
  Forall (λ c, cls c = true) (take k s) ∧ length (take k s) = k.
Proof.
  induction s as [|c s IH]; intros k Hk; simpl in Hk.
  - replace k with 0 by lia. by split.
  - destruct k as [|k]; [by split|]. destruct (cls c) eqn:Hc; [|lia].
    destruct (IH k ltac:(lia)) as [H1 H2]. simpl. split; [by constructor|].
    by rewrite H2.
Qed.

(** The text of the group of a match: characters of the group's class,
    at least as many as the group asks for. *)
Lemma match_here_cap (p : list Regex.item) : ∀ s g0 g,
  Regex.match_here p s g0 = Some g →
  if has_cap p
  then ∃ lo cls, Regex.Cap lo cls ∈ p
                 ∧ Forall (λ c, cls c = true) g ∧ lo ≤ length g
  else g = g0.
Proof.
  induction p as [|it p IH]; intros s g0 g; cbn [Regex.match_here].
  - by intros [= <-].
  - unfold has_cap in *. cbn [existsb].
    destruct it as [l|lo cls|lo cls|].
    + destruct (Regex.strip_prefix l s) as [s'|]; [|done]. intros H.
      apply IH in H. cbn [orb]. destruct (existsb _ p); [|done].
      destruct H as (lo & cls & Hin & H). exists lo, cls.
      split; [by apply elem_of_cons; right|done].
    + intros H. apply try_counts_Some in H as (k & _ & H).
      apply IH in H. cbn [orb]. destruct (existsb _ p); [|done].
      destruct H as (lo' & cls' & Hin & H). exists lo', cls'.
      split; [by apply elem_of_cons; right|done].
    + intros H. apply try_counts_Some in H as (k & Hk & H).
      apply IH in H. cbn [orb]. destruct (existsb _ p).
      * destruct H as (lo' & cls' & Hin & H). exists lo', cls'.
        split; [by apply elem_of_cons; right|done].
      * subst g. exists lo, cls. split; [by apply elem_of_cons; left|].
        destruct (take_span cls s k ltac:(lia)) as [H1 H2].
        split; [done|]. rewrite H2. lia.
    + destruct s; [|done]. intros H.
      apply IH in H. cbn [orb]. destruct (existsb _ p); [|done].
      destruct H as (lo & cls & Hin & H). exists lo, cls.
      split; [by apply elem_of_cons; right|done].
Qed.

Lemma exec_cap (p : list Regex.item) (s g : jsstring) :
  has_cap p = true →
  Regex.exec p s = Some g →
  ∃ lo cls, Regex.Cap lo cls ∈ p
            ∧ Forall (λ c, cls c = true) g ∧ lo ≤ length g.
Proof.
  intros Hcap. induction s as [|c s IH]; cbn [Regex.exec].
  - destruct (Regex.match_here p [] []) eqn:E; [|done]. intros [= <-].
    apply match_here_cap in E. by rewrite Hcap in E.
  - destruct (Regex.match_here p (c :: s) []) eqn:E; [|done].
    intros [= <-]. apply match_here_cap in E. by rewrite Hcap in E.
Qed.

Lemma identifier_of_cap cls lo (g : jsstring) :
  Forall (λ c, cls c = true) g → lo ≤ length g → 1 ≤ lo → identifier cls g.
Proof. intros HF Hlen Hlo. split; [|done]. intros ->. simpl in Hlen. lia. Qed.

Lemma classRegex_identifier t g :
  Regex.exec classRegex t = Some g → identifier Regex.word g.
Proof.
  intros H. apply exec_cap in H as (lo & cls & Hin & HF & Hlen); [|done].
  unfold classRegex in Hin. repeat (apply elem_of_cons in Hin as [Hin|Hin]);
    try done; [|by apply elem_of_nil in Hin].
  injection Hin as -> ->. by eapply identifier_of_cap.
Qed.

Lemma eventRegex_identifier t g :
  Regex.exec eventRegex t = Some g → identifier Regex.word g.
Proof.
  intros H. apply exec_cap in H as (lo & cls & Hin & HF & Hlen); [|done].
  unfold eventRegex in Hin. repeat (apply elem_of_cons in Hin as [Hin|Hin]);
    try done; [|by apply elem_of_nil in Hin].
  injection Hin as -> ->. by eapply identifier_of_cap.
Qed.

Lemma methodRegex_identifier t g :
  Regex.exec methodRegex t = Some g → identifier Regex.word_or_dollar g.
Proof.
  intros H. apply exec_cap in H as (lo & cls & Hin & HF & Hlen); [|done].
  unfold methodRegex in Hin. repeat (apply elem_of_cons in Hin as [Hin|Hin]);
    try done; [|by apply elem_of_nil in Hin].
  injection Hin as -> ->. by eapply identifier_of_cap.
Qed.

Lemma nsRegex_identifier t g :
  Regex.exec nsRegex t = Some g → identifier Regex.word g.
Proof.
  intros H. apply exec_cap in H as (lo & cls & Hin & HF & Hlen); [|done].
  unfold nsRegex in Hin. repeat (apply elem_of_cons in Hin as [Hin|Hin]);
    try done; [|by apply elem_of_nil in Hin].
  injection Hin as -> ->. by eapply identifier_of_cap.
Qed.

Lemma names_ok_setSince k n v o :
  identifier (name_class k) n → names_ok o → names_ok (setSince k n v o).
Proof.
  intros Hn [Hname Hmem]. destruct o as [nm s u es ms ns eu mu nu].
  split; [by destruct k|]. intros k' n' Hs.
  destruct (decide (n = n')) as [<-|Hne].
  - destruct k, k'; try done; by apply (Hmem _ n).
  - apply Hmem. destruct k, k'; simpl in *; try done;
      by rewrite lookup_insert_ne in Hs.
Qed.

Lemma names_ok_addSymbol k property n v cur cur' :
  identifier (name_class k) n →
  (∀ o, cur = Some o → names_ok o) →
  addSymbol k property n v cur = inr cur' →
  ∀ o, cur' = Some o → names_ok o.
Proof.
  intros Hn Hc. destruct cur as [oc|]; simpl; [|done].
  intros [= <-] o [= <-]. apply names_ok_setSince; [done|]. by apply Hc.
Qed.

Lemma scan_title_names releaseName m cur t m' cur' :
  (∀ c o, m !! c = Some o → names_ok o) →
  (∀ o, cur = Some o → names_ok o) →
  scan_title releaseName (m, cur) t = inr (m', cur') →
  (∀ c o, m' !! c = Some o → names_ok o)
  ∧ (∀ o, cur' = Some o → names_ok o).
Proof.
  intros Hm Hc. unfold scan_title.
  destruct (Regex.exec classRegex t) as [cn|] eqn:E1.
  { intros [= <- <-]. split.
    - intros c o. destruct cur as [oc|]; simpl; [|apply Hm].
      destruct (decide (ClassOutline.name oc = c)) as [<-|].
      + rewrite lookup_insert_eq. intros [= <-]. by apply Hc.
      + rewrite lookup_insert_ne by done. apply Hm.
    - intros o [= <-]. split; [by eapply classRegex_identifier|].
      intros k n. destruct k; simpl; rewrite lookup_empty; by intros [? ?]. }
  destruct (Regex.exec eventRegex t) as [en|] eqn:E2.
  { destruct (addSymbol _ _ _ _ _) eqn:E; [done|]. intros [= <- <-].
    split; [done|]. eapply names_ok_addSymbol; [|done|exact E].
    by eapply eventRegex_identifier. }
  destruct (Regex.exec methodRegex t) as [mn|] eqn:E3.
  { destruct (addSymbol _ _ _ _ _) eqn:E; [done|]. intros [= <- <-].
    split; [done|]. eapply names_ok_addSymbol; [|done|exact E].
    by eapply methodRegex_identifier. }
  destruct (Regex.exec nsRegex t) as [nn|] eqn:E4.
  { destruct (addSymbol _ _ _ _ _) eqn:E; [done|]. intros [= <- <-].
    split; [done|]. eapply names_ok_addSymbol; [|done|exact E].
    by eapply nsRegex_identifier. }
  by intros [= <- <-].
Qed.

Lemma scan_titles_names releaseName ts : ∀ m cur m' cur',
  (∀ c o, m !! c = Some o → names_ok o) →
  (∀ o, cur = Some o → names_ok o) →
  scan_titles releaseName ts (m, cur) = inr (m', cur') →
  (∀ c o, m' !! c = Some o → names_ok o)
  ∧ (∀ o, cur' = Some o → names_ok o).
Proof.
  induction ts as [|t ts IH]; intros m cur m' cur' Hm Hc; cbn [scan_titles].
  - by intros [= <- <-].
  - destruct (scan_title releaseName (m, cur) t) as [e|[m1 cur1]] eqn:E;
      [done|].
    destruct (scan_title_names _ _ _ _ _ _ Hm Hc E) as [Hm1 Hc1].
    by apply IH.
Qed.

Lemma scan_release_names (r r' : Release) c o :
  scan_release r = inr r' →
  Release.classesLifespan r' !! c = Some o → names_ok o.
Proof.
  unfold scan_release.
  destruct (scan_titles _ _ _) as [e|[m cur]] eqn:E; [done|].
  intros [= <-]. simpl.
  assert (H0 : ∀ c o, (∅ : gmap jsstring ClassOutline) !! c = Some o →
                      names_ok o).
  { intros c' o'. by rewrite lookup_empty. }
  assert (H1 : ∀ o, (None : option ClassOutline) = Some o → names_ok o)
    by done.
  destruct (scan_titles_names _ _ _ _ _ _ H0 H1 E)
    as [Hm Hc].
  destruct cur as [oc|]; simpl; [|apply Hm].
  destruct (decide (ClassOutline.name oc = c)) as [<-|].
  - rewrite lookup_insert_eq. intros [= <-]. by apply Hc.
  - rewrite lookup_insert_ne by done. apply Hm.
Qed.

(** X11.  Every class name of the constructed index is a non-empty string
    of letters, digits and underscores, and so is every event and
    namespace name; a method name may also contain [$]. *)
Theorem X11_names_are_identifiers (releases out : list Release) i R c o :
  _initializeAPILifespan releases = inr out →
  out !! i = Some R →
  Release.classesLifespan R !! c = Some o →
  identifier Regex.word c
  ∧ ∀ k n, is_Some (sinceOf k o !! n) → identifier (name_class k) n.
Proof.
  intros Hinit HR Hc.
  destruct (index_unfold _ _ Hinit) as (scanned & Hscan & ->).
  destruct (scanned_of_index _ _ _ HR) as (r & Hr & [_ Hsame]).
  specialize (Hsame c). rewrite Hc in Hsame.
  destruct (Release.classesLifespan r !! c) as [o0|] eqn:Ho0; [|done].
  destruct (scan_releases_lookup _ _ Hscan _ _ Hr) as (r0 & _ & Hsc).
  destruct (scan_release_names _ _ _ _ Hsc Ho0) as [Hname Hmem].
  rewrite (scan_release_keys _ _ _ _ Hsc Ho0) in Hname.
  split; [done|]. intros k n Hs. apply Hmem. by apply Hsame.
Qed.

(** ** Which members an outline lists *)

Lemma scan_titles_app releaseName ts1 ts2 st st' :
  scan_titles releaseName (ts1 ++ ts2) st = inr st' →
  ∃ st1, scan_titles releaseName ts1 st = inr st1
         ∧ scan_titles releaseName ts2 st1 = inr st'.
Proof.
  revert st. induction ts1 as [|t ts1 IH]; intros st; cbn [app scan_titles].
  - intros H. by exists st.
  - destruct (scan_title releaseName st t) as [e|st1]; [done|]. apply IH.
Qed.

Lemma sinceOf_setSince k n v o k' n' :
  is_Some (sinceOf k' (setSince k n v o) !! n')
  ↔ is_Some (sinceOf k' o !! n') ∨ (Some (k', n') = Some (k, n)).
Proof.
  destruct o as [nm s u es ms ns eu mu nu].
  destruct (decide (n = n')) as [<-|Hne].
  - destruct k, k'; simpl; rewrite ?lookup_insert_eq; split; eauto;
      intros [H|H]; eauto; done.
  - destruct k, k'; simpl; rewrite ?lookup_insert_ne by done; split; eauto;
      intros [H|H]; eauto; congruence.
Qed.

(** After the section of a class, its outline only changes if the class
    is opened again. *)
Lemma scan_titles_sealed releaseName c o ts : ∀ m cur m' cur',
  m !! c = Some o →
  (∀ oc, cur = Some oc → ClassOutline.name oc ≠ c) →
  (∀ t, t ∈ ts → Regex.exec classRegex t ≠ Some c) →
  scan_titles releaseName ts (m, cur) = inr (m', cur') →
  seal m' cur' !! c = Some o.
Proof.
  induction ts as [|t ts IH]; intros m cur m' cur' Hm Hcur Hts;
    cbn [scan_titles].
  - intros [= <- <-]. destruct cur as [oc|]; simpl; [|done].
    rewrite lookup_insert_ne; [done|]. by apply Hcur.
  - destruct (scan_title releaseName (m, cur) t) as [e|[m1 cur1]] eqn:E;
      [done|].
    assert (Hts' : ∀ t', t' ∈ ts → Regex.exec classRegex t' ≠ Some c).
    { intros t' Ht'. apply Hts. by apply elem_of_cons; right. }
    unfold scan_title in E.
    destruct (Regex.exec classRegex t) as [cn|] eqn:Hc.
    { injection E as <- <-. apply IH; [| |done].
      - destruct cur as [oc|]; simpl; [|done].
        rewrite lookup_insert_ne; [done|]. by apply Hcur.
      - intros oc [= <-]. simpl. intros ->.
        apply (Hts t); [by apply elem_of_cons; left|done]. }
    assert (Hadd : ∀ k p n, ∀ x,
      addSymbol k p n releaseName cur = inr x →
      ∀ oc, x = Some oc → ClassOutline.name oc ≠ c).
    { intros k p n x. destruct cur as [oc|]; simpl; [|done].
      intros [= <-] oc' [= <-].
      assert (ClassOutline.name (setSince k n releaseName oc)
              = ClassOutline.name oc) as -> by (by destruct oc, k).
      by apply Hcur. }
    destruct (Regex.exec eventRegex t).
    { destruct (addSymbol _ _ _ _ _) eqn:Ea; [done|]. injection E as <- <-.
      apply IH; [done| |done]. by eapply Hadd. }
    destruct (Regex.exec methodRegex t).
    { destruct (addSymbol _ _ _ _ _) eqn:Ea; [done|]. injection E as <- <-.
      apply IH; [done| |done]. by eapply Hadd. }
    destruct (Regex.exec nsRegex t).
    { destruct (addSymbol _ _ _ _ _) eqn:Ea; [done|]. injection E as <- <-.
      apply IH; [done| |done]. by eapply Hadd. }
    injection E as <- <-. by apply IH.
Qed.

(** The scan from an open class to the end of the headings. *)
Lemma scan_titles_section releaseName c ts : ∀ m o m' cur',
  ClassOutline.name o = c →
  (∀ t, t ∈ ts → Regex.exec classRegex t ≠ Some c) →
  scan_titles releaseName ts (m, Some o) = inr (m', cur') →
  ∃ o', seal m' cur' !! c = Some o'
        ∧ ∀ k n, is_Some (sinceOf k o' !! n)
                 ↔ is_Some (sinceOf k o !! n)
                   ∨ ∃ t, t ∈ section ts ∧ member_of t = Some (k, n).
Proof.
  induction ts as [|t ts IH]; intros m o m' cur' Hname Hts;
    cbn [scan_titles section].
  - intros [= <- <-]. exists o. simpl. rewrite Hname, lookup_insert_eq.
    split; [done|]. intros k n. split; [by left|].
    intros [H|(t & Ht & _)]; [done|]. by apply elem_of_nil in Ht.
  - assert (Hts' : ∀ t', t' ∈ ts → Regex.exec classRegex t' ≠ Some c).
    { intros t' Ht'. apply Hts. by apply elem_of_cons; right. }
    destruct (scan_title releaseName (m, Some o) t) as [e|[m1 cur1]] eqn:E;
      [done|].
    unfold scan_title in E. unfold member_of at 1.
    destruct (Regex.exec classRegex t) as [cn|] eqn:Hc.
    { injection E as <- <-. intros H. exists o. split.
      - eapply scan_titles_sealed; [| |exact Hts'|exact H].
        + simpl. by rewrite Hname, lookup_insert_eq.
        + intros oc [= <-]. simpl. intros ->.
          apply (Hts t); [by apply elem_of_cons; left|done].
      - intros k n. split; [by left|].
        intros [H'|(t' & Ht' & _)]; [done|]. by apply elem_of_nil in Ht'. }
    assert (Hstep : ∀ k n,
      Some (k, n) = member_of t →
      scan_titles releaseName ts (m, Some (setSince k n releaseName o))
      = inr (m', cur') →
      ∃ o', seal m' cur' !! c = Some o'
        ∧ ∀ k' n', is_Some (sinceOf k' o' !! n')
            ↔ is_Some (sinceOf k' o !! n')
              ∨ ∃ t', t' ∈ t :: section ts ∧ member_of t' = Some (k', n')).
    { intros k n Hm H.
      destruct (IH m (setSince k n releaseName o) m' cur') as (o' & Ho' & Hmem);
        [by destruct o, k|done|done|].
      exists o'. split; [done|]. intros k' n'. rewrite Hmem, sinceOf_setSince.
      split.
      - intros [[H1|H1]|(t' & Ht' & H1)]; [by left| |].
        + right. exists t. split; [by apply elem_of_cons; left|]. congruence.
        + right. exists t'. split; [by apply elem_of_cons; right|done].
      - intros [H1|(t' & Ht' & H1)]; [by left; left|].
        apply elem_of_cons in Ht' as [->|Ht'].
        + left. right. congruence.
        + right. by exists t'. }
    unfold member_of in Hstep. rewrite Hc in Hstep.
    destruct (Regex.exec eventRegex t) as [en|] eqn:He.
    { simpl in E. injection E as <- <-. by apply Hstep. }
    destruct (Regex.exec methodRegex t) as [mn|] eqn:Hm.
    { simpl in E. injection E as <- <-. by apply Hstep. }
    destruct (Regex.exec nsRegex t) as [nn|] eqn:Hn.
    { simpl in E. injection E as <- <-. by apply Hstep. }
    injection E as <- <-. intros H.
    destruct (IH m o m' cur' Hname Hts' H) as (o' & Ho' & Hmem).
    exists o'. split; [done|]. intros k n. rewrite Hmem. split.
    + intros [H1|(t' & Ht' & H1)]; [by left|]. right. exists t'.
      split; [by apply elem_of_cons; right|done].
    + intros [H1|(t' & Ht' & H1)]; [by left|].
      apply elem_of_cons in Ht' as [Heq|Ht'].
      * subst t'. unfold member_of in H1. by rewrite Hc, He, Hm, Hn in H1.
      * right. by exists t'.
Qed.

(** X12.  The outline the scan records for a class lists exactly the
    members of the class's last section: the member headings between the
    last heading of that class and the next class heading.  Members listed
    under an earlier heading of the same class are dropped. *)
Theorem X12_outline_lists_last_section
    (r r' : Release) (pre rest : list jsstring) (h c : jsstring) :
  scan_release r = inr r' →
  titles r = pre ++ h :: rest →
  Regex.exec classRegex h = Some c →
  (∀ t, t ∈ rest → Regex.exec classRegex t ≠ Some c) →
  ∃ o, Release.classesLifespan r' !! c = Some o
       ∧ ∀ k n, is_Some (sinceOf k o !! n)
                ↔ ∃ t, t ∈ section rest ∧ member_of t = Some (k, n).
Proof.
  unfold scan_release. intros Hscan Ht Hh Hrest. rewrite Ht in Hscan.
  destruct (scan_titles _ _ _) as [e|[m' cur']] eqn:E; [done|].
  injection Hscan as <-. simpl.
  apply scan_titles_app in E as ([m1 cur1] & _ & E).
  cbn [scan_titles] in E. unfold scan_title in E. rewrite Hh in E.
  destruct (scan_titles_section (Release.name r) c rest (seal m1 cur1)
              (newOutline c (Release.name r)) m' cur' eq_refl Hrest E)
    as (o & Ho & Hmem).
  exists o. split; [done|]. intros k n. rewrite Hmem. split.
  - intros [H|H]; [|done]. destruct k; simpl in H;
      rewrite lookup_empty in H; by destruct H.
  - by right.
Qed.

(** ** The sample releases again *)

Lemma X1_member_since_is_oldest_of_run_witness :
  ∃ out R o,
    _initializeAPILifespan [Scenario.r11; Scenario.r10; Scenario.r09] = inr out
    ∧ out !! 0 = Some R
    ∧ Release.classesLifespan R !! Page = Some o
    ∧ sinceOf Method o !! close = Some (JS.lit "v1.1.0")
    ∧ ∃ j Rj,
        0 ≤ j ∧ out !! j = Some Rj ∧ Release.name Rj = JS.lit "v1.1.0"
        ∧ (∀ m, 0 ≤ m ≤ j →
             ∃ Rm, out !! m = Some Rm ∧ has_member Rm Page Method close)
        ∧ (∀ R', out !! S j = Some R' → ¬ has_member R' Page Method close).
Proof.
  do 3 eexists.
  split; [vm_compute; reflexivity|].
  split; [vm_compute; reflexivity|].
  split; [vm_compute; reflexivity|].
  split; [vm_compute; reflexivity|].
  eapply (X1_member_since_is_oldest_of_run
            [Scenario.r11; Scenario.r10; Scenario.r09]).
  - vm_compute. reflexivity.
  - vm_compute. reflexivity.
  - vm_compute. reflexivity.
  - vm_compute. reflexivity.
Defined.

Lemma X2_class_since_is_oldest_of_run_witness :
  ∃ out R o,
    _initializeAPILifespan [Scenario.q2; Scenario.q1] = inr out
    ∧ out !! 0 = Some R
    ∧ Release.classesLifespan R !! JS.lit "Browser" = Some o
    ∧ ∃ j Rj,
        0 ≤ j ∧ out !! j = Some Rj
        ∧ Release.name Rj = ClassOutline.since o
        ∧ (∀ m, 0 ≤ m ≤ j →
             ∃ Rm, out !! m = Some Rm ∧ has_class Rm (JS.lit "Browser"))
        ∧ (∀ R', out !! S j = Some R' → ¬ has_class R' (JS.lit "Browser")).
Proof.
  do 3 eexists.
  split; [vm_compute; reflexivity|].
  split; [vm_compute; reflexivity|].
  split; [vm_compute; reflexivity|].
  eapply (X2_class_since_is_oldest_of_run [Scenario.q2; Scenario.q1]).
  - vm_compute. reflexivity.
  - vm_compute. reflexivity.
  - vm_compute. reflexivity.
Defined.

Lemma X3_member_until_is_first_absence_witness :
  ∃ out Rj R o,
    _initializeAPILifespan [Scenario.r11; Scenario.r10; Scenario.r09] = inr out
    ∧ out !! 1 = Some Rj
    ∧ has_class Rj Page
    ∧ ¬ has_member Rj Page Method close
    ∧ 1 < 2
    ∧ (∀ m, 1 < m ≤ 2 →
         ∃ Rm, out !! m = Some Rm ∧ has_member Rm Page Method close)
    ∧ out !! 2 = Some R
    ∧ Release.classesLifespan R !! Page = Some o
    ∧ untilOf Method o !! close = Some (Release.name Rj).
Proof.
  do 4 eexists.
  split; [vm_compute; reflexivity|].
  split; [vm_compute; reflexivity|].
  match goal with
  | |- ?A ∧ ?B ∧ ?C ∧ ?D ∧ ?E ∧ ?F ∧ ?G =>
      assert (HA : A) by (vm_compute; eexists; reflexivity);
      assert (HB : B)
        by (intros (o' & Ho' & Hs); vm_compute in Ho'; injection Ho' as <-;
            vm_compute in Hs; destruct Hs as [? Hs]; discriminate Hs);
      assert (HC : C) by lia;
      assert (HD : D)
        by (intros m Hm; assert (m = 2) as -> by lia; eexists;
            split; [vm_compute; reflexivity|]; eexists;
            split; [vm_compute; reflexivity|]; vm_compute; eexists;
            reflexivity)
  end.
  split; [exact HA|]. split; [exact HB|]. split; [exact HC|].
  split; [exact HD|].
  split; [vm_compute; reflexivity|].
  split; [vm_compute; reflexivity|].
  eapply (X3_member_until_is_first_absence
            [Scenario.r11; Scenario.r10; Scenario.r09] _ Page Method close 1 _ 2).
  - vm_compute. reflexivity.
  - vm_compute. reflexivity.
  - exact HA.
  - exact HB.
  - exact HC.
  - exact HD.
  - vm_compute. reflexivity.
  - vm_compute. reflexivity.
Defined.

Lemma X4_class_until_is_first_absence_witness :
  ∃ out R o,
    _initializeAPILifespan [Scenario.q2; Scenario.q1] = inr out
    ∧ out !! 1 = Some R
    ∧ Release.classesLifespan R !! Page = Some o
    ∧ ((∀ j Rj,
          out !! j = Some Rj → ¬ has_class Rj Page → j < 1 →
          (∀ m, j < m ≤ 1 → ∃ Rm, out !! m = Some Rm ∧ has_class Rm Page) →
          ClassOutline.until o = Release.name Rj)
       ∧ ((∀ m, m < 1 → ∃ Rm, out !! m = Some Rm ∧ has_class Rm Page) →
          ClassOutline.until o = [])).
Proof.
  do 3 eexists.
  split; [vm_compute; reflexivity|].
  split; [vm_compute; reflexivity|].
  split; [vm_compute; reflexivity|].
  eapply (X4_class_until_is_first_absence [Scenario.q2; Scenario.q1]).
  - vm_compute. reflexivity.
  - vm_compute. reflexivity.
  - vm_compute. reflexivity.
Defined.

Lemma X5_newest_release_unresolved_witness :
  ∃ out R o,
    _initializeAPILifespan [Scenario.r11; Scenario.r10; Scenario.r09] = inr out
    ∧ out !! 0 = Some R
    ∧ Release.classesLifespan R !! Page = Some o
    ∧ (ClassOutline.until o = []
       ∧ ClassOutline.eventsUntil o = ∅
       ∧ ClassOutline.methodsUntil o = ∅
       ∧ ClassOutline.namespacesUntil o = ∅).
Proof.
  do 3 eexists.
  split; [vm_compute; reflexivity|].
  split; [vm_compute; reflexivity|].
  split; [vm_compute; reflexivity|].
  eapply (X5_newest_release_unresolved
            [Scenario.r11; Scenario.r10; Scenario.r09] _ _ Page).
  - vm_compute. reflexivity.
  - vm_compute. reflexivity.
  - vm_compute. reflexivity.
Defined.

Lemma X6_oldest_release_since_own_name_witness :
  ∃ out R o,
    _initializeAPILifespan [Scenario.r11; Scenario.r10; Scenario.r09] = inr out
    ∧ out !! 2 = Some R
    ∧ out !! 3 = None
    ∧ Release.classesLifespan R !! Page = Some o
    ∧ (ClassOutline.since o = Release.name R
       ∧ ∀ k n v, sinceOf k o !! n = Some v → v = Release.name R).
Proof.
  do 3 eexists.
  split; [vm_compute; reflexivity|].
  split; [vm_compute; reflexivity|].
  split; [vm_compute; reflexivity|].
  split; [vm_compute; reflexivity|].
  eapply (X6_oldest_release_since_own_name
            [Scenario.r11; Scenario.r10; Scenario.r09] _ 2 _ Page).
  - vm_compute. reflexivity.
  - vm_compute. reflexivity.
  - vm_compute. reflexivity.
  - vm_compute. reflexivity.
Defined.

Lemma X7_member_in_every_release_witness :
  ∃ out R o,
    _initializeAPILifespan [Scenario.r11; Scenario.r09] = inr out
    ∧ (∀ m Rm, out !! m = Some Rm → has_member Rm Page Method close)
    ∧ out !! 0 = Some R
    ∧ Release.classesLifespan R !! Page = Some o
    ∧ ((∃ Rlast, last out = Some Rlast
                 ∧ sinceOf Method o !! close = Some (Release.name Rlast))
       ∧ untilOf Method o !! close = None).
Proof.
  do 3 eexists.
  split; [vm_compute; reflexivity|].
  match goal with
  | |- ?A ∧ _ =>
      assert (HA : A)
        by (intros [|[|m]] Rm Hm; vm_compute in Hm;
            [injection Hm as <-|injection Hm as <-|discriminate Hm];
            (eexists; split; [vm_compute; reflexivity|];
             vm_compute; eexists; reflexivity))
  end.
  split; [exact HA|].
  split; [vm_compute; reflexivity|].
  split; [vm_compute; reflexivity|].
  eapply (X7_member_in_every_release
            [Scenario.r11; Scenario.r09] _ Page Method close 0).
  - vm_compute. reflexivity.
  - exact HA.
  - vm_compute. reflexivity.
  - vm_compute. reflexivity.
Defined.

Lemma X8_index_keeps_releases_witness :
  ∃ out,
    _initializeAPILifespan [Scenario.r11; Scenario.r10; Scenario.r09] = inr out
    ∧ (Release.name <$> out
       = Release.name <$> [Scenario.r11; Scenario.r10; Scenario.r09]
       ∧ Release.apiText <$> out
         = Release.apiText <$> [Scenario.r11; Scenario.r10; Scenario.r09]).
Proof.
  eexists. split; [vm_compute; reflexivity|].
  eapply X8_index_keeps_releases. vm_compute. reflexivity.
Defined.

Lemma X9_outline_key_is_name_witness :
  ∃ out R o,
    _initializeAPILifespan [Scenario.q2; Scenario.q1] = inr out
    ∧ out !! 1 = Some R
    ∧ Release.classesLifespan R !! Page = Some o
    ∧ ClassOutline.name o = Page.
Proof.
  do 3 eexists.
  split; [vm_compute; reflexivity|].
  split; [vm_compute; reflexivity|].
  split; [vm_compute; reflexivity|].
  eapply (X9_outline_key_is_name [Scenario.q2; Scenario.q1] _ 1).
  - vm_compute. reflexivity.
  - vm_compute. reflexivity.
  - vm_compute. reflexivity.
Defined.

Lemma X11_names_are_identifiers_witness :
  ∃ out R o,
    _initializeAPILifespan [Scenario.r11; Scenario.r10; Scenario.r09] = inr out
    ∧ out !! 2 = Some R
    ∧ Release.classesLifespan R !! Page = Some o
    ∧ (identifier Regex.word Page
       ∧ ∀ k n, is_Some (sinceOf k o !! n) → identifier (name_class k) n).
Proof.
  do 3 eexists.
  split; [vm_compute; reflexivity|].
  split; [vm_compute; reflexivity|].
  split; [vm_compute; reflexivity|].
  eapply (X11_names_are_identifiers
            [Scenario.r11; Scenario.r10; Scenario.r09] _ 2).
  - vm_compute. reflexivity.
  - vm_compute. reflexivity.
  - vm_compute. reflexivity.
Defined.

Lemma X12_outline_lists_last_section_witness :
  ∃ r',
    scan_release Scenario2.dup = inr r'
    ∧ titles Scenario2.dup
      = [JS.lit "### class: Page"; JS.lit "#### page.click()"]
        ++ JS.lit "### class: Page" :: [JS.lit "#### page.close()"]
    ∧ Regex.exec classRegex (JS.lit "### class: Page") = Some Page
    ∧ (∀ t, t ∈ [JS.lit "#### page.close()"] →
         Regex.exec classRegex t ≠ Some Page)
    ∧ ∃ o, Release.classesLifespan r' !! Page = Some o
           ∧ ∀ k n, is_Some (sinceOf k o !! n)
                    ↔ ∃ t, t ∈ section [JS.lit "#### page.close()"]
                           ∧ member_of t = Some (k, n).
Proof.
  eexists.
  split; [vm_compute; reflexivity|].
  split; [vm_compute; reflexivity|].
  split; [vm_compute; reflexivity|].
  assert (H : ∀ t, t ∈ [JS.lit "#### page.close()"] →
                   Regex.exec classRegex t ≠ Some Page).
  { intros t Ht. apply list_elem_of_In in Ht. simpl in Ht.
    destruct Ht as [<-|[]]. vm_compute. discriminate. }
  split; [exact H|].
  eapply (X12_outline_lists_last_section Scenario2.dup _
            [JS.lit "### class: Page"; JS.lit "#### page.click()"]
            [JS.lit "#### page.close()"] (JS.lit "### class: Page") Page).
  - vm_compute. reflexivity.
  - vm_compute. reflexivity.
  - vm_compute. reflexivity.
  - exact H.
Defined.

End IndexFacts.

(** * More on the renderer *)

Module RenderMore.
Import DOM Render RenderSpec RenderSpec2 RenderFacts.

(** ** Only the set of offsets matters *)

(** X13.  The fragment depends on [matches] only through the set of its
    elements: neither the order of the offsets nor repetitions change the
    result. *)
Theorem X13_render_depends_on_offset_set
    (matches1 matches2 : list Z) (tokens : list Token) :
  (∀ z, z ∈ matches1 ↔ z ∈ matches2) →
  renderTokensWithMatches matches1 tokens
  = renderTokensWithMatches matches2 tokens.
Proof.
  intros H. destruct matches1 as [|z1 m1], matches2 as [|z2 m2]; [done| | |].
  - exfalso. apply (elem_of_nil z2), H, elem_of_cons. by left.
  - exfalso. apply (elem_of_nil z1), H, elem_of_cons. by left.
  - unfold renderTokensWithMatches.
    assert (list_to_set (z1 :: m1) =@{gset Z} list_to_set (z2 :: m2)) as ->;
      [|done].
    apply set_eq. intros z. rewrite !elem_of_list_to_set. apply H.
Qed.

Lemma X13_render_depends_on_offset_set_witness :
  (∀ z, z ∈ [5; 0; 5]%Z ↔ z ∈ [0; 5]%Z)
  ∧ renderTokensWithMatches [5; 0; 5]%Z Scenario.clickTokens
    = renderTokensWithMatches [0; 5]%Z Scenario.clickTokens.
Proof.
  assert (H : ∀ z, z ∈ [5; 0; 5]%Z ↔ z ∈ [0; 5]%Z).
  { intros z. rewrite !list_elem_of_In. simpl. tauto. }
  split; [exact H|].
  exact (X13_render_depends_on_offset_set _ _ Scenario.clickTokens H).
Defined.

(** ** One contribution per token *)

(** The fragment is the concatenation of what the tokens contribute, and
    the contribution of a token spells its text. *)
Lemma render_structure (matches : list Z) (tokens : list Token) :
  ∃ kids : list (list Node),
    length kids = length tokens
    ∧ renderTokensWithMatches matches tokens
      = DocumentFragment (mjoin (zip_with wrapToken tokens kids))
    ∧ ∀ i tok cs, tokens !! i = Some tok → kids !! i = Some cs →
        flat_map textContent cs = Token.text tok.
Proof.
  destruct matches as [|z matches].
  - set (kidsOf := λ tok : Token,
           match tagOf tok with
           | Some _ => match Token.text tok with
                       | [] => []
                       | _ => [Text (Token.text tok)]
                       end
           | None => [Text (Token.text tok)]
           end).
    exists (kidsOf <$> tokens).
    split; [by rewrite length_fmap|]. split.
    + unfold renderTokensWithMatches, createDocumentFragment.
      rewrite fold_renderPlain. cbn [app]. f_equal.
      induction tokens as [|tok tokens IH]; [done|].
      rewrite !fmap_cons. cbn [zip_with mjoin list_join].
      assert (wrapToken tok (kidsOf tok) = [plainNode tok]) as ->.
      { unfold plainNode, wrapToken, kidsOf. by destruct (tagOf tok). }
      cbn [app]. f_equal. exact IH.
    + intros i tok cs Ht. rewrite list_lookup_fmap, Ht. intros [= <-].
      unfold kidsOf. destruct (tagOf tok); [|simpl; apply app_nil_r].
      destruct (Token.text tok); [done|]. simpl. by rewrite app_nil_r.
  - destruct (fold_renderMatched (list_to_set (z :: matches)) tokens [] 0)
      as (chunks & Hlen & Hfold & Hall).
    exists ((λ runs : list (bool * jsstring), runNode <$> runs) <$> chunks).
    split; [by rewrite length_fmap|]. split.
    + unfold renderTokensWithMatches, createDocumentFragment. rewrite Hfold.
      cbn [fst app]. f_equal. f_equal. clear.
      revert chunks. induction tokens as [|tok tokens IH];
        intros [|runs chunks]; try done.
      rewrite fmap_cons. cbn [zip_with]. by rewrite IH.
    + intros i tok cs Ht. rewrite list_lookup_fmap.
      destruct (chunks !! i) as [runs|] eqn:Hc; [|done]. intros [= <-].
      rewrite textContent_runs. apply (runs_text _ _ _ (Hall _ _ _ Ht Hc)).
Qed.

Lemma tagged_children (tokens : list Token) : ∀ (kids : list (list Node)) i tok cs,
  Forall (λ tok, is_Some (tagOf tok)) tokens →
  tokens !! i = Some tok → kids !! i = Some cs →
  ∃ tag, tagOf tok = Some tag
         ∧ mjoin (zip_with wrapToken tokens kids) !! i = Some (Element tag cs).
Proof.
  induction tokens as [|tok0 tokens IH]; intros kids i tok cs Hall Ht Hk;
    [done|].
  apply Forall_cons in Hall as [[tag0 Htag0] Hall].
  destruct kids as [|cs0 kids]; [done|].
  cbn [zip_with mjoin list_join]. unfold wrapToken at 1. rewrite Htag0.
  destruct i as [|i]; simpl in *.
  - injection Ht as <-. injection Hk as <-. by exists tag0.
  - by apply IH.
Qed.

Lemma tagged_length (tokens : list Token) : ∀ kids : list (list Node),
  Forall (λ tok, is_Some (tagOf tok)) tokens →
  length kids = length tokens →
  length (mjoin (zip_with wrapToken tokens kids)) = length tokens.
Proof.
  induction tokens as [|tok0 tokens IH]; intros kids Hall Hlen; [done|].
  apply Forall_cons in Hall as [[tag0 Htag0] Hall].
  destruct kids as [|cs0 kids]; [done|].
  cbn [zip_with mjoin list_join]. unfold wrapToken at 1. rewrite Htag0.
  simpl. f_equal. apply IH; [done|]. simpl in Hlen. lia.
Qed.

(** When every token has a tag, the fragment has exactly one child
    per token, in the order of the tokens: an element with the token's tag
    whose text is the token's text, whatever the matched offsets. *)
Lemma one_element_per_tagged_token
    (matches : list Z) (tokens : list Token) :
  Forall (λ tok, is_Some (tagOf tok)) tokens →
  length (childNodes (renderTokensWithMatches matches tokens)) = length tokens
  ∧ ∀ i tok, tokens !! i = Some tok →
      ∃ tag cs,
        tagOf tok = Some tag
        ∧ childNodes (renderTokensWithMatches matches tokens) !! i
          = Some (Element tag cs)
        ∧ flat_map textContent cs = Token.text tok.
Proof.
  intros Hall.
  destruct (render_structure matches tokens) as (kids & Hlen & -> & Htext).
  cbn [childNodes]. split; [by apply tagged_length|].
  intros i tok Ht.
  destruct (kids !! i) as [cs|] eqn:Hk.
  - destruct (tagged_children tokens kids i tok cs Hall Ht Hk) as (tag & H1 & H2).
    exists tag, cs. split; [done|]. split; [done|]. by eapply Htext.
  - apply lookup_ge_None in Hk. apply lookup_lt_Some in Ht. lia.
Qed.


(** ** Earlier tokens do not depend on later ones *)

(** X15.  Appending tokens leaves the nodes of the earlier tokens as
    they are: the children of the fragment for [tokens1] are the first
    children of the fragment for [tokens1 ++ tokens2]. *)
Theorem X15_render_prefix
    (matches : list Z) (tokens1 tokens2 : list Token) :
  ∃ more,
    childNodes (renderTokensWithMatches matches (tokens1 ++ tokens2))
    = childNodes (renderTokensWithMatches matches tokens1) ++ more.
Proof.
  unfold renderTokensWithMatches, createDocumentFragment.
  destruct matches as [|z matches].
  - rewrite !fold_renderPlain, fmap_app. cbn [app childNodes]. by eexists.
  - rewrite fold_left_app.
    destruct (fold_renderMatched (list_to_set (z :: matches)) tokens1 [] 0)
      as (chunks1 & _ & -> & _).
    destruct (fold_renderMatched (list_to_set (z :: matches)) tokens2
                ([] ++ mjoin (zip_with
                                (λ tok runs, wrapToken tok (runNode <$> runs))
                                tokens1 chunks1))
                (0 + totalLength tokens1))
      as (chunks2 & _ & -> & _).
    cbn [fst childNodes]. by eexists.
Qed.

(** ** What is highlighted *)

Lemma matchedText_app (M : gset Z) (s1 s2 : jsstring) : ∀ a,
  matchedText M a (s1 ++ s2)
  = matchedText M a s1 ++ matchedText M (a + length s1) s2.
Proof.
  induction s1 as [|c s1 IH]; intros a; simpl.
  - by rewrite Nat.add_0_r.
  - rewrite IH, <- app_assoc. do 3 f_equal. lia.
Qed.

Lemma matchedText_const (M : gset Z) (b : bool) (s : jsstring) : ∀ a,
  (∀ p, a ≤ p < a + length s → bool_decide (Z.of_nat p ∈ M) = b) →
  matchedText M a s = if b then s else [].
Proof.
  induction s as [|c s IH]; intros a H; simpl.
  - by destruct b.
  - rewrite (H a) by (simpl; lia). rewrite IH.
    + by destruct b.
    + intros p Hp. apply H. simpl. lia.
Qed.

Lemma replicate_fmap_seq (g : nat → bool) b n : ∀ a,
  replicate n b = g <$> seq a n → ∀ p, a ≤ p < a + n → g p = b.
Proof.
  induction n as [|n IH]; intros a H p Hp; [lia|].
  simpl in H. injection H as H0 H.
  destruct (decide (p = a)) as [->|]; [done|].
  apply (IH (S a) H). lia.
Qed.

Lemma highlighted_runNode r :
  highlighted (runNode r) = if r.1 then r.2 else [].
Proof.
  destruct r as [[] s]; [|done]. unfold runNode.
  cbn [fst snd highlighted]. rewrite bool_decide_true by done.
  cbn [flat_map textContent]. apply app_nil_r.
Qed.

Lemma highlighted_runs (M : gset Z) (runs : list (bool * jsstring)) : ∀ a,
  flags runs
  = (λ q, bool_decide (Z.of_nat q ∈ M))
      <$> seq a (length (mjoin (snd <$> runs))) →
  flat_map highlighted (runNode <$> runs)
  = matchedText M a (mjoin (snd <$> runs)).
Proof.
  induction runs as [|[b s] runs IH]; intros a; [done|].
  rewrite !fmap_cons. cbn [mjoin list_join flat_map snd].
  unfold flags. cbn [flat_map fst snd]. fold (flags runs).
  rewrite length_app, seq_app, fmap_app. intros H.
  apply app_inj_1 in H as [H1 H2];
    [|by rewrite length_replicate, length_fmap, length_seq].
  rewrite matchedText_app, highlighted_runNode. cbn [fst snd].
  rewrite (IH _ H2). f_equal. symmetry. apply matchedText_const.
  intros p Hp. by apply (replicate_fmap_seq _ _ _ _ H1).
Qed.

Lemma highlighted_token (M : gset Z) off (text : jsstring) runs :
  maximal_runs (inside M off) text runs →
  flat_map highlighted (runNode <$> runs) = matchedText M off text.
Proof.
  intros [Ht Hf _ _]. rewrite <- Ht. apply highlighted_runs.
  rewrite Hf, Ht.
  replace (seq off (length text)) with (Nat.add off <$> seq 0 (length text))
    by (rewrite fmap_add_seq; f_equal; lia).
  rewrite <- list_fmap_compose.
  apply list_fmap_ext. intros _ p _. unfold inside. simpl.
  by rewrite Nat.add_comm.
Qed.

Lemma highlighted_wrapToken tok kids :
  tagOf tok ≠ Some search_highlight →
  flat_map highlighted (wrapToken tok kids) = flat_map highlighted kids.
Proof.
  intros Hne. unfold wrapToken. destruct (tagOf tok) as [t|]; [|done].
  cbn [flat_map highlighted]. rewrite bool_decide_false by congruence.
  apply app_nil_r.
Qed.

Lemma highlighted_chunks (M : gset Z) (tokens : list Token) :
  ∀ (chunks : list (list (bool * jsstring))) off,
  length chunks = length tokens →
  Forall (λ tok, tagOf tok ≠ Some search_highlight) tokens →
  (∀ i tok runs, tokens !! i = Some tok → chunks !! i = Some runs →
     maximal_runs (inside M (off + offsetOf tokens i)) (Token.text tok) runs) →
  flat_map highlighted
    (mjoin (zip_with (λ tok runs, wrapToken tok (runNode <$> runs))
              tokens chunks))
  = matchedText M off (mjoin (Token.text <$> tokens)).
Proof.
  induction tokens as [|tok tokens IH]; intros chunks off Hlen Htags Hall;
    [done|].
  destruct chunks as [|runs chunks]; [done|].
  apply Forall_cons in Htags as [Htag Htags].
  rewrite fmap_cons. cbn [zip_with mjoin list_join].
  rewrite flat_map_app, matchedText_app, highlighted_wrapToken by done.
  pose proof (Hall 0 tok runs eq_refl eq_refl) as H0.
  unfold offsetOf in H0. simpl in H0. rewrite Nat.add_0_r in H0.
  rewrite (highlighted_token _ _ _ _ H0). f_equal.
  apply (IH chunks (off + length (Token.text tok))); [simpl in Hlen; lia|done|].
  intros i tok' runs' Ht Hc. specialize (Hall (S i) tok' runs' Ht Hc).
  unfold offsetOf in *. cbn [take] in Hall.
  by rewrite totalLength_cons, Nat.add_assoc in Hall.
Qed.

Lemma matchedText_empty (s : jsstring) : ∀ a, matchedText ∅ a s = [].
Proof. induction s as [|c s IH]; intros a; [done|]. simpl. apply IH. Qed.

(** The highlighted text of a fragment, in terms of the offsets. *)
Lemma highlighted_render (matches : list Z) (tokens : list Token) :
  Forall (λ tok, tagOf tok ≠ Some search_highlight) tokens →
  highlighted (renderTokensWithMatches matches tokens)
  = matchedText (list_to_set matches) 0 (mjoin (Token.text <$> tokens)).
Proof.
  intros Htags. destruct matches as [|z matches].
  - unfold renderTokensWithMatches, createDocumentFragment.
    rewrite fold_renderPlain. cbn [app highlighted].
    change (list_to_set []) with (∅ : gset Z). rewrite matchedText_empty.
    induction Htags as [|tok tokens Htag _ IH]; [done|].
    rewrite fmap_cons. cbn [flat_map]. rewrite IH, app_nil_r.
    unfold plainNode. destruct (tagOf tok) as [t|]; [|done].
    cbn [highlighted]. rewrite bool_decide_false by congruence.
    by destruct (Token.text tok).
  - destruct (fold_renderMatched (list_to_set (z :: matches)) tokens [] 0)
      as (chunks & Hlen & Hfold & Hall).
    unfold renderTokensWithMatches, createDocumentFragment. rewrite Hfold.
    cbn [fst app highlighted]. by apply highlighted_chunks.
Qed.


Example highlighted_click :
  highlighted
    (renderTokensWithMatches [0; 1; 2; 3; 4; 5]%Z Scenario.clickTokens)
  = JS.lit "page.c".
Proof. vm_compute. reflexivity. Qed.

End RenderMore.

(** * More on the search items *)

Module SearchMore.
Import DOM Render RenderSpec2 PPTRSearchItem SearchFacts.

Lemma tokens_not_highlight item :
  (∃ c, item = createForClass c) ∨ (∃ m, item = createForMethod m)
  ∨ (∃ e, item = createForEvent e) ∨ (∃ n, item = createForNamespace n) →
  ∃ tokens,
    titleRenderer item = (λ matches, renderTokensWithMatches matches tokens)
    ∧ mjoin (Token.text <$> tokens) = text item
    ∧ Forall (λ tok, tagOf tok ≠ Some search_highlight) tokens.
Proof.
  intros [[c ->]|[[m ->]|[[e ->]|[n ->]]]].
  - exists (classTokens c). split; [done|]. split; [apply text_classTokens|].
    repeat constructor; vm_compute; discriminate.
  - exists (methodTokens m). split; [done|]. split; [apply text_methodTokens|].
    repeat constructor; vm_compute; discriminate.
  - exists (eventTokens e). split; [done|]. split; [apply text_eventTokens|].
    repeat constructor; vm_compute; discriminate.
  - exists (namespaceTokens n). split; [done|].
    split; [apply text_namespaceTokens|].
    repeat constructor; vm_compute; discriminate.
Qed.

(** X17.  In the rendered title of a search item, the highlighted text is
    made of exactly the characters of the item's text whose offsets are in
    [matches]. *)
Theorem X17_title_highlights_matched_text
    (classes : list APIClassEntry.t) (item : t) (matches : list Z) :
  item ∈ searchItems classes →
  highlighted (titleRenderer item matches)
  = matchedText (list_to_set matches) 0 (text item).
Proof.
  intros Hin.
  destruct (tokens_not_highlight item (elem_of_searchItems _ _ Hin))
    as (tokens & Hr & Ht & Htags).
  rewrite Hr, <- Ht. by apply RenderMore.highlighted_render.
Qed.

Lemma X17_title_highlights_matched_text_witness :
  createForMethod Scenario.click ∈ searchItems [Scenario.pageEntry]
  ∧ highlighted (titleRenderer (createForMethod Scenario.click) [5; 6]%Z)
    = matchedText (list_to_set [5; 6]%Z) 0
        (text (createForMethod Scenario.click)).
Proof.
  assert (Hin : createForMethod Scenario.click
                ∈ searchItems [Scenario.pageEntry]).
  { apply list_elem_of_In. simpl. auto. }
  split; [exact Hin|].
  exact (X17_title_highlights_matched_text _ _ _ Hin).
Defined.

End SearchMore.

(** * The product and its versions *)

Module ProductFacts.
Import Lifespan PPTRProduct.

Lemma new_releases readmeText releases ts p :
  new readmeText releases ts = inr p →
  _readmeText p = readmeText
  ∧ _initializeAPILifespan releases = inr (_releases p).
Proof.
  unfold new. destruct (_initializeAPILifespan releases) as [e|rs]; [done|].
  intros [= <-]. done.
Qed.

Lemma find_first {A} (f : A → bool) (l : list A) (x : A) :
  find f l = Some x →
  ∃ i, l !! i = Some x ∧ f x = true
       ∧ ∀ j y, j < i → l !! j = Some y → f y = false.
Proof.
  induction l as [|a l IH]; [done|]. cbn [find].
  destruct (f a) eqn:Hfa.
  - intros [= ->]. exists 0. split; [done|]. split; [done|]. lia.
  - intros (i & Hi & Hx & Hlt)%IH. exists (S i).
    split; [done|]. split; [done|].
    intros [|j] y Hj Hy; [by injection Hy as <-|].
    apply (Hlt j); [lia|done].
Qed.

Lemma find_None {A} (f : A → bool) (l : list A) :
  find f l = None ↔ ∀ x, x ∈ l → f x = false.
Proof.
  induction l as [|a l IH]; cbn [find].
  - split; [|done]. intros _ x Hx. by apply elem_of_nil in Hx.
  - destruct (f a) eqn:Hfa.
    + split; [done|]. intros H. specialize (H a ltac:(apply elem_of_cons; by left)).
      congruence.
    + rewrite IH. split.
      * intros H x [->|Hx]%elem_of_cons; [done|by apply H].
      * intros H x Hx. apply H. apply elem_of_cons. by right.
Qed.

(** X18.  A product lists the names of the releases it was built from, in
    their order; [getVersion] answers [null] exactly for the names that are
    not listed, and otherwise hands the product's readme and the first
    release of that name to the version. *)
Theorem X18_getVersion_resolves_listed_names
    (readmeText : jsstring) (releases : list Release) (ts : Z) (p : t) :
  new readmeText releases ts = inr p →
  versionNames p = Release.name <$> releases
  ∧ ∀ name,
      (getVersion p name = None ↔ name ∉ versionNames p)
      ∧ ∀ text release, getVersion p name = Some (text, release) →
          text = readmeText ∧ Release.name release = name
          ∧ ∃ i, _releases p !! i = Some release
                 ∧ ∀ j, j < i → versionNames p !! j ≠ Some name.
Proof.
  intros (Hreadme & Hinit)%new_releases. split.
  { unfold versionNames. by apply IndexFacts.index_keeps_releases. }
  intros name. unfold getVersion, versionNames. split.
  - destruct (find _ (_releases p)) as [r|] eqn:Hfind.
    + split; [done|]. intros Hnot. exfalso. apply Hnot.
      destruct (find_first _ _ _ Hfind) as (i & Hi & Hn & _).
      apply bool_decide_eq_true in Hn as <-.
      apply list_elem_of_fmap. exists r. split; [done|].
      by apply list_elem_of_lookup_2 in Hi.
    + split; [|done]. intros _ (r & -> & Hr)%list_elem_of_fmap.
      apply find_None with (x := r) in Hfind; [|done].
      by apply bool_decide_eq_false in Hfind.
  - intros text release.
    destruct (find _ (_releases p)) as [r|] eqn:Hfind; [|done].
    intros [= <- <-].
    destruct (find_first _ _ _ Hfind) as (i & Hi & Hn & Hlt).
    apply bool_decide_eq_true in Hn.
    split; [done|]. split; [done|]. exists i. split; [done|].
    intros j Hj Hname. rewrite list_lookup_fmap in Hname.
    destruct (_releases p !! j) as [y|] eqn:Hy; [|done].
    injection Hname as Hname.
    specialize (Hlt j y Hj Hy). by apply bool_decide_eq_false in Hlt.
Qed.

Lemma X18_getVersion_resolves_listed_names_witness :
  ∃ p, new (JS.lit "readme") [Scenario.r11; Scenario.r10; Scenario.r09] 0
       = inr p
    ∧ versionNames p
      = Release.name <$> [Scenario.r11; Scenario.r10; Scenario.r09].
Proof.
  eexists. split; [vm_compute; reflexivity|].
  eapply (X18_getVersion_resolves_listed_names (JS.lit "readme")
            [Scenario.r11; Scenario.r10; Scenario.r09] 0).
  vm_compute. reflexivity.
Defined.

(** X19.  [defaultVersionName] throws when the product was built from
    fewer than two releases; otherwise it answers the name of the second
    release given, and [getVersion] resolves that name. *)
Theorem X19_defaultVersionName_is_second_release
    (readmeText : jsstring) (releases : list Release) (ts : Z) (p : t) :
  new readmeText releases ts = inr p →
  match releases !! 1 with
  | None => ∃ e, defaultVersionName p = inl e
  | Some release =>
      defaultVersionName p = inr (Release.name release)
      ∧ getVersion p (Release.name release) ≠ None
  end.
Proof.
  intros (Hreadme & Hinit)%new_releases.
  destruct (IndexFacts.index_keeps_releases _ _ Hinit) as [Hnames _].
  apply (f_equal (λ l, l !! 1)) in Hnames.
  rewrite !list_lookup_fmap in Hnames.
  unfold defaultVersionName.
  destruct (releases !! 1) as [r|], (_releases p !! 1) as [R|] eqn:HR;
    try done; [|by eexists].
  injection Hnames as Hnames. rewrite Hnames. split; [done|].
  unfold getVersion.
  destruct (find _ (_releases p)) as [r'|] eqn:Hfind; [done|].
  apply find_None with (x := R) in Hfind.
  - apply bool_decide_eq_false in Hfind. congruence.
  - by apply list_elem_of_lookup_2 in HR.
Qed.

Lemma X19_defaultVersionName_is_second_release_witness :
  ∃ p, new (JS.lit "readme") [Scenario.r11; Scenario.r10; Scenario.r09] 0
       = inr p
    ∧ defaultVersionName p = inr (Release.name Scenario.r10)
    ∧ getVersion p (Release.name Scenario.r10) ≠ None.
Proof.
  eexists. split; [vm_compute; reflexivity|].
  eapply (X19_defaultVersionName_is_second_release (JS.lit "readme")
            [Scenario.r11; Scenario.r10; Scenario.r09] 0).
  vm_compute. reflexivity.
Defined.

End ProductFacts.

(** * Release priorities *)

Module PriorityFacts.
Import Priority PrioritySpec.

Lemma substring_tail (c : N) (s : jsstring) :
  JS.substring (c :: s) 1 (JS.length (c :: s)) = s.
Proof.
  unfold JS.substring, JS.length. cbn [length].
  replace (1 `min` S (length s)) with 1 by lia.
  replace (S (length s) `min` S (length s)) with (S (length s)) by lia.
  replace (1 `min` S (length s)) with 1 by lia.
  replace (1 `max` S (length s)) with (S (length s)) by lia.
  cbn [drop]. replace (S (length s) - 1) with (length s) by lia.
  apply firstn_all.
Qed.

Lemma split_nonempty (sep : N) (s : jsstring) : JS.split sep s ≠ [].
Proof.
  destruct s as [|c s]; cbn [JS.split]; [done|].
  destruct (c =? sep)%N; [done|]. by destruct (JS.split sep s).
Qed.

Lemma split_app (sep : N) (w rest : jsstring) :
  Forall (λ c, c ≠ sep) w →
  JS.split sep (w ++ sep :: rest) = w :: JS.split sep rest.
Proof.
  induction 1 as [|c w Hc _ IH]; cbn [app JS.split].
  - by rewrite N.eqb_refl.
  - apply N.eqb_neq in Hc. by rewrite Hc, IH.
Qed.

Lemma split_head (sep : N) (w rest : jsstring) :
  Forall (λ c, c ≠ sep) w →
  ∃ hd tl, JS.split sep (w ++ rest) = (w ++ hd) :: tl
           ∧ (hd = [] ∨ ∃ c hd' rest', hd = c :: hd' ∧ rest = c :: rest').
Proof.
  induction 1 as [|c w Hc _ IH]; cbn [app].
  - destruct rest as [|c rest]; cbn [JS.split].
    + exists [], []. split; [done|]. by left.
    + destruct (c =? sep)%N.
      * eexists [], _. split; [done|]. by left.
      * destruct (JS.split sep rest) as [|hd tl].
        -- exists [c], []. split; [done|]. right. by eexists _, _, _.
        -- exists (c :: hd), tl. split; [done|]. right. by eexists _, _, _.
  - destruct IH as (hd & tl & IH & Hhd). cbn [JS.split].
    apply N.eqb_neq in Hc. rewrite Hc, IH. by exists hd, tl.
Qed.

Lemma length_split (sep : N) (s : jsstring) :
  length (JS.split sep s) = S (count_occ N.eq_dec s sep).
Proof.
  induction s as [|c s IH]; [done|]. cbn [JS.split count_occ].
  destruct (N.eq_dec c sep) as [->|Hne].
  - rewrite N.eqb_refl. cbn [length]. by rewrite IH.
  - apply N.eqb_neq in Hne. rewrite Hne.
    destruct (JS.split sep s); [done|]. exact IH.
Qed.

Lemma digit_bounds (c : N) : digit c = true ↔ (48 ≤ c ∧ c ≤ 57)%N.
Proof.
  unfold digit. rewrite andb_true_iff, !N.leb_le. done.
Qed.

Lemma digit_not_space (c : N) : digit c = true → Regex.space c = false.
Proof.
  intros [H1 H2]%digit_bounds. unfold Regex.space.
  repeat match goal with
  | |- context [(?a <=? ?b)%N] =>
      destruct (N.leb_spec a b); try lia
  | |- context [(?a =? ?b)%N] =>
      destruct (N.eqb_spec a b); try lia
  end; done.
Qed.

Lemma digit_not_dot : ∀ ds, Forall (λ c, digit c = true) ds →
  Forall (λ c : N, c ≠ 46%N) ds.
Proof.
  intros ds Hds. eapply Forall_impl; [exact Hds|].
  intros c [H1 H2]%digit_bounds. lia.
Qed.

Lemma digitsValue_snoc (ds : jsstring) (c : N) :
  digitsValue (ds ++ [c]) = (10 * digitsValue ds + (Z.of_N c - 48))%Z.
Proof. unfold digitsValue. by rewrite fold_left_app. Qed.

Lemma digitsValue_nonneg (ds : jsstring) :
  Forall (λ c, digit c = true) ds → (0 ≤ digitsValue ds)%Z.
Proof.
  induction ds as [|c ds IH] using rev_ind; [done|].
  intros [Hds [Hc _]%Forall_cons]%Forall_app.
  apply digit_bounds in Hc. rewrite digitsValue_snoc.
  specialize (IH Hds). lia.
Qed.

Lemma span_digits (ds rest : jsstring) :
  Forall (λ c, digit c = true) ds → no_digit_ahead rest →
  Regex.span digit (ds ++ rest) = length ds.
Proof.
  intros Hds Hrest. induction Hds as [|c ds Hc _ IH]; cbn [app].
  - destruct rest as [|c rest]; [done|]. cbn [Regex.span].
    cbn [no_digit_ahead] in Hrest. by rewrite Hrest.
  - cbn [Regex.span length]. by rewrite Hc, IH.
Qed.

(** [parseInt] reads a run of digits and stops at what follows. *)
Lemma parseInt10_digits (ds rest : jsstring) :
  digits ds → no_digit_ahead rest →
  parseInt10 (ds ++ rest) = exact (digitsValue ds).
Proof.
  intros [Hne Hds] Hrest. unfold parseInt10.
  destruct ds as [|c ds]; [done|]. clear Hne.
  pose proof Hds as [Hc _]%Forall_cons.
  assert (Hsp : Regex.span Regex.space ((c :: ds) ++ rest) = 0).
  { cbn [app Regex.span]. by rewrite (digit_not_space c Hc). }
  rewrite Hsp, drop_0. cbn [app].
  pose proof Hc as [H1 H2]%digit_bounds.
  destruct (N.eqb_spec c 45); [lia|]. destruct (N.eqb_spec c 43); [lia|].
  change (c :: ds ++ rest) with ((c :: ds) ++ rest).
  rewrite span_digits by done.
  rewrite take_app_length. f_equal. lia.
Qed.

Lemma exact_small (z : Z) : (Z.abs z ≤ 2 ^ 53)%Z → exact z = Int z.
Proof. intros H. unfold exact. by apply Z.leb_le in H as ->. Qed.

Lemma components_version c M m p rest :
  digits M → digits m → digits p → no_digit_ahead rest →
  ∃ more,
    components (versionName c M m p rest)
    = exact (digitsValue M) :: exact (digitsValue m)
        :: exact (digitsValue p) :: more.
Proof.
  intros HM Hm Hp Hrest. unfold components, versionName.
  rewrite substring_tail.
  rewrite split_app by (apply digit_not_dot, HM).
  rewrite split_app by (apply digit_not_dot, Hm).
  destruct (split_head 46 p rest) as (hd & tl & -> & Hhd);
    [apply digit_not_dot, Hp|].
  exists (parseInt10 <$> tl). rewrite !fmap_cons.
  rewrite <- (app_nil_r M) at 1. rewrite <- (app_nil_r m) at 1.
  rewrite !parseInt10_digits; try done.
  destruct Hhd as [->|(x & hd' & rest' & -> & ->)]; done.
Qed.

Lemma component_cons i x l :
  component i (x :: l) = match i with 0 => x | S j => component j l end.
Proof. by destruct i. Qed.

Lemma arith_Int op x y : arith op (Int x) (Int y) = exact (op x y).
Proof. done. Qed.

(** The priority of a well-formed version name. *)
Lemma priority_version c M m p rest :
  digits M → digits m → digits p → no_digit_ahead rest →
  (weight M m p ≤ 2 ^ 53)%Z →
  priority (versionName c M m p rest) = Int (weight M m p).
Proof.
  intros HM Hm Hp Hrest Hw.
  destruct (components_version c M m p rest) as (more & Hcs); try done.
  unfold priority. rewrite Hcs, !component_cons.
  pose proof (digitsValue_nonneg M (proj2 HM)).
  pose proof (digitsValue_nonneg m (proj2 Hm)).
  pose proof (digitsValue_nonneg p (proj2 Hp)).
  unfold weight in *.
  rewrite !exact_small by lia.
  unfold add, mul.
  repeat (rewrite arith_Int, exact_small by lia). f_equal. lia.
Qed.

(** X20.  A release named by one character followed by [M.m.p] (three runs
    of decimal digits; anything not starting with a digit may follow) gets
    the priority 10000 M + 100 m + p, as long as that number is at most
    2^53. *)
Theorem X20_priority_of_version (c : N) (M m p rest : jsstring) :
  digits M → digits m → digits p → no_digit_ahead rest →
  (weight M m p ≤ 2 ^ 53)%Z →
  priority (versionName c M m p rest)
  = Int (digitsValue M * 10000 + digitsValue m * 100 + digitsValue p).
Proof. apply priority_version. Qed.

Lemma X20_priority_of_version_witness :
  priority (JS.lit "v1.12.3-rc.1") = Int 11203.
Proof.
  apply (X20_priority_of_version 118 (JS.lit "1") (JS.lit "12") (JS.lit "3")
           (JS.lit "-rc.1")).
  - split; [done|]. vm_compute. repeat constructor.
  - split; [done|]. vm_compute. repeat constructor.
  - split; [done|]. vm_compute. repeat constructor.
  - reflexivity.
  - vm_compute. discriminate.
Defined.

(** X21.  For two well-formed version names whose minor and patch numbers
    are below 100, the comparator of the sort is negative exactly when its
    first argument is the newer version, positive exactly when the second
    is, and zero exactly when the numbers agree: the sort puts newer
    releases first. *)
Theorem X21_comparator_orders_versions
    (ca cb : N) (Ma ma pa ra Mb mb pb rb : jsstring) :
  digits Ma → digits ma → digits pa → no_digit_ahead ra →
  digits Mb → digits mb → digits pb → no_digit_ahead rb →
  (digitsValue ma < 100 ∧ digitsValue pa < 100)%Z →
  (digitsValue mb < 100 ∧ digitsValue pb < 100)%Z →
  (weight Ma ma pa ≤ 2 ^ 53 ∧ weight Mb mb pb ≤ 2 ^ 53)%Z →
  ∃ d, comparator (versionName ca Ma ma pa ra) (versionName cb Mb mb pb rb)
       = Int d
    ∧ ((d < 0)%Z ↔ newer (triple Ma ma pa) (triple Mb mb pb))
    ∧ ((0 < d)%Z ↔ newer (triple Mb mb pb) (triple Ma ma pa))
    ∧ (d = 0%Z ↔ triple Ma ma pa = triple Mb mb pb).
Proof.
  intros HMa Hma Hpa Hra HMb Hmb Hpb Hrb [Hma' Hpa'] [Hmb' Hpb'] [Hwa Hwb].
  unfold comparator. rewrite !priority_version by done.
  pose proof (digitsValue_nonneg Ma (proj2 HMa)).
  pose proof (digitsValue_nonneg ma (proj2 Hma)).
  pose proof (digitsValue_nonneg pa (proj2 Hpa)).
  pose proof (digitsValue_nonneg Mb (proj2 HMb)).
  pose proof (digitsValue_nonneg mb (proj2 Hmb)).
  pose proof (digitsValue_nonneg pb (proj2 Hpb)).
  unfold weight in *. unfold sub.
  rewrite arith_Int, exact_small by lia. eexists. split; [done|].
  unfold newer, triple. split; [lia|]. split; [lia|]. split.
  - intros Hd. f_equal; [f_equal|]; lia.
  - intros [= HM' Hm' Hp']. lia.
Qed.

Lemma X21_comparator_orders_versions_witness :
  ∃ d, comparator (JS.lit "v1.12.3") (JS.lit "v1.9.0") = Int d
    ∧ ((d < 0)%Z ↔ newer (1, 12, 3)%Z (1, 9, 0)%Z)
    ∧ ((0 < d)%Z ↔ newer (1, 9, 0)%Z (1, 12, 3)%Z)
    ∧ (d = 0%Z ↔ (1, 12, 3)%Z = (1, 9, 0)%Z).
Proof.
  apply (X21_comparator_orders_versions 118 118
           (JS.lit "1") (JS.lit "12") (JS.lit "3") []
           (JS.lit "1") (JS.lit "9") (JS.lit "0") []).
  - split; [done|]. vm_compute. repeat constructor.
  - split; [done|]. vm_compute. repeat constructor.
  - split; [done|]. vm_compute. repeat constructor.
  - reflexivity.
  - split; [done|]. vm_compute. repeat constructor.
  - split; [done|]. vm_compute. repeat constructor.
  - split; [done|]. vm_compute. repeat constructor.
  - reflexivity.
  - vm_compute. done.
  - vm_compute. done.
  - vm_compute. split; discriminate.
Defined.

Lemma arith_NaN_r op a : arith op a NaN = NaN.
Proof. by destruct a. Qed.

(** X22.  A release whose name has fewer than two dots after its first
    character has the priority NaN, and the comparator answers NaN
    whenever such a release is one of its arguments. *)
Theorem X22_priority_of_short_name (name other : jsstring) :
  dots (tail name) < 2 →
  priority name = NaN
  ∧ comparator name other = NaN
  ∧ comparator other name = NaN.
Proof.
  intros Hdots.
  assert (Hp : priority name = NaN).
  { unfold priority, components.
    assert (Hlen : length (parseInt10 <$>
              JS.split 46 (JS.substring name 1 (JS.length name))) < 3).
    { rewrite length_fmap, length_split.
      destruct name as [|c name]; [cbn; lia|].
      rewrite substring_tail. unfold dots in Hdots. cbn [tail] in Hdots. lia. }
    set (cs := parseInt10 <$> _) in *.
    replace (component 2 cs) with NaN; [apply arith_NaN_r|].
    unfold component. by rewrite (lookup_ge_None_2 cs 2) by lia. }
  split; [done|]. unfold comparator. rewrite Hp. split.
  - apply arith_NaN_r.
  - done.
Qed.

Lemma X22_priority_of_short_name_witness :
  priority (JS.lit "v1.2") = NaN
  ∧ comparator (JS.lit "v1.2") (JS.lit "v1.0.0") = NaN
  ∧ comparator (JS.lit "v1.0.0") (JS.lit "v1.2") = NaN.
Proof.
  apply (X22_priority_of_short_name (JS.lit "v1.2") (JS.lit "v1.0.0")).
  vm_compute. lia.
Defined.

End PriorityFacts.

(** * The page of a class *)

Module StoreFacts.
Import Doc PageSpec.

Lemma fresh_None (σ : Store) : σ !! fresh (dom σ) = None.
Proof. apply not_elem_of_dom, is_fresh. Qed.

Lemma filter_not_elem (c : ref) (l : list ref) :
  c ∉ l → filter (λ x, x ≠ c) l = l.
Proof.
  induction l as [|a l IH]; [done|]. intros Hc.
  apply not_elem_of_cons in Hc as [Hne Hc].
  rewrite filter_cons_True by done. by rewrite IH.
Qed.

Lemma setParent_same (o : Obj) p : parentNode o = p → setParent p o = o.
Proof. destruct o. cbn. by intros ->. Qed.

Lemma lookup_detach (c r : ref) (σ : Store) (oc : Obj) :
  σ !! c = Some oc →
  detach c σ !! r
  = (λ o,
       let o1 := if decide (parentNode oc = Some r)
                 then setChildren (filter (λ x, x ≠ c) (childNodes o)) o
                 else o in
       if decide (r = c) then setParent None o1 else o1) <$> σ !! r.
Proof.
  intros Hc. unfold detach. rewrite Hc. cbn [mbind option_bind].
  destruct (parentNode oc) as [q|] eqn:Hq.
  - rewrite !lookup_alter.
    destruct (decide (r = c)) as [Hrc|Hrc];
      destruct (decide (q = r)) as [Hqr|Hqr]; subst;
      lookup_cases.
  - destruct (decide (r = c)) as [Hrc|Hrc]; subst.
    + rewrite Hc. cbn. repeat case_decide; try congruence.
      by rewrite setParent_same.
    + destruct (σ !! r); cbn; repeat case_decide; try congruence; done.
Qed.

Lemma lookup_appendChild (p c r : ref) (σ σ' : Store) (oc : Obj) :
  σ !! c = Some oc →
  appendChild p c σ = inr (c, σ') →
  σ' !! r
  = (λ o,
       let o1 := if decide (parentNode oc = Some r)
                 then setChildren (filter (λ x, x ≠ c) (childNodes o)) o
                 else o in
       let o2 := if decide (r = c) then setParent (Some p) o1 else o1 in
       if decide (r = p) then setChildren (childNodes o2 ++ [c]) o2 else o2)
    <$> σ !! r.
Proof.
  intros Hc. unfold appendChild.
  destruct (kind <$> σ !! p) as [[|n]|]; try done.
  destruct (isInclusiveAncestor _ _ _ _); [done|].
  intros [= <-]. rewrite !lookup_alter.
  rewrite !(lookup_detach c _ σ oc Hc).
  destruct (decide (r = c)) as [Hrc|Hrc];
    destruct (decide (p = r)) as [Hpr|Hpr]; subst;
    lookup_cases.
Qed.

End StoreFacts.

Module PageFacts.
Import Doc Page PageSpec StoreFacts.

Lemma not_ancestor_root fuel (σ : Store) (c p : ref) (op : Obj) :
  σ !! p = Some op → parentNode op = None → c ≠ p →
  isInclusiveAncestor fuel σ c p = false.
Proof.
  intros Hp Hroot Hne. destruct fuel as [|fuel]; [done|].
  cbn [isInclusiveAncestor]. rewrite decide_False by done.
  rewrite Hp. cbn. by rewrite Hroot.
Qed.

Lemma not_ancestor_child fuel (σ : Store) (c p g : ref) (op og : Obj) :
  σ !! p = Some op → parentNode op = Some g →
  σ !! g = Some og → parentNode og = None → c ≠ p → c ≠ g →
  isInclusiveAncestor fuel σ c p = false.
Proof.
  intros Hp Hpg Hg Hroot Hcp Hcg. destruct fuel as [|fuel]; [done|].
  cbn [isInclusiveAncestor]. rewrite decide_False by done.
  rewrite Hp. cbn. rewrite Hpg. by eapply not_ancestor_root.
Qed.

Lemma appendChild_ok (p c : ref) (σ : Store) (op : Obj) n :
  σ !! p = Some op → kind op = ElementKind n →
  isInclusiveAncestor (S (size σ)) σ c p = false →
  ∃ σ', appendChild p c σ = inr (c, σ').
Proof.
  intros Hp Hk Ha. unfold appendChild. rewrite Hp.
  cbn [fmap option_fmap option_map]. rewrite Hk, Ha. by eexists.
Qed.


Lemma appendChild_parent (p c : ref) (σ σ' : Store) (oc : Obj)
    (Hc : σ !! c = Some oc) (Hcp : c ≠ p)
    (Happ : appendChild p c σ = inr (c, σ'))
    (op : Obj) :
  σ !! p = Some op → parentNode oc = None ∨ c ∉ childNodes op →
  σ' !! p = Some (setChildren (childNodes op ++ [c]) op).
Proof.
  intros Hp Hnot. rewrite (lookup_appendChild p c p σ σ' oc Hc Happ), Hp.
  cbn. rewrite (decide_False (P := p = c)) by congruence.
  rewrite (decide_True (P := p = p)) by done.
  case_decide; [|done]. destruct Hnot as [Hnot|Hnot]; [congruence|].
  cbn. by rewrite filter_not_elem.
Qed.

Lemma appendChild_child (p c : ref) (σ σ' : Store) (oc : Obj)
    (Hc : σ !! c = Some oc) (Hcp : c ≠ p)
    (Happ : appendChild p c σ = inr (c, σ')) :
  ∃ o', σ' !! c = Some o' ∧ kind o' = kind oc ∧ parentNode o' = Some p.
Proof.
  rewrite (lookup_appendChild p c c σ σ' oc Hc Happ), Hc.
  cbn. rewrite (decide_True (P := c = c)) by done.
  rewrite (decide_False (P := c = p)) by done.
  eexists. split; [done|]. by case_decide.
Qed.

Lemma appendChild_child_exact (p c : ref) (σ σ' : Store) (oc : Obj)
    (Hc : σ !! c = Some oc) (Hcp : c ≠ p)
    (Happ : appendChild p c σ = inr (c, σ')) :
  parentNode oc = None ∨ c ∉ childNodes oc →
  σ' !! c = Some (setParent (Some p) oc).
Proof.
  intros Hnot. rewrite (lookup_appendChild p c c σ σ' oc Hc Happ), Hc.
  cbn. rewrite (decide_True (P := c = c)) by done.
  rewrite (decide_False (P := c = p)) by done.
  case_decide; [|done]. destruct Hnot as [Hnot|Hnot]; [congruence|].
  cbn. by rewrite filter_not_elem.
Qed.

Lemma appendChild_kept (p c : ref) (σ σ' : Store) (oc : Obj)
    (Hc : σ !! c = Some oc) (Hcp : c ≠ p)
    (Happ : appendChild p c σ = inr (c, σ'))
    (r : ref) : r ≠ p → r ≠ c →
  ∀ o, σ !! r = Some o → parentNode oc = None ∨ c ∉ childNodes o →
       σ' !! r = Some o.
Proof.
  intros Hrp Hrc o Hr Hnot.
  rewrite (lookup_appendChild p c r σ σ' oc Hc Happ), Hr.
  cbn. rewrite (decide_False (P := r = c)), (decide_False (P := r = p))
    by done.
  case_decide; [|done]. destruct Hnot as [Hnot|Hnot]; [congruence|].
  rewrite filter_not_elem by done. by destruct o.
Qed.

Lemma appendChild_stays (p c : ref) (σ σ' : Store) (oc : Obj)
    (Hc : σ !! c = Some oc) (Hcp : c ≠ p)
    (Happ : appendChild p c σ = inr (c, σ'))
    (r : ref) : r ≠ c → stays σ σ' r.
Proof.
  intros Hrc o Hr.
  rewrite (lookup_appendChild p c r σ σ' oc Hc Happ), Hr.
  cbn. rewrite (decide_False (P := r = c)) by done.
  eexists. split; [done|]. by repeat case_decide.
Qed.

Lemma appendChild_None (p c : ref) (σ σ' : Store) (oc : Obj)
    (Hc : σ !! c = Some oc) (Hcp : c ≠ p)
    (Happ : appendChild p c σ = inr (c, σ'))
    (r : ref) : σ' !! r = None ↔ σ !! r = None.
Proof.
  rewrite (lookup_appendChild p c r σ σ' oc Hc Happ).
  by rewrite fmap_None.
Qed.



Lemma stays_trans (σ1 σ2 σ3 : Store) (r : ref) :
  stays σ1 σ2 r → stays σ2 σ3 r → stays σ1 σ3 r.
Proof.
  intros H12 H23 o Ho. destruct (H12 o Ho) as (o2 & Ho2 & Hk2 & Hp2).
  destruct (H23 o2 Ho2) as (o3 & Ho3 & Hk3 & Hp3).
  exists o3. split; [done|]. split; congruence.
Qed.

Lemma valid_content_box : validName content_box = true.
Proof. reflexivity. Qed.

Lemma valid_content_delimeter : validName content_delimeter = true.
Proof. reflexivity. Qed.

Lemma valid_h3 : validName h3 = true.
Proof. reflexivity. Qed.

Lemma valid_pptr_api : validName pptr_api = true.
Proof. reflexivity. Qed.

Lemma lower_content_box : toASCIILower content_box = content_box.
Proof. reflexivity. Qed.

Lemma lower_content_delimeter :
  toASCIILower content_delimeter = content_delimeter.
Proof. reflexivity. Qed.

Lemma lower_h3 : toASCIILower h3 = h3.
Proof. reflexivity. Qed.

Lemma lower_pptr_api : toASCIILower pptr_api = pptr_api.
Proof. reflexivity. Qed.

(** A new box becomes the last child of a root. *)
Lemma insertBox_spec (container : ref) (σ : Store) (oc : Obj) n :
  σ !! container = Some oc → kind oc = ElementKind n →
  parentNode oc = None →
  ∃ σ' box,
    _insertBox container σ = inr (box, σ')
    ∧ σ !! box = None
    ∧ node σ' box (ElementKind content_box) (Some container) []
    ∧ σ' !! container = Some (setChildren (childNodes oc ++ [box]) oc)
    ∧ ∀ r, r ≠ box → r ≠ container → σ' !! r = σ !! r.
Proof.
  intros Hc Hk Hroot. unfold _insertBox, bind, createElement, ret.
  rewrite valid_content_box, lower_content_box. cbv beta iota zeta.
  set (box := fresh (dom σ)). set (σ1 := <[box := _]> σ).
  assert (Hbox : σ !! box = None) by apply fresh_None.
  assert (Hne : box ≠ container) by congruence.
  assert (Hc1 : σ1 !! container = Some oc)
    by (unfold σ1; by rewrite lookup_insert_ne).
  assert (Hb1 : σ1 !! box = Some (mkObj (ElementKind content_box) None []))
    by (unfold σ1; by rewrite lookup_insert_eq).
  destruct (appendChild_ok container box σ1 oc n Hc1 Hk) as [σ' Happ].
  { by eapply not_ancestor_root. }
  rewrite Happ. exists σ', box. split; [done|]. split; [done|]. split.
  { unfold node.
    rewrite (appendChild_child_exact container box σ1 σ' _ Hb1 Hne Happ);
      [done|by left]. }
  split.
  { apply (appendChild_parent container box σ1 σ' _ Hb1 Hne Happ oc Hc1).
    by left. }
  intros r Hrb Hrc. destruct (σ !! r) as [o|] eqn:Hr.
  - apply (appendChild_kept container box σ1 σ' _ Hb1 Hne Happ r Hrc Hrb);
      [|by left].
    unfold σ1. by rewrite lookup_insert_ne.
  - apply (appendChild_None container box σ1 σ' _ Hb1 Hne Happ).
    unfold σ1. by rewrite lookup_insert_ne.
Qed.

(** The header of a titled section. *)
Lemma header_spec (container : ref) (c0 : N) (text0 : jsstring)
    (σ : Store) (oc : Obj) n :
  σ !! container = Some oc → kind oc = ElementKind n →
  parentNode oc = None →
  ∃ σ' header t,
    (let* header := createElement h3 in
     let* _ := setTextContent header (c0 :: text0) in
     let* _ := appendChild container header in
     ret tt) σ = inr (tt, σ')
    ∧ σ !! header = None ∧ σ !! t = None
    ∧ node σ' header (ElementKind h3) (Some container) [t]
    ∧ node σ' t (TextKind (c0 :: text0)) (Some header) []
    ∧ σ' !! container = Some (setChildren (childNodes oc ++ [header]) oc)
    ∧ ∀ r, r ≠ header → r ≠ t → r ≠ container → σ' !! r = σ !! r.
Proof.
  intros Hc Hk Hroot. unfold bind, createElement, ret, setTextContent.
  rewrite valid_h3, lower_h3. cbv beta iota zeta.
  set (header := fresh (dom σ)). set (σ1 := <[header := _]> σ).
  assert (Hh : σ !! header = None) by apply fresh_None.
  assert (Hh1 : σ1 !! header = Some (mkObj (ElementKind h3) None []))
    by (unfold σ1; by rewrite lookup_insert_eq).
  rewrite Hh1. cbn [childNodes foldr setChildren kind parentNode].
  set (t := fresh (dom σ1)).
  set (σ2 := <[t := _]> (<[header := _]> σ1)).
  assert (Ht1 : σ1 !! t = None) by apply fresh_None.
  assert (Hth : t ≠ header) by congruence.
  assert (Ht : σ !! t = None).
  { unfold σ1 in Ht1. by rewrite lookup_insert_ne in Ht1. }
  assert (Hhc : header ≠ container) by congruence.
  assert (Htc : t ≠ container) by congruence.
  assert (Hh2 : σ2 !! header = Some (mkObj (ElementKind h3) None [t])).
  { unfold σ2. rewrite lookup_insert_ne by done.
    by rewrite lookup_insert_eq. }
  assert (Hc2 : σ2 !! container = Some oc).
  { unfold σ2, σ1. by rewrite !lookup_insert_ne. }
  destruct (appendChild_ok container header σ2 oc n Hc2 Hk) as [σ' Happ].
  { by eapply not_ancestor_root. }
  rewrite Happ. exists σ', header, t.
  split; [done|]. split; [done|]. split; [done|]. split.
  { unfold node.
    rewrite (appendChild_child_exact container header σ2 σ' _ Hh2 Hhc Happ);
      [done|by left]. }
  split.
  { unfold node.
    apply (appendChild_kept container header σ2 σ' _ Hh2 Hhc Happ t);
      [done|done| |by left].
    unfold σ2. by rewrite lookup_insert_eq. }
  split.
  { apply (appendChild_parent container header σ2 σ' _ Hh2 Hhc Happ oc Hc2).
    by left. }
  intros r Hrh Hrt Hrc.
  assert (Hr2 : σ2 !! r = σ !! r).
  { unfold σ2, σ1. by rewrite !lookup_insert_ne. }
  destruct (σ !! r) as [o|] eqn:Hr.
  - apply (appendChild_kept container header σ2 σ' _ Hh2 Hhc Happ r);
      [done|done|done|by left].
  - by apply (appendChild_None container header σ2 σ' _ Hh2 Hhc Happ).
Qed.

(** One round of the loop: the element and a new delimiter become the last
    children of the box. *)
Lemma render_step_spec (container box e : ref) (σ : Store)
    (cs : list ref) (og oe : Obj) k :
  σ !! box = Some (mkObj (ElementKind k) (Some container) cs) →
  σ !! container = Some og → parentNode og = None →
  σ !! e = Some oe → e ≠ box → e ≠ container → e ∉ cs →
  ∃ σ' d,
    render_step box e σ = inr (d, σ')
    ∧ σ !! d = None
    ∧ σ' !! box = Some (mkObj (ElementKind k) (Some container) (cs ++ [e; d]))
    ∧ node σ' d (ElementKind content_delimeter) (Some box) []
    ∧ (∃ o', σ' !! e = Some o' ∧ kind o' = kind oe
             ∧ parentNode o' = Some box)
    ∧ (∀ r o, r ≠ box → r ≠ e → σ !! r = Some o → e ∉ childNodes o →
              σ' !! r = Some o)
    ∧ (∀ r, r ≠ e → stays σ σ' r)
    ∧ (∀ r, r ≠ d → σ !! r = None → σ' !! r = None).
Proof.
  intros Hb Hg Hroot He Heb Heg Hecs.
  unfold render_step, bind, ret.
  destruct (appendChild_ok box e σ _ k Hb eq_refl) as [σ1 Happ1].
  { eapply not_ancestor_child; done. }
  rewrite Happ1.
  pose proof (appendChild_parent box e σ σ1 oe He Heb Happ1 _ Hb
                (or_intror Hecs)) as Hb1.
  destruct (appendChild_child box e σ σ1 oe He Heb Happ1)
    as (oe1 & He1 & Hke1 & Hpe1).
  destruct (appendChild_stays box e σ σ1 oe He Heb Happ1 container
              ltac:(congruence) og Hg) as (og1 & Hg1 & _ & Hpg1).
  unfold createElement.
  rewrite valid_content_delimeter, lower_content_delimeter.
  cbv beta iota zeta.
  set (d := fresh (dom σ1)). set (σ2 := <[d := _]> σ1).
  assert (Hd1 : σ1 !! d = None) by apply fresh_None.
  assert (Hd : σ !! d = None)
    by (by apply (appendChild_None box e σ σ1 oe He Heb Happ1)).
  assert (Hdb : d ≠ box) by congruence.
  assert (Hdg : d ≠ container) by congruence.
  assert (Hde : d ≠ e) by congruence.
  assert (Hd2 : σ2 !! d
                = Some (mkObj (ElementKind content_delimeter) None []))
    by (unfold σ2; by rewrite lookup_insert_eq).
  assert (Hb2 : σ2 !! box = Some (setChildren (cs ++ [e])
                  (mkObj (ElementKind k) (Some container) cs)))
    by (unfold σ2; by rewrite lookup_insert_ne).
  assert (Hg2 : σ2 !! container = Some og1)
    by (unfold σ2; by rewrite lookup_insert_ne).
  destruct (appendChild_ok box d σ2 _ k Hb2 eq_refl) as [σ' Happ2].
  { eapply not_ancestor_child; try done. congruence. }
  rewrite Happ2. exists σ', d. split; [done|]. split; [done|]. split.
  { rewrite (appendChild_parent box d σ2 σ' _ Hd2 Hdb Happ2 _ Hb2);
      [|by left].
    cbn. by rewrite <- app_assoc. }
  split.
  { unfold node.
    rewrite (appendChild_child_exact box d σ2 σ' _ Hd2 Hdb Happ2);
      [done|by left]. }
  split.
  { exists oe1. split; [|done].
    apply (appendChild_kept box d σ2 σ' _ Hd2 Hdb Happ2 e);
      [done|done| |by left].
    unfold σ2. by rewrite lookup_insert_ne. }
  split.
  { intros r o Hrb Hre Hr Hnot.
    assert (Hrd : r ≠ d) by congruence.
    apply (appendChild_kept box d σ2 σ' _ Hd2 Hdb Happ2 r);
      [done|done| |by left].
    unfold σ2. rewrite lookup_insert_ne by done.
    apply (appendChild_kept box e σ σ1 oe He Heb Happ1 r);
      [done|done|done|by right]. }
  split.
  { intros r Hre o Hr.
    assert (Hrd : r ≠ d) by congruence.
    destruct (appendChild_stays box e σ σ1 oe He Heb Happ1 r Hre o Hr)
      as (o1 & Hr1 & Hk1 & Hp1).
    destruct (appendChild_stays box d σ2 σ' _ Hd2 Hdb Happ2 r Hrd o1)
      as (o2 & Hr2 & Hk2 & Hp2).
    { unfold σ2. by rewrite lookup_insert_ne. }
    exists o2. split; [done|]. split; congruence. }
  intros r Hrd Hr.
  apply (appendChild_None box d σ2 σ' _ Hd2 Hdb Happ2).
  unfold σ2. rewrite lookup_insert_ne by done.
  by apply (appendChild_None box e σ σ1 oe He Heb Happ1).
Qed.

Lemma stays_refl (σ : Store) (r : ref) : stays σ σ r.
Proof. intros o Ho. by exists o. Qed.

Lemma render_loop_spec (container box : ref) k (elements : list ref) :
  ∀ (σ : Store) (cs : list ref) (last0 : option ref) (og : Obj),
  σ !! box = Some (mkObj (ElementKind k) (Some container) cs) →
  σ !! container = Some og → parentNode og = None →
  NoDup elements →
  (∀ e, e ∈ elements →
     is_Some (σ !! e) ∧ e ≠ box ∧ e ≠ container ∧ e ∉ cs) →
  ∃ σ' ds,
    render_loop box elements last0 σ
    = inr (from_option Some last0 (last ds), σ')
    ∧ length ds = length elements
    ∧ NoDup ds
    ∧ (∀ d, d ∈ ds →
         σ !! d = None
         ∧ node σ' d (ElementKind content_delimeter) (Some box) [])
    ∧ σ' !! box
      = Some (mkObj (ElementKind k) (Some container)
                    (cs ++ pairs elements ds))
    ∧ (∀ e, e ∈ elements →
         ∃ o o', σ !! e = Some o ∧ σ' !! e = Some o'
                 ∧ kind o' = kind o ∧ parentNode o' = Some box)
    ∧ (∀ r o, r ≠ box → r ∉ elements → σ !! r = Some o →
              (∀ e, e ∈ elements → e ∉ childNodes o) → σ' !! r = Some o)
    ∧ (∀ r, r ∉ elements → stays σ σ' r)
    ∧ (∀ r, r ∉ ds → σ !! r = None → σ' !! r = None).
Proof.
  induction elements as [|e rest IH]; intros σ cs last0 og Hb Hg Hroot Hnd Hel.
  - exists σ, []. cbn [render_loop ret last from_option length pairs zip_with
                       concat].
    rewrite app_nil_r.
    split; [done|]. split; [done|]. split; [constructor|].
    split; [by intros d Hd%elem_of_nil|]. split; [done|].
    split; [by intros d Hd%elem_of_nil|]. split; [done|].
    split; [intros r _; apply stays_refl|]. done.
  - apply NoDup_cons in Hnd as [Hnotin Hnd].
    destruct (Hel e ltac:(apply elem_of_cons; by left))
      as ([oe He] & Heb & Heg & Hecs).
    destruct (render_step_spec container box e σ cs og oe k
                Hb Hg Hroot He Heb Heg Hecs)
      as (σ1 & d & Hstep & Hd & Hb1 & Hd1 & (oe1 & He1 & Hke1 & Hpe1)
          & Hkept1 & Hstays1 & Hnone1).
    destruct (Hstays1 container ltac:(congruence) og Hg)
      as (og1 & Hg1 & _ & Hpg1).
    destruct (IH σ1 (cs ++ [e; d]) (Some d) og1 Hb1 Hg1
                ltac:(congruence) Hnd)
      as (σ' & ds & Hloop & Hlen & Hndd & Hds & Hb' & Hels & Hkept & Hstays
          & Hnone).
    { intros e' He'.
      destruct (Hel e' ltac:(apply elem_of_cons; by right))
        as ([oe' Hoe'] & ? & ? & ?).
      assert (e' ≠ e) by (intros ->; done).
      destruct (Hstays1 e' ltac:(done) oe' Hoe') as (o1 & Ho1 & _).
      split; [by eexists|]. split; [done|]. split; [done|].
      rewrite !elem_of_app, elem_of_cons, list_elem_of_singleton.
      intros [?|[?|?]]; try done. congruence. }
    assert (Hlive : ∀ r, σ1 !! r = None → σ !! r = None).
    { intros r Hr1. destruct (σ !! r) as [o|] eqn:Hr; [|done].
      destruct (decide (r = e)) as [->|Hre]; [congruence|].
      destruct (Hstays1 r Hre o Hr) as (o1 & Ho1 & _). congruence. }
    exists σ', (d :: ds). cbn [render_loop]. unfold bind at 1.
    rewrite Hstep, Hloop. split.
    { f_equal. f_equal. rewrite last_cons. by destruct (last ds). }
    split; [cbn; by rewrite Hlen|].
    assert (Hdds : d ∉ ds).
    { intros Hin. destruct (Hds d Hin) as [Hnone' _].
      unfold node in Hd1. congruence. }
    split; [by constructor|]. split.
    { intros d' [->|Hd']%elem_of_cons.
      - split; [done|]. unfold node.
        apply (Hkept d _); try done.
        + congruence.
        + intros Hin.
          destruct (Hel d ltac:(apply elem_of_cons; by right))
            as ([? ?] & _). congruence.
        + intros e' _. cbn. apply not_elem_of_nil.
      - destruct (Hds d' Hd') as [Hn Hnode]. split; [by apply Hlive|done]. }
    split.
    { rewrite Hb'. unfold pairs. cbn [zip_with concat].
      by rewrite <- app_assoc. }
    split.
    { intros e' [->|He']%elem_of_cons.
      - destruct (Hstays e Hnotin oe1 He1) as (o' & Ho' & Hk' & Hp').
        exists oe, o'. split; [done|]. split; [done|]. split; congruence.
      - destruct (Hels e' He') as (o1 & o' & Ho1 & Ho' & Hk' & Hp').
        destruct (Hel e' ltac:(apply elem_of_cons; by right))
          as ([oe' Hoe'] & _).
        assert (e' ≠ e) by (intros ->; done).
        destruct (Hstays1 e' ltac:(done) oe' Hoe') as (o1' & Ho1' & Hk1 & _).
        exists oe', o'. split; [done|]. split; [done|].
        split; [congruence|done]. }
    split.
    { intros r o Hrb Hnot Hr Hch.
      apply not_elem_of_cons in Hnot as [Hre Hnot].
      apply Hkept; try done.
      - apply Hkept1; try done. apply Hch. apply elem_of_cons. by left.
      - intros e' He'. apply Hch. apply elem_of_cons. by right. }
    split.
    { intros r [Hre Hnot]%not_elem_of_cons.
      eapply stays_trans; [by apply Hstays1|by apply Hstays]. }
    intros r [Hrd Hnot]%not_elem_of_cons Hr.
    apply Hnone; [done|]. by apply Hnone1.
Qed.

Lemma pairs_separated (es : list ref) :
  ∀ (e : ref) (ds : list ref) (dn : ref),
  length ds = length es →
  pairs (e :: es) (ds ++ [dn]) = separated (e :: es) ds ++ [dn].
Proof.
  induction es as [|e2 es IH]; intros e ds dn Hlen.
  - by destruct ds.
  - destruct ds as [|d1 ds]; [done|]. injection Hlen as Hlen.
    specialize (IH e2 ds dn Hlen). unfold pairs, separated in *.
    cbn [app zip_with concat] in *. by rewrite IH.
Qed.

Lemma elem_of_separated (x : ref) (es ds : list ref) :
  x ∈ separated es ds → x ∈ es ∨ x ∈ ds.
Proof.
  destruct es as [|e es]; [by intros ?%elem_of_nil|].
  unfold separated. intros [->|Hx]%elem_of_cons.
  { left. apply elem_of_cons. by left. }
  revert ds Hx. induction es as [|e2 es IH]; intros ds Hx.
  - destruct ds; by apply elem_of_nil in Hx.
  - destruct ds as [|d ds]; [by apply elem_of_nil in Hx|].
    cbn [zip_with concat app] in Hx.
    apply elem_of_cons in Hx as [->|Hx].
    { right. apply elem_of_cons. by left. }
    apply elem_of_cons in Hx as [->|Hx].
    { left. apply elem_of_cons. right. apply elem_of_cons. by left. }
    destruct (IH ds Hx) as [Hin|Hin].
    + left. apply elem_of_cons in Hin as [->|Hin].
      * apply elem_of_cons. by left.
      * apply elem_of_cons. right. apply elem_of_cons. by right.
    + right. apply elem_of_cons. by right.
Qed.

Lemma filter_snoc_out (x : ref) (l : list ref) :
  x ∉ l → filter (λ y, y ≠ x) (l ++ [x]) = l.
Proof.
  intros Hx. rewrite filter_app, filter_not_elem by done.
  rewrite filter_cons_False by (intros H; by apply H).
  by rewrite filter_nil, app_nil_r.
Qed.

Lemma setChildren_same (o : Obj) : setChildren (childNodes o) o = o.
Proof. by destruct o. Qed.

(** [_renderElements] without a title, for at least one element. *)
Lemma render_untitled (container : ref) (title : option jsstring)
    (e0 : ref) (rest : list ref) (σ : Store) (oc : Obj) n :
  title = None ∨ title = Some [] →
  σ !! container = Some oc → kind oc = ElementKind n →
  parentNode oc = None → container ∉ e0 :: rest →
  (∀ e, e ∈ e0 :: rest → e ∉ childNodes oc) →
  entries σ (e0 :: rest) →
  ∃ σ' box ds,
    _renderElements container title (e0 :: rest) σ = inr (tt, σ')
    ∧ σ' !! container = Some (setChildren (childNodes oc ++ [box]) oc)
    ∧ boxed σ σ' container box (e0 :: rest) ds
    ∧ (∀ e, e ∈ e0 :: rest →
         ∃ o o', σ !! e = Some o ∧ σ' !! e = Some o' ∧ kind o' = kind o)
    ∧ (∀ r o, r ≠ container → r ∉ e0 :: rest → σ !! r = Some o →
              (∀ e, e ∈ e0 :: rest → e ∉ childNodes o) → σ' !! r = Some o)
    ∧ (∀ r, r ∉ e0 :: rest → stays σ σ' r).
Proof.
  intros Htitle Hc Hk Hroot Hcnot Hch [Hnd Hlive].
  set (elements := e0 :: rest) in *.
  destruct (insertBox_spec container σ oc n Hc Hk Hroot)
    as (σb & box & Hib & Hbnew & Hbnode & Hcb & Hframe).
  assert (Hbc : box ≠ container) by congruence.
  assert (Helb : ∀ e, e ∈ elements → e ≠ box ∧ e ≠ container).
  { intros e He. destruct (Hlive e He) as [o Ho].
    split; [congruence|]. intros ->. done. }
  destruct (render_loop_spec container box content_box elements σb [] None
              _ Hbnode Hcb Hroot Hnd)
    as (σl & ds & Hloop & Hlen & Hndd & Hds & Hbl & Hels & Hkept & Hstays
        & Hnone).
  { intros e He. destruct (Helb e He) as [Heb Hec].
    rewrite Hframe by done. split; [by apply Hlive|].
    split; [done|]. split; [done|]. apply not_elem_of_nil. }
  destruct (exists_last (l := ds)) as (ds' & dn & ->).
  { intros ->. done. }
  rewrite last_snoc in Hloop. cbn [from_option] in Hloop.
  rewrite length_app in Hlen. cbn [length] in Hlen.
  apply NoDup_app in Hndd as (_ & Hdn & _).
  assert (Hdn' : dn ∉ ds').
  { intros Hin. apply (Hdn dn Hin). apply elem_of_cons. by left. }
  destruct (Hds dn ltac:(apply elem_of_app; right; apply elem_of_cons;
                         by left)) as [Hdnb Hdnl].
  assert (Hdnbox : dn ≠ box) by (unfold node in Hbnode; congruence).
  assert (Hdnc : dn ≠ container) by congruence.
  assert (Hdnel : dn ∉ elements).
  { intros Hin. destruct (Helb dn Hin) as [? ?].
    destruct (Hlive dn Hin) as [o Ho].
    rewrite <- Hframe in Ho by done. congruence. }
  assert (Hfinal : ∀ r, r ≠ box → r ≠ dn → detach dn σl !! r = σl !! r).
  { intros r Hrb Hrd. rewrite (lookup_detach dn r σl _ Hdnl).
    cbn [parentNode].
    repeat case_decide; try congruence; by destruct (σl !! r). }
  exists (detach dn σl), box, ds'. split.
  { unfold _renderElements, elements.
    destruct Htitle as [-> | ->]; unfold bind, ret; fold elements;
      by rewrite Hib, Hloop. }
  assert (Hcl : σl !! container
                = Some (setChildren (childNodes oc ++ [box]) oc)).
  { apply Hkept; try done.
    intros e He. cbn [setChildren childNodes].
    rewrite elem_of_app, list_elem_of_singleton.
    intros [Hin|Heq]; [by apply (Hch e He)|].
    by destruct (Helb e He). }
  split.
  { rewrite Hfinal; [exact Hcl|congruence|congruence]. }
  split.
  { split; [done|]. split.
    { unfold node. rewrite (lookup_detach dn box σl _ Hdnl), Hbl.
      cbn [fmap option_fmap option_map parentNode childNodes app].
      rewrite (decide_True (P := Some box = Some box)) by done.
      rewrite (decide_False (P := box = dn)) by congruence.
      unfold setChildren. cbn [kind parentNode childNodes].
      unfold elements in *. cbn [length] in Hlen.
      rewrite pairs_separated by lia.
      rewrite filter_snoc_out; [done|].
      intros [Hin|Hin]%elem_of_separated; done. }
    split; [unfold elements in *; cbn [length] in *; lia|].
    split.
    { intros d Hd.
      destruct (Hds d ltac:(apply elem_of_app; by left)) as [Hdb Hdl].
      split.
      - assert (d ≠ box) by (unfold node in Hbnode; congruence).
        assert (d ≠ container) by congruence.
        by rewrite <- Hframe.
      - unfold node. rewrite Hfinal; [done| |by intros ->].
        intros ->. unfold node in Hbnode. congruence. }
    intros e He. destruct (Hels e He) as (o & o' & Ho & Ho' & Hk' & Hp').
    exists o'. split; [|done]. destruct (Helb e He).
    rewrite Hfinal; [done|done|]. by intros ->. }
  split.
  { intros e He. destruct (Hels e He) as (o & o' & Ho & Ho' & Hk' & Hp').
    destruct (Helb e He). exists o, o'.
    split; [by rewrite <- Hframe|]. split; [|done].
    rewrite Hfinal; [done|done|]. by intros ->. }
  split.
  { intros r o Hrc Hrel Hr Hrch.
    assert (Hrb : r ≠ box) by congruence.
    rewrite Hfinal; [|done|].
    - apply Hkept; try done. by rewrite Hframe.
    - intros ->. rewrite <- Hframe in Hr by done. congruence. }
  intros r Hrel o Hr.
  assert (Hrb : r ≠ box) by congruence.
  assert (Hrd : r ≠ dn).
  { intros ->. rewrite <- Hframe in Hr by done. congruence. }
  rewrite Hfinal by done.
  destruct (decide (r = container)) as [->|Hrc].
  - rewrite Hcl. eexists. split; [done|].
    rewrite Hc in Hr. injection Hr as <-. done.
  - apply Hstays; [done|]. by rewrite Hframe.
Qed.

Lemma boxed_new (σ0 σ1 σ : Store) (container box : ref)
    (elements ds : list ref) :
  (∀ r, σ1 !! r = None → σ0 !! r = None) →
  boxed σ1 σ container box elements ds →
  boxed σ0 σ container box elements ds.
Proof.
  intros Hnew (Hb & Hnode & Hlen & Hds & Hels).
  split; [by apply Hnew|]. split; [done|]. split; [done|].
  split; [|done]. intros d Hd. destruct (Hds d Hd). split; [|done].
  by apply Hnew.
Qed.

(** [_renderElements] with a title, for at least one element. *)
Lemma render_titled (container : ref) (c0 : N) (text0 : jsstring)
    (e0 : ref) (rest : list ref) (σ : Store) (oc : Obj) n :
  σ !! container = Some oc → kind oc = ElementKind n →
  parentNode oc = None → container ∉ e0 :: rest →
  (∀ e, e ∈ e0 :: rest → e ∉ childNodes oc) →
  entries σ (e0 :: rest) →
  ∃ σ' box ds header t,
    _renderElements container (Some (c0 :: text0)) (e0 :: rest) σ
    = inr (tt, σ')
    ∧ σ' !! container
      = Some (setChildren (childNodes oc ++ [header; box]) oc)
    ∧ boxed σ σ' container box (e0 :: rest) ds
    ∧ σ !! header = None ∧ σ !! t = None
    ∧ node σ' header (ElementKind h3) (Some container) [t]
    ∧ node σ' t (TextKind (c0 :: text0)) (Some header) []
    ∧ (∀ e, e ∈ e0 :: rest →
         ∃ o o', σ !! e = Some o ∧ σ' !! e = Some o' ∧ kind o' = kind o)
    ∧ (∀ r o, r ≠ container → r ∉ e0 :: rest → σ !! r = Some o →
              (∀ e, e ∈ e0 :: rest → e ∉ childNodes o) → σ' !! r = Some o)
    ∧ (∀ r, r ∉ e0 :: rest → stays σ σ' r).
Proof.
  intros Hc Hk Hroot Hcnot Hch [Hnd Hlive].
  set (elements := e0 :: rest) in *.
  destruct (header_spec container c0 text0 σ oc n Hc Hk Hroot)
    as (σh & header & t & Hhdr & Hhnew & Htnew & Hhnode & Htnode & Hch'
        & Hframe).
  assert (Hel : ∀ e, e ∈ elements →
            e ≠ header ∧ e ≠ t ∧ e ≠ container ∧ σh !! e = σ !! e).
  { intros e He. destruct (Hlive e He) as [o Ho].
    assert (e ≠ header) by congruence. assert (e ≠ t) by congruence.
    assert (e ≠ container) by (by intros ->).
    repeat (split; [done|]). by apply Hframe. }
  assert (Hnew : ∀ r, σh !! r = None → σ !! r = None).
  { intros r Hr. destruct (decide (r = header)) as [->|?]; [done|].
    destruct (decide (r = t)) as [->|?]; [done|].
    destruct (decide (r = container)) as [->|?]; [congruence|].
    by rewrite <- Hframe. }
  destruct (render_untitled container None e0 rest σh
              (setChildren (childNodes oc ++ [header]) oc) n)
    as (σ' & box & ds & Hrun & Hc' & Hboxed & Hkinds & Hkept & Hstays);
    try done.
  { by left. }
  { intros e He. cbn [setChildren childNodes].
    rewrite elem_of_app, list_elem_of_singleton.
    destruct (Hel e He) as (? & _).
    intros [Hin|Heq]; [by apply (Hch e He)|done]. }
  { split; [done|]. intros e He. destruct (Hel e He) as (_ & _ & _ & ->).
    by apply Hlive. }
  fold elements in Hrun, Hboxed, Hkinds, Hkept, Hstays.
  exists σ', box, ds, header, t. split.
  { unfold _renderElements, elements in *. unfold bind at 1.
    unfold bind, ret in Hhdr. unfold bind, ret. rewrite Hhdr.
    unfold bind, ret in Hrun. exact Hrun. }
  split.
  { rewrite Hc'. cbn [setChildren kind parentNode childNodes].
    by rewrite <- app_assoc. }
  split; [by eapply boxed_new|].
  split; [done|]. split; [done|].
  assert (Hte : ∀ e, e ∈ elements → e ∉ [t]).
  { intros e He. rewrite list_elem_of_singleton.
    by destruct (Hel e He) as (_ & ? & _). }
  assert (Hhel : header ∉ elements).
  { intros Hin. by destruct (Hel header Hin). }
  assert (Htel : t ∉ elements).
  { intros Hin. by destruct (Hel t Hin) as (_ & ? & _). }
  assert (Hhc : header ≠ container) by congruence.
  assert (Htc : t ≠ container) by congruence.
  split; [by apply Hkept|]. split.
  { apply Hkept; try done. intros e _. apply not_elem_of_nil. }
  split.
  { intros e He. destruct (Hkinds e He) as (o & o' & Ho & Ho' & Hk').
    destruct (Hel e He) as (_ & _ & _ & Heq).
    exists o, o'. split; [congruence|done]. }
  split.
  { intros r o Hrc Hrel Hr Hrch. apply Hkept; try done.
    rewrite Hframe; [done| | |done]; congruence. }
  intros r Hrel o Hr.
  destruct (decide (r = container)) as [->|Hrc].
  - destruct (Hstays container Hrel _ Hch') as (o' & Ho' & Hk' & Hp').
    rewrite Hc in Hr. injection Hr as <-. by exists o'.
  - apply Hstays; [done|]. rewrite Hframe; [done| |  |done]; congruence.
Qed.

Lemma renderElements_full (container : ref) (title : option jsstring)
    (elements : list ref) (σ : Store) :
  root_for σ container elements → entries σ elements →
  ∃ σ' added oc,
    σ !! container = Some oc
    ∧ _renderElements container title elements σ = inr (tt, σ')
    ∧ σ' !! container = Some (setChildren (childNodes oc ++ added) oc)
    ∧ rendered σ σ' container title elements added
    ∧ (∀ e, e ∈ elements →
         ∃ o o', σ !! e = Some o ∧ σ' !! e = Some o' ∧ kind o' = kind o)
    ∧ (∀ r o, r ≠ container → r ∉ elements → σ !! r = Some o →
              (∀ e, e ∈ elements → e ∉ childNodes o) → σ' !! r = Some o)
    ∧ (∀ r, r ∉ elements → stays σ σ' r).
Proof.
  intros (oc & n & Hc & Hk & Hroot & Hcnot & Hch) Hentries.
  destruct elements as [|e0 rest].
  { exists σ, [], oc. split; [done|]. split; [done|].
    split; [by rewrite app_nil_r, setChildren_same|].
    split; [done|]. split; [by intros e ?%elem_of_nil|].
    split; [done|]. intros r _. apply stays_refl. }
  assert (Hcases : title = None ∨ title = Some []
                   ∨ ∃ c0 text0, title = Some (c0 :: text0)).
  { destruct title as [[|c0 text0]|]; eauto. }
  destruct Hcases as [Ht|[Ht|(c0 & text0 & ->)]].
  - destruct (render_untitled container title e0 rest σ oc n)
      as (σ' & box & ds & Hrun & Hc' & Hboxed & Hkinds & Hkept & Hstays);
      try done; [by left|].
    exists σ', [box], oc. split; [done|]. split; [done|]. split; [done|].
    split; [|done]. exists box, ds. split; [done|]. by subst title.
  - destruct (render_untitled container title e0 rest σ oc n)
      as (σ' & box & ds & Hrun & Hc' & Hboxed & Hkinds & Hkept & Hstays);
      try done; [by right|].
    exists σ', [box], oc. split; [done|]. split; [done|]. split; [done|].
    split; [|done]. exists box, ds. split; [done|]. by subst title.
  - destruct (render_titled container c0 text0 e0 rest σ oc n)
      as (σ' & box & ds & header & t & Hrun & Hc' & Hboxed & Hhn & Htn
          & Hh & Ht & Hkinds & Hkept & Hstays); try done.
    exists σ', [header; box], oc.
    split; [done|]. split; [done|]. split; [done|].
    split; [|done]. exists box, ds. split; [done|]. by exists header, t.
Qed.

Lemma extends_of_stays (σ σ' : Store) (elements : list ref) :
  (∀ e, e ∈ elements →
     ∃ o o', σ !! e = Some o ∧ σ' !! e = Some o' ∧ kind o' = kind o) →
  (∀ r, r ∉ elements → stays σ σ' r) →
  extends σ σ'.
Proof.
  intros Hkinds Hstays r o Hr.
  destruct (decide (r ∈ elements)) as [Hin|Hout].
  - destruct (Hkinds r Hin) as (o1 & o' & Ho1 & Ho' & Hk).
    exists o'. split; [done|]. congruence.
  - destruct (Hstays r Hout o Hr) as (o' & Ho' & Hk & _). by exists o'.
Qed.

(** X23.  Let the container be an element of the store without parent,
    that is not one of the entry elements and has none of them among its
    children, and let the entry elements be pairwise distinct nodes of the
    store.  Then [_renderElements] does not throw.  Without elements the
    store is left as it is.  Otherwise the container gets, after its old
    children, a new [h3] header holding the title (when there is a title)
    and a new [content-box]; the children of the box are the elements in
    their order with one new [content-delimeter] between neighbours and
    none at the end, and every element has the box as parent.  No node of
    the store is lost or changes its kind. *)
Theorem X23_renderElements_separates_entries
    (container : ref) (title : option jsstring) (elements : list ref)
    (σ : Store) (o : Obj) (localName : jsstring) :
  σ !! container = Some o →
  kind o = ElementKind localName →
  parentNode o = None →
  container ∉ elements →
  (∀ e, e ∈ elements → e ∉ childNodes o) →
  NoDup elements →
  (∀ e, e ∈ elements → is_Some (σ !! e)) →
  ∃ σ' added,
    _renderElements container title elements σ = inr (tt, σ')
    ∧ node σ' container (kind o) None (childNodes o ++ added)
    ∧ rendered σ σ' container title elements added
    ∧ (elements = [] → σ' = σ)
    ∧ extends σ σ'.
Proof.
  intros Hc Hk Hp Hnotin Hchildren Hnd Hlive.
  assert (Hroot : root_for σ container elements).
  { exists o, localName. done. }
  assert (Hentries : entries σ elements) by done.
  destruct (renderElements_full container title elements σ Hroot Hentries)
    as (σ' & added & oc & Hc' & Hrun & Hc'' & Hrendered & Hkinds & _
        & Hstays).
  rewrite Hc in Hc'. injection Hc' as <-.
  exists σ', added. split; [done|]. split.
  { unfold node. rewrite Hc''. unfold setChildren. by rewrite Hp. }
  split; [done|]. split.
  { intros ->. cbn in Hrun. unfold ret in Hrun. congruence. }
  by eapply extends_of_stays.
Qed.

Lemma X23_renderElements_separates_entries_witness :
  ∃ o localName,
    Scenario3.store !! 4 = Some o
    ∧ kind o = ElementKind localName
    ∧ parentNode o = None
    ∧ (4 ∉ ([2; 3] : list ref))
    ∧ (∀ e, e ∈ ([2; 3] : list ref) → e ∉ childNodes o)
    ∧ NoDup ([2; 3] : list ref)
    ∧ (∀ e, e ∈ ([2; 3] : list ref) → is_Some (Scenario3.store !! e))
    ∧ ∃ σ' added,
        _renderElements 4 (Some (JS.lit "Methods")) [2; 3] Scenario3.store
        = inr (tt, σ')
        ∧ node σ' 4 (kind o) None (childNodes o ++ added)
        ∧ rendered Scenario3.store σ' 4 (Some (JS.lit "Methods")) [2; 3]
                   added
        ∧ (([2; 3] : list ref) = [] → σ' = Scenario3.store)
        ∧ extends Scenario3.store σ'.
Proof.
  assert (Hc : Scenario3.store !! 4
               = Some (mkObj (ElementKind pptr_api) None [])).
  { vm_compute. reflexivity. }
  assert (Hnotin : 4 ∉ ([2; 3] : list ref)) by not_listed.
  assert (Hchildren : ∀ e, e ∈ ([2; 3] : list ref) →
            e ∉ childNodes (mkObj (ElementKind pptr_api) None [])).
  { intros e He. cbn. apply not_elem_of_nil. }
  assert (Hnd : NoDup ([2; 3] : list ref)).
  { repeat (constructor; [not_listed|]). constructor. }
  assert (Hlive : ∀ e, e ∈ ([2; 3] : list ref) →
            is_Some (Scenario3.store !! e)).
  { intros e He. listed He; vm_compute; by eexists. }
  eexists _, _. split; [exact Hc|]. split; [reflexivity|].
  split; [reflexivity|]. split; [exact Hnotin|]. split; [exact Hchildren|].
  split; [exact Hnd|]. split; [exact Hlive|].
  exact (X23_renderElements_separates_entries 4 (Some (JS.lit "Methods"))
           [2; 3] Scenario3.store _ pptr_api Hc eq_refl eq_refl Hnotin
           Hchildren Hnd Hlive).
Defined.


Lemma extends_None (σ σ' : Store) :
  extends σ σ' → ∀ r, σ' !! r = None → σ !! r = None.
Proof.
  intros Hext r Hr. destruct (σ !! r) as [o|] eqn:Ho; [|done].
  destruct (Hext r o Ho) as (o' & Ho' & _). congruence.
Qed.

Lemma extends_trans (σ1 σ2 σ3 : Store) :
  extends σ1 σ2 → extends σ2 σ3 → extends σ1 σ3.
Proof.
  intros H12 H23 r o Ho. destruct (H12 r o Ho) as (o2 & Ho2 & Hk2).
  destruct (H23 r o2 Ho2) as (o3 & Ho3 & Hk3). exists o3.
  split; [done|]. congruence.
Qed.

Lemma rendered_new (σ0 σ1 σ : Store) (container : ref)
    (title : option jsstring) (elements added : list ref) :
  (∀ r, σ1 !! r = None → σ0 !! r = None) →
  rendered σ1 σ container title elements added →
  rendered σ0 σ container title elements added.
Proof.
  intros Hnew. unfold rendered. destruct elements as [|e0 rest]; [done|].
  intros (box & ds & Hboxed & Htitle). exists box, ds.
  split; [by eapply boxed_new|].
  destruct title as [[|c0 text0]|]; try done.
  destruct Htitle as (header & t & -> & Hh & Ht & Hhn & Htn).
  exists header, t. split; [done|]. split; [by apply Hnew|].
  split; [by apply Hnew|]. done.
Qed.

Lemma rendered_added_new (σ0 σ : Store) (container : ref)
    (title : option jsstring) (elements added : list ref) :
  rendered σ0 σ container title elements added →
  ∀ r, r ∈ added → σ0 !! r = None.
Proof.
  unfold rendered. destruct elements as [|e0 rest].
  { intros -> r Hr. by apply elem_of_nil in Hr. }
  intros (box & ds & (Hb & _) & Htitle) r Hr.
  assert (Hcase : added = [box] → σ0 !! r = None).
  { intros ->. by apply list_elem_of_singleton in Hr as ->. }
  destruct title as [[|c0 text0]|]; try by apply Hcase.
  destruct Htitle as (header & t & -> & Hh & Ht & _).
  apply elem_of_cons in Hr as [->|Hr]; [done|].
  by apply list_elem_of_singleton in Hr as ->.
Qed.

(** A rendered section is not disturbed by moving other, older nodes under
    the same container. *)
Lemma rendered_kept (σ0 σ σ' : Store) (container : ref)
    (title : option jsstring) (elements added moved : list ref) :
  rendered σ0 σ container title elements added →
  is_Some (σ0 !! container) →
  (∀ e, e ∈ moved → is_Some (σ0 !! e)) →
  (∀ e, e ∈ moved → e ∉ elements) →
  (∀ r o, r ≠ container → r ∉ moved → σ !! r = Some o →
          (∀ e, e ∈ moved → e ∉ childNodes o) → σ' !! r = Some o) →
  (∀ r, r ∉ moved → stays σ σ' r) →
  rendered σ0 σ' container title elements added.
Proof.
  intros Hr [ocn Hcn] Hold Hdisj Hkept Hstays. unfold rendered in *.
  destruct elements as [|e0 rest]; [done|].
  set (elements := e0 :: rest) in *.
  destruct Hr as (box & ds & (Hb & Hnode & Hlen & Hds & Hels) & Htitle).
  assert (Hnewold : ∀ r, σ0 !! r = None → r ≠ container ∧ r ∉ moved).
  { intros r Hr. split; [congruence|]. intros Hin.
    destruct (Hold r Hin). congruence. }
  exists box, ds. split.
  { split; [done|]. split.
    { destruct (Hnewold box Hb). apply Hkept; try done.
      intros e He Hin%elem_of_separated. destruct Hin as [Hin|Hin].
      - by apply (Hdisj e He).
      - destruct (Hds e Hin) as [Hn _]. destruct (Hold e He). congruence. }
    split; [done|]. split.
    { intros d Hd. destruct (Hds d Hd) as [Hn Hdn]. split; [done|].
      destruct (Hnewold d Hn). apply Hkept; try done.
      intros e _. apply not_elem_of_nil. }
    intros e He. destruct (Hels e He) as (o & Ho & Hp).
    assert (Hem : e ∉ moved) by (intros Hin; by apply (Hdisj e Hin)).
    destruct (Hstays e Hem o Ho) as (o' & Ho' & _ & Hp').
    exists o'. split; [done|]. congruence. }
  destruct title as [[|c0 text0]|]; try done.
  destruct Htitle as (header & t & -> & Hh & Ht & Hhn & Htn).
  exists header, t. split; [done|]. split; [done|]. split; [done|].
  destruct (Hnewold header Hh), (Hnewold t Ht). split.
  - apply Hkept; try done. intros e He ->%list_elem_of_singleton.
    destruct (Hold t He). congruence.
  - apply Hkept; try done. intros e _. apply not_elem_of_nil.
Qed.

Lemma showAPIClass_full (c : ClassElements) (σ : Store) :
  entries σ (class_entries c) →
  ∃ σ' page box a1 a2 a3,
    _showAPIClass c σ = inr (page, σ')
    ∧ σ !! page = None ∧ σ !! box = None
    ∧ node σ' page (ElementKind pptr_api) None (box :: a1 ++ a2 ++ a3)
    ∧ node σ' box (ElementKind content_box) (Some page) [element c]
    ∧ (∃ o, σ' !! element c = Some o ∧ parentNode o = Some box)
    ∧ rendered σ σ' page (Some (JS.lit "NameSpaces")) (namespaces c) a1
    ∧ rendered σ σ' page (Some (JS.lit "Events")) (events c) a2
    ∧ rendered σ σ' page (Some (JS.lit "Methods")) (methods c) a3
    ∧ extends σ σ'.
Proof.
  intros [Hnd Hlive]. unfold class_entries in *.
  set (el := element c) in *. set (ns := namespaces c) in *.
  set (ev := events c) in *. set (ms := methods c) in *.
  apply NoDup_cons in Hnd as [Hel Hnd].
  apply NoDup_app in Hnd as (Hndns & Hns & Hnd).
  apply NoDup_app in Hnd as (Hndev & Hev & Hndms).
  assert (Hin_ns : ∀ e, e ∈ ns → e ∈ el :: ns ++ ev ++ ms).
  { intros e He. apply elem_of_cons. right. apply elem_of_app. by left. }
  assert (Hin_ev : ∀ e, e ∈ ev → e ∈ el :: ns ++ ev ++ ms).
  { intros e He. apply elem_of_cons. right. apply elem_of_app. right.
    apply elem_of_app. by left. }
  assert (Hin_ms : ∀ e, e ∈ ms → e ∈ el :: ns ++ ev ++ ms).
  { intros e He. apply elem_of_cons. right. apply elem_of_app. right.
    apply elem_of_app. by right. }
  assert (Hel_ns : el ∉ ns).
  { intros Hin. apply Hel. apply elem_of_app. by left. }
  assert (Hel_ev : el ∉ ev).
  { intros Hin. apply Hel. apply elem_of_app. right. apply elem_of_app.
    by left. }
  assert (Hel_ms : el ∉ ms).
  { intros Hin. apply Hel. apply elem_of_app. right. apply elem_of_app.
    by right. }
  assert (Hev_ns : ∀ e, e ∈ ev → e ∉ ns).
  { intros e He Hin. apply (Hns e Hin). apply elem_of_app. by left. }
  assert (Hms_ns : ∀ e, e ∈ ms → e ∉ ns).
  { intros e He Hin. apply (Hns e Hin). apply elem_of_app. by right. }
  assert (Hms_ev : ∀ e, e ∈ ms → e ∉ ev).
  { intros e He Hin. by apply (Hev e Hin). }
  (* the page element *)
  set (page := fresh (dom σ)).
  set (σ1 := <[page := mkObj (ElementKind pptr_api) None []]> σ).
  assert (Hpage : σ !! page = None) by apply fresh_None.
  assert (Hp1 : σ1 !! page = Some (mkObj (ElementKind pptr_api) None []))
    by (unfold σ1; by rewrite lookup_insert_eq).
  assert (Hframe1 : ∀ r, r ≠ page → σ1 !! r = σ !! r).
  { intros r Hr. unfold σ1. by rewrite lookup_insert_ne. }
  (* its first box *)
  destruct (insertBox_spec page σ1 _ pptr_api Hp1 eq_refl eq_refl)
    as (σ2 & box & Hib & Hbnew1 & Hbnode2 & Hp2 & Hframe2).
  cbn [setChildren kind parentNode childNodes app] in Hp2.
  assert (Hbp : box ≠ page) by congruence.
  assert (Hbox : σ !! box = None) by (by rewrite <- Hframe1).
  assert (Hold : ∀ r o, σ !! r = Some o →
            r ≠ page ∧ r ≠ box ∧ σ2 !! r = Some o).
  { intros r o Hr. assert (r ≠ page) by congruence.
    assert (r ≠ box) by congruence.
    split; [done|]. split; [done|]. by rewrite Hframe2, Hframe1. }
  (* the element of the class goes into the box *)
  destruct (Hlive el ltac:(apply elem_of_cons; by left)) as [oel Hoel].
  destruct (Hold el oel Hoel) as (Help & Helb & Hel2).
  destruct (appendChild_ok box el σ2 _ content_box Hbnode2 eq_refl)
    as [σ3 Happ].
  { eapply not_ancestor_child; done. }
  pose proof (appendChild_parent box el σ2 σ3 oel Hel2 Helb Happ _ Hbnode2
                (or_intror (not_elem_of_nil el))) as Hb3.
  cbn [setChildren kind parentNode childNodes app] in Hb3.
  destruct (appendChild_child box el σ2 σ3 oel Hel2 Helb Happ)
    as (oel3 & Hel3 & Hkel3 & Hpel3).
  assert (Hp3 : σ3 !! page
                = Some (mkObj (ElementKind pptr_api) None [box])).
  { apply (appendChild_kept box el σ2 σ3 oel Hel2 Helb Happ page);
      [congruence|congruence|exact Hp2|].
    right. cbn. rewrite list_elem_of_singleton. congruence. }
  assert (Hstays3 : ∀ r, r ≠ el → stays σ2 σ3 r).
  { intros r Hr. by apply (appendChild_stays box el σ2 σ3 oel Hel2 Helb). }
  assert (Hext3 : extends σ σ3).
  { intros r o Hr. destruct (Hold r o Hr) as (? & ? & Hr2).
    destruct (decide (r = el)) as [->|Hne].
    - exists oel3. split; [done|]. congruence.
    - destruct (Hstays3 r Hne o Hr2) as (o' & ? & ? & _). by exists o'. }
  assert (Hlive3 : ∀ e, e ∈ el :: ns ++ ev ++ ms →
            is_Some (σ3 !! e) ∧ e ≠ page ∧ e ≠ box).
  { intros e He. destruct (Hlive e He) as [o Ho].
    destruct (Hold e o Ho) as (? & ? & _).
    destruct (Hext3 e o Ho) as (o' & ? & _). split; [by eexists|done]. }
  (* the namespaces *)
  destruct (renderElements_full page (Some (JS.lit "NameSpaces")) ns σ3)
    as (σ4 & a1 & oc4 & Hc4 & Hrun4 & Hp4 & R1 & Hkinds4 & Hkept4 & Hstays4).
  { eexists _, pptr_api. split; [exact Hp3|]. split; [done|].
    split; [done|]. split.
    - intros Hin. by destruct (Hlive3 page (Hin_ns _ Hin)) as (_ & ? & _).
    - intros e He. cbn. rewrite list_elem_of_singleton.
      by destruct (Hlive3 e (Hin_ns _ He)) as (_ & _ & ?). }
  { split; [done|]. intros e He. by destruct (Hlive3 e (Hin_ns _ He)). }
  rewrite Hp3 in Hc4. injection Hc4 as <-.
  cbn [setChildren kind parentNode childNodes] in Hp4.
  assert (Hext4 : extends σ3 σ4) by (by eapply extends_of_stays).
  (* the events *)
  destruct (renderElements_full page (Some (JS.lit "Events")) ev σ4)
    as (σ5 & a2 & oc5 & Hc5 & Hrun5 & Hp5 & R2 & Hkinds5 & Hkept5 & Hstays5).
  { eexists _, pptr_api. split; [exact Hp4|]. split; [done|].
    split; [done|]. split.
    - intros Hin. by destruct (Hlive3 page (Hin_ev _ Hin)) as (_ & ? & _).
    - intros e He. cbn.
      destruct (Hlive3 e (Hin_ev _ He)) as ([o Ho] & _ & ?).
      rewrite elem_of_cons.
      intros [?|Hin]; [done|].
      pose proof (rendered_added_new _ _ _ _ _ _ R1 e Hin). congruence. }
  { split; [done|]. intros e He.
    destruct (Hlive3 e (Hin_ev _ He)) as ([o Ho] & _).
    destruct (Hext4 e o Ho) as (o' & ? & _). by eexists. }
  rewrite Hp4 in Hc5. injection Hc5 as <-.
  cbn [setChildren kind parentNode childNodes] in Hp5.
  assert (Hext5 : extends σ4 σ5) by (by eapply extends_of_stays).
  (* the methods *)
  destruct (renderElements_full page (Some (JS.lit "Methods")) ms σ5)
    as (σ6 & a3 & oc6 & Hc6 & Hrun6 & Hp6 & R3 & Hkinds6 & Hkept6 & Hstays6).
  { eexists _, pptr_api. split; [exact Hp5|]. split; [done|].
    split; [done|]. split.
    - intros Hin. by destruct (Hlive3 page (Hin_ms _ Hin)) as (_ & ? & _).
    - intros e He. cbn.
      destruct (Hlive3 e (Hin_ms _ He)) as ([o Ho] & _ & ?).
      rewrite elem_of_cons, elem_of_app.
      intros [?|[Hin|Hin]]; [done| |].
      + pose proof (rendered_added_new _ _ _ _ _ _ R1 e Hin). congruence.
      + pose proof (rendered_added_new _ _ _ _ _ _ R2 e Hin).
        destruct (Hext4 e o Ho) as (o' & ? & _). congruence. }
  { split; [done|]. intros e He.
    destruct (Hlive3 e (Hin_ms _ He)) as ([o Ho] & _).
    destruct (Hext4 e o Ho) as (o' & Ho' & _).
    destruct (Hext5 e o' Ho') as (o'' & ? & _). by eexists. }
  rewrite Hp5 in Hc6. injection Hc6 as <-.
  cbn [setChildren kind parentNode childNodes] in Hp6.
  assert (Hext6 : extends σ5 σ6) by (by eapply extends_of_stays).
  exists σ6, page, box, a1, a2, a3. split.
  { unfold _showAPIClass, bind, ret, createElement.
    rewrite valid_pptr_api, lower_pptr_api. cbv beta iota zeta. fold page. fold σ1.
    rewrite Hib. fold el ns ev ms. rewrite Happ.
    unfold bind, ret in Hrun4, Hrun5, Hrun6.
    by rewrite Hrun4, Hrun5, Hrun6. }
  split; [done|]. split; [done|]. split.
  { unfold node. rewrite Hp6. cbn [app]. by rewrite <- !app_assoc. }
  assert (Hbox_kept : ∀ (σa σb : Store) (moved : list ref),
    (∀ r o, r ≠ page → r ∉ moved → σa !! r = Some o →
            (∀ e, e ∈ moved → e ∉ childNodes o) → σb !! r = Some o) →
    (∀ e, e ∈ moved → e ∈ el :: ns ++ ev ++ ms) → el ∉ moved →
    σa !! box = Some (mkObj (ElementKind content_box) (Some page) [el]) →
    σb !! box = Some (mkObj (ElementKind content_box) (Some page) [el])).
  { intros σa σb moved Hk Hm Helm Ha. apply Hk; try done.
    - intros Hin. by destruct (Hlive3 box (Hm _ Hin)) as (_ & _ & ?).
    - intros e He. cbn. rewrite list_elem_of_singleton. by intros ->. }
  split.
  { unfold node. eapply (Hbox_kept σ5 σ6 ms); try done.
    eapply (Hbox_kept σ4 σ5 ev); try done.
    eapply (Hbox_kept σ3 σ4 ns); done. }
  split.
  { destruct (Hstays4 el Hel_ns _ Hel3) as (o4 & Ho4 & _ & Hp4').
    destruct (Hstays5 el Hel_ev _ Ho4) as (o5 & Ho5 & _ & Hp5').
    destruct (Hstays6 el Hel_ms _ Ho5) as (o6 & Ho6 & _ & Hp6').
    exists o6. split; [done|]. congruence. }
  assert (Hlive3' : ∀ e, e ∈ el :: ns ++ ev ++ ms → is_Some (σ3 !! e)).
  { intros e He. by destruct (Hlive3 e He). }
  assert (Hlive4 : ∀ e, e ∈ el :: ns ++ ev ++ ms → is_Some (σ4 !! e)).
  { intros e He. destruct (Hlive3' e He) as [o Ho].
    destruct (Hext4 e o Ho) as (o' & ? & _). by eexists. }
  split.
  { eapply rendered_new; [by apply extends_None|].
    eapply (rendered_kept σ3 σ5 σ6 _ _ _ _ ms); try done.
    - eapply (rendered_kept σ3 σ4 σ5 _ _ _ _ ev); try done.
      intros e He. by apply Hlive3', Hin_ev.
    - intros e He. by apply Hlive3', Hin_ms. }
  split.
  { eapply rendered_new;
      [apply extends_None; by eapply extends_trans|].
    eapply (rendered_kept σ4 σ5 σ6 _ _ _ _ ms); try done.
    intros e He. by apply Hlive4, Hin_ms. }
  split.
  { eapply rendered_new; [|exact R3].
    apply extends_None.
    eapply extends_trans; [|exact Hext5].
    by eapply extends_trans. }
  eapply extends_trans; [|exact Hext6].
  eapply extends_trans; [|exact Hext5].
  by eapply extends_trans.
Qed.

(** X24.  [_showAPIClass] on pairwise distinct entry elements does not
    throw.  It answers a new [pptr-api] element whose children are a new
    [content-box] holding the element of the class, followed by what
    [_renderElements] adds for the namespaces, then for the events, then
    for the methods (nothing for an empty list).  No node of the store is
    lost or changes its kind. *)
Theorem X24_showAPIClass_page (c : ClassElements) (σ : Store) :
  entries σ (class_entries c) →
  ∃ σ' page box a1 a2 a3,
    _showAPIClass c σ = inr (page, σ')
    ∧ σ !! page = None ∧ σ !! box = None
    ∧ node σ' page (ElementKind pptr_api) None (box :: a1 ++ a2 ++ a3)
    ∧ node σ' box (ElementKind content_box) (Some page) [element c]
    ∧ (∃ o, σ' !! element c = Some o ∧ parentNode o = Some box)
    ∧ rendered σ σ' page (Some (JS.lit "NameSpaces")) (namespaces c) a1
    ∧ rendered σ σ' page (Some (JS.lit "Events")) (events c) a2
    ∧ rendered σ σ' page (Some (JS.lit "Methods")) (methods c) a3
    ∧ extends σ σ'.
Proof. apply showAPIClass_full. Qed.

Lemma entries_scenario :
  entries Scenario3.store (class_entries Scenario3.page).
Proof.
  split.
  - unfold class_entries. cbn.
    repeat (constructor; [not_listed|]). constructor.
  - intros e He. unfold class_entries in He. cbn in He.
    listed He; vm_compute; by eexists.
Defined.

Lemma X24_showAPIClass_page_witness :
  entries Scenario3.store (class_entries Scenario3.page)
  ∧ ∃ σ' page box a1 a2 a3,
      _showAPIClass Scenario3.page Scenario3.store = inr (page, σ')
      ∧ Scenario3.store !! page = None ∧ Scenario3.store !! box = None
      ∧ node σ' page (ElementKind pptr_api) None (box :: a1 ++ a2 ++ a3)
      ∧ node σ' box (ElementKind content_box) (Some page)
             [element Scenario3.page]
      ∧ (∃ o, σ' !! element Scenario3.page = Some o
              ∧ parentNode o = Some box)
      ∧ rendered Scenario3.store σ' page (Some (JS.lit "NameSpaces"))
                 (namespaces Scenario3.page) a1
      ∧ rendered Scenario3.store σ' page (Some (JS.lit "Events"))
                 (events Scenario3.page) a2
      ∧ rendered Scenario3.store σ' page (Some (JS.lit "Methods"))
                 (methods Scenario3.page) a3
      ∧ extends Scenario3.store σ'.
Proof.
  split; [exact entries_scenario|].
  exact (X24_showAPIClass_page Scenario3.page Scenario3.store
           entries_scenario).
Defined.


Lemma before_cons2 (r a b : ref) (l : list ref) :
  before r (a :: b :: l)
  = if decide (a = r) then None
    else if decide (b = r) then Some a else before r (b :: l).
Proof. done. Qed.

Lemma before_separated (elements : list ref) :
  ∀ (ds : list ref) (i : nat) (e : ref),
  NoDup elements → (∀ x, x ∈ elements → x ∉ ds) →
  S (length ds) = length elements →
  elements !! i = Some e →
  before e (separated elements ds)
  = match i with 0 => None | S j => ds !! j end.
Proof.
  induction elements as [|e0 es IH]; intros ds i e Hnd Hdisj Hlen Hi;
    [done|].
  destruct i as [|i].
  { injection Hi as ->. unfold separated. cbn [before].
    by rewrite decide_True. }
  cbn [lookup list_lookup] in Hi.
  destruct es as [|e1 es']; [done|]. destruct ds as [|d ds']; [done|].
  apply NoDup_cons in Hnd as [He0 Hnd].
  assert (Hin : e ∈ e1 :: es') by (by eapply list_elem_of_lookup_2).
  assert (Hne0 : e0 ≠ e) by (by intros ->).
  assert (Hned : d ≠ e).
  { intros ->. apply (Hdisj e); apply elem_of_cons; [by right|by left]. }
  specialize (IH ds' i e Hnd).
  unfold separated in *. cbn [zip_with concat app].
  rewrite before_cons2.
  rewrite (decide_False (P := e0 = e)), (decide_False (P := d = e)) by done.
  rewrite before_cons2. rewrite (decide_False (P := d = e)) by done.
  destruct i as [|j].
  { injection Hi as ->. by rewrite decide_True. }
  apply NoDup_cons in Hnd as [He1 _].
  assert (Hne1 : e1 ≠ e).
  { intros ->. apply He1. by eapply list_elem_of_lookup_2. }
  rewrite (decide_False (P := e1 = e)) by done.
  rewrite IH; [done| |cbn in *; lia|done].
  intros x Hx Hxd. apply (Hdisj x); apply elem_of_cons; by right.
Qed.

Lemma upper_content_box : toASCIIUpper content_box = JS.lit "CONTENT-BOX".
Proof. reflexivity. Qed.

Lemma upper_content_delimeter :
  toASCIIUpper content_delimeter = JS.lit "CONTENT-DELIMETER".
Proof. reflexivity. Qed.

(** The anchor of an element of a box. *)
Lemma anchor_in_box (σ0 σ : Store) (container box : ref)
    (elements ds : list ref) (i : nat) (e : ref) (fuel : nat) :
  boxed σ0 σ container box elements ds → NoDup elements →
  (∀ x, x ∈ elements → is_Some (σ0 !! x)) →
  elements !! i = Some e →
  ∃ anchor,
    _scrollAnchor (S fuel) σ e = Some (Some anchor)
    ∧ match i with
      | 0 => anchor
             = if decide (tagName σ e = Some (JS.lit "CONTENT-BOX"))
               then e else box
      | S j => ds !! j = Some anchor
      end.
Proof.
  intros (Hb & Hnode & Hlen & Hds & Hels) Hnd Hold Hi.
  assert (Hin : e ∈ elements) by (by eapply list_elem_of_lookup_2).
  destruct (Hels e Hin) as (o & Ho & Hp).
  assert (Htb : tagName σ box = Some (JS.lit "CONTENT-BOX")).
  { unfold tagName. unfold node in Hnode. by rewrite Hnode. }
  unfold _scrollAnchor, previousSibling. rewrite Ho.
  cbn [mbind option_bind]. rewrite Hp. unfold node in Hnode.
  rewrite Hnode. cbn [childNodes].
  rewrite (before_separated elements ds i e); try done.
  2:{ intros x Hx Hxd. destruct (Hds x Hxd) as [Hn _].
      destruct (Hold x Hx). congruence. }
  destruct i as [|j].
  - cbn [parentBox_loop]. destruct (decide (tagName σ e = _)) as [Ht|Ht].
    { by eexists. }
    assert (Hpe : parentElement σ e = Some box).
    { unfold parentElement. rewrite Ho. cbn [mbind option_bind].
      by rewrite Hp, Hnode. }
    rewrite Hpe. exists box. split; [|done].
    destruct fuel; cbn [parentBox_loop]; by rewrite decide_True.
  - assert (Hj : j < length ds).
    { apply lookup_lt_Some in Hi. lia. }
    destruct (lookup_lt_is_Some_2 ds j Hj) as [d Hd]. rewrite Hd.
    destruct (Hds d ltac:(by eapply list_elem_of_lookup_2)) as [_ Hdn].
    assert (Htd : tagName σ d = Some (JS.lit "CONTENT-DELIMETER")).
    { unfold tagName. unfold node in Hdn. by rewrite Hdn. }
    rewrite decide_True by done. by exists d.
Qed.

(** X25.  After [_showAPIClass], the scroll anchor of the element of a
    namespace, event or method is found in one round of the loop: for the
    first element of its list it is the content box of the list (or the
    element itself, when that is a [content-box]), for any other element
    it is the delimiter placed just before it. *)
Theorem X25_scrollAnchor_of_entry
    (c : ClassElements) (σ σ' : Store) (page : ref)
    (elements : list ref) (i : nat) (e : ref) (fuel : nat) :
  entries σ (class_entries c) →
  _showAPIClass c σ = inr (page, σ') →
  elements ∈ [namespaces c; events c; methods c] →
  elements !! i = Some e →
  ∃ box ds anchor,
    boxed σ σ' page box elements ds
    ∧ _scrollAnchor (S fuel) σ' e = Some (Some anchor)
    ∧ match i with
      | 0 => anchor
             = if decide (tagName σ' e = Some (JS.lit "CONTENT-BOX"))
               then e else box
      | S j => ds !! j = Some anchor
      end.
Proof.
  intros Hentries Hrun Hel Hi.
  destruct (showAPIClass_full c σ Hentries)
    as (σ'' & page' & box0 & a1 & a2 & a3 & Hrun' & _ & _ & _ & _ & _
        & R1 & R2 & R3 & _).
  rewrite Hrun in Hrun'. injection Hrun' as <- <-.
  destruct Hentries as [Hnd Hlive]. unfold class_entries in *.
  apply NoDup_cons in Hnd as [_ Hnd].
  apply NoDup_app in Hnd as (Hndns & _ & Hnd).
  apply NoDup_app in Hnd as (Hndev & _ & Hndms).
  assert (Hcase : ∃ title added,
            rendered σ σ' page title elements added ∧ NoDup elements
            ∧ ∀ x, x ∈ elements → is_Some (σ !! x)).
  { apply elem_of_cons in Hel as [->|Hel].
    { eexists _, _. split; [exact R1|]. split; [done|].
      intros x Hx. apply Hlive. apply elem_of_cons. right.
      apply elem_of_app. by left. }
    apply elem_of_cons in Hel as [->|Hel].
    { eexists _, _. split; [exact R2|]. split; [done|].
      intros x Hx. apply Hlive. apply elem_of_cons. right.
      apply elem_of_app. right. apply elem_of_app. by left. }
    apply list_elem_of_singleton in Hel as ->.
    eexists _, _. split; [exact R3|]. split; [done|].
    intros x Hx. apply Hlive. apply elem_of_cons. right.
    apply elem_of_app. right. apply elem_of_app. by right. }
  destruct Hcase as (title & added & R & Hndel & Hold).
  unfold rendered in R. destruct elements as [|e0 rest]; [done|].
  destruct R as (box & ds & Hboxed & _).
  destruct (anchor_in_box σ σ' page box (e0 :: rest) ds i e fuel
              Hboxed Hndel Hold Hi) as (anchor & Hanchor & Hmatch).
  by exists box, ds, anchor.
Qed.

Lemma X25_scrollAnchor_of_entry_witness :
  ∃ σ' page,
    entries Scenario3.store (class_entries Scenario3.page)
    ∧ _showAPIClass Scenario3.page Scenario3.store = inr (page, σ')
    ∧ ([2; 3] : list ref) ∈ [namespaces Scenario3.page;
                             events Scenario3.page;
                             methods Scenario3.page]
    ∧ ([2; 3] : list ref) !! 1 = Some 3
    ∧ ∃ box ds anchor,
        boxed Scenario3.store σ' page box [2; 3] ds
        ∧ _scrollAnchor 1 σ' 3 = Some (Some anchor)
        ∧ ds !! 0 = Some anchor.
Proof.
  assert (Hrun : ∃ σ' page,
            _showAPIClass Scenario3.page Scenario3.store = inr (page, σ')).
  { eexists _, _. vm_compute. reflexivity. }
  destruct Hrun as (σ' & page & Hrun). exists σ', page.
  assert (Hin : ([2; 3] : list ref) ∈ [namespaces Scenario3.page;
                                       events Scenario3.page;
                                       methods Scenario3.page]).
  { cbn. apply elem_of_cons. right. apply elem_of_cons. right.
    apply elem_of_cons. by left. }
  split; [exact entries_scenario|]. split; [exact Hrun|].
  split; [exact Hin|]. split; [reflexivity|].
  exact (X25_scrollAnchor_of_entry Scenario3.page Scenario3.store σ' page
           [2; 3] 1 3 0 entries_scenario Hrun Hin eq_refl).
Defined.


Lemma render_loop_app (box : ref) (l1 l2 : list ref) :
  ∀ (last0 : option ref) (σ : Store),
  render_loop box (l1 ++ l2) last0 σ
  = match render_loop box l1 last0 σ with
    | inl e => inl e
    | inr (last1, σ1) => render_loop box l2 last1 σ1
    end.
Proof.
  induction l1 as [|e l1 IH]; intros last0 σ; [done|].
  cbn [app render_loop]. unfold bind.
  destruct (render_step box e σ) as [err|[d σ1]]; [done|]. apply IH.
Qed.

Lemma ancestor_parent (σ : Store) (p c : ref) (oc : Obj) :
  σ !! c = Some oc → parentNode oc = Some p → p ≠ c →
  isInclusiveAncestor (S (size σ)) σ p c = true.
Proof.
  intros Hc Hp Hne. cbn [isInclusiveAncestor].
  rewrite decide_False by done. rewrite Hc. cbn [mbind option_bind].
  rewrite Hp. destruct (size σ) as [|k] eqn:Hsize.
  - apply map_size_empty_iff in Hsize. subst σ.
    by rewrite lookup_empty in Hc.
  - cbn [isInclusiveAncestor]. by rewrite decide_True.
Qed.

(** Without a title, the container is refused as soon as its turn comes. *)
Lemma untitled_refuses_container (container : ref) (title : option jsstring)
    (pre rest : list ref) (σ : Store) (oc : Obj) n :
  title = None ∨ title = Some [] →
  σ !! container = Some oc → kind oc = ElementKind n →
  parentNode oc = None → container ∉ pre →
  NoDup pre → (∀ e, e ∈ pre → is_Some (σ !! e)) →
  _renderElements container title (pre ++ container :: rest) σ
  = inl (DOMException "HierarchyRequestError").
Proof.
  intros Htitle Hc Hk Hroot Hnotin Hnd Hlive.
  destruct (insertBox_spec container σ oc n Hc Hk Hroot)
    as (σb & box & Hib & Hbnew & Hbnode & Hcb & Hframe).
  assert (Hbc : box ≠ container) by congruence.
  destruct (render_loop_spec container box content_box pre σb [] None
              _ Hbnode Hcb Hroot Hnd)
    as (σl & ds & Hloop & _ & _ & _ & Hbl & _ & _ & Hstays & _).
  { intros e He. destruct (Hlive e He) as [o Ho].
    assert (e ≠ box) by congruence.
    assert (e ≠ container) by (by intros ->).
    rewrite Hframe by done. split; [by eexists|].
    split; [done|]. split; [done|]. apply not_elem_of_nil. }
  assert (Hthrow : render_loop box (pre ++ container :: rest) None σb
                   = inl (DOMException "HierarchyRequestError")).
  { rewrite render_loop_app, Hloop. cbn [render_loop].
    unfold bind at 1. unfold render_step. unfold bind at 1.
    unfold appendChild. rewrite Hbl.
    cbn [fmap option_fmap option_map kind].
    by rewrite (ancestor_parent σl container box _ Hbl eq_refl). }
  assert (Hcons : ∃ e0 l, pre ++ container :: rest = e0 :: l).
  { destruct pre; by eexists _, _. }
  destruct Hcons as (e0 & l & Heq). rewrite Heq in *.
  unfold _renderElements.
  destruct Htitle as [-> | ->]; unfold bind, ret; by rewrite Hib, Hthrow.
Qed.

(** X30.  [_renderElements] throws [HierarchyRequestError] when the
    container is itself one of the elements: the elements before it are
    moved into the new box, and appending the container to the box, which
    is its own child, is refused. *)
Theorem X30_renderElements_refuses_container
    (container : ref) (title : option jsstring) (pre rest : list ref)
    (σ : Store) (o : Obj) (localName : jsstring) :
  σ !! container = Some o →
  kind o = ElementKind localName →
  parentNode o = None →
  container ∉ pre →
  NoDup pre →
  (∀ e, e ∈ pre → is_Some (σ !! e)) →
  _renderElements container title (pre ++ container :: rest) σ
  = inl (DOMException "HierarchyRequestError").
Proof.
  intros Hc Hk Hroot Hnotin Hnd Hlive.
  assert (Hcases : title = None ∨ title = Some []
                   ∨ ∃ c0 text0, title = Some (c0 :: text0)).
  { destruct title as [[|c0 text0]|]; eauto. }
  destruct Hcases as [Ht|[Ht|(c0 & text0 & ->)]].
  - eapply untitled_refuses_container; try done. by left.
  - eapply untitled_refuses_container; try done. by right.
  - destruct (header_spec container c0 text0 σ o localName Hc Hk Hroot)
      as (σh & header & t & Hhdr & Hhnew & Htnew & _ & _ & Hch & Hframe).
    assert (Hrun : _renderElements container None
                     (pre ++ container :: rest) σh
                   = inl (DOMException "HierarchyRequestError")).
    { eapply (untitled_refuses_container container None pre rest σh);
        try done; [by left|].
      intros e He. destruct (Hlive e He) as [oe Hoe].
      rewrite Hframe; [by eexists| | |]; [congruence|congruence|].
      by intros ->. }
    assert (Hcons : ∃ e0 l, pre ++ container :: rest = e0 :: l).
    { destruct pre; by eexists _, _. }
    destruct Hcons as (e0 & l & Heq). rewrite Heq in *.
    unfold _renderElements in *. unfold bind at 1.
    unfold bind, ret in Hhdr. unfold bind, ret. rewrite Hhdr.
    unfold bind, ret in Hrun. exact Hrun.
Qed.

Lemma X30_renderElements_refuses_container_witness :
  ∃ o localName,
    Scenario3.store !! 4 = Some o
    ∧ kind o = ElementKind localName
    ∧ parentNode o = None
    ∧ (4 ∉ ([2] : list ref))
    ∧ NoDup ([2] : list ref)
    ∧ (∀ e, e ∈ ([2] : list ref) → is_Some (Scenario3.store !! e))
    ∧ _renderElements 4 (Some (JS.lit "Methods")) ([2] ++ 4 :: [3])
        Scenario3.store
      = inl (DOMException "HierarchyRequestError").
Proof.
  assert (Hc : Scenario3.store !! 4
               = Some (mkObj (ElementKind pptr_api) None [])).
  { vm_compute. reflexivity. }
  assert (Hnotin : 4 ∉ ([2] : list ref)) by not_listed.
  assert (Hnd : NoDup ([2] : list ref)).
  { repeat (constructor; [not_listed|]). constructor. }
  assert (Hlive : ∀ e, e ∈ ([2] : list ref) →
            is_Some (Scenario3.store !! e)).
  { intros e He. listed He; vm_compute; by eexists. }
  eexists _, _. split; [exact Hc|]. split; [reflexivity|].
  split; [reflexivity|]. split; [exact Hnotin|]. split; [exact Hnd|].
  split; [exact Hlive|].
  exact (X30_renderElements_refuses_container 4 (Some (JS.lit "Methods"))
           [2] [3] Scenario3.store _ pptr_api Hc eq_refl eq_refl Hnotin
           Hnd Hlive).
Defined.

Lemma parentBox_loop_spec (σ : Store) (n : nat) :
  ∀ (fuel : nat) (r : ref),
  n ≤ fuel →
  (∀ k, k < n → ∃ a, ancestor σ k r = Some a ∧ ¬ is_content_box σ a) →
  match ancestor σ n r with
  | None => parentBox_loop fuel σ (Some r) = Some None
  | Some a =>
      is_content_box σ a → parentBox_loop fuel σ (Some r) = Some (Some a)
  end.
Proof.
  induction n as [|n IH]; intros fuel r Hfuel Hbefore.
  - cbn [ancestor]. intros Hbox. destruct fuel; cbn [parentBox_loop];
      by rewrite decide_True.
  - destruct (Hbefore 0 ltac:(lia)) as (a & [= <-] & Hnot).
    destruct fuel as [|fuel]; [lia|].
    cbn [parentBox_loop ancestor]. rewrite decide_False by done.
    destruct (parentElement σ r) as [p|] eqn:Hp;
      [|cbn [mbind option_bind]; by destruct fuel].
    cbn [mbind option_bind]. apply IH; [lia|].
    intros k Hk. destruct (Hbefore (S k) ltac:(lia)) as (a & Ha & Hna).
    cbn [ancestor] in Ha. rewrite Hp in Ha. by exists a.
Qed.

(** X28.  [_scrollAnchor] answers the previous sibling when that is a
    [CONTENT-DELIMETER] element.  Otherwise it answers the nearest
    [CONTENT-BOX] element among the element and its ancestor elements, and
    [null] when there is none; as many rounds of the loop as there are
    elements below that box (or in the whole chain) are enough. *)
Theorem X28_scrollAnchor_nearest_box
    (σ : Store) (e : ref) (n fuel : nat) :
  n ≤ fuel →
  (∀ k, k < n → ∃ a, ancestor σ k e = Some a ∧ ¬ is_content_box σ a) →
  match delimiterBefore σ e, ancestor σ n e with
  | Some d, _ => _scrollAnchor fuel σ e = Some (Some d)
  | None, None => _scrollAnchor fuel σ e = Some None
  | None, Some a =>
      is_content_box σ a → _scrollAnchor fuel σ e = Some (Some a)
  end.
Proof.
  intros Hfuel Hbefore.
  pose proof (parentBox_loop_spec σ n fuel e Hfuel Hbefore) as Hloop.
  unfold _scrollAnchor, delimiterBefore.
  destruct (previousSibling σ e) as [s|]; [|exact Hloop].
  destruct (decide (tagName σ s = _)); [done|exact Hloop].
Qed.

Lemma X28_scrollAnchor_nearest_box_witness :
  2 ≤ 2
  ∧ (∀ k, k < 2 →
       ∃ a, ancestor Scenario3.nested k 2 = Some a
            ∧ ¬ is_content_box Scenario3.nested a)
  ∧ match delimiterBefore Scenario3.nested 2,
          ancestor Scenario3.nested 2 2 with
    | Some d, _ => _scrollAnchor 2 Scenario3.nested 2 = Some (Some d)
    | None, None => _scrollAnchor 2 Scenario3.nested 2 = Some None
    | None, Some a =>
        is_content_box Scenario3.nested a →
        _scrollAnchor 2 Scenario3.nested 2 = Some (Some a)
    end.
Proof.
  assert (Hbefore : ∀ k, k < 2 →
            ∃ a, ancestor Scenario3.nested k 2 = Some a
                 ∧ ¬ is_content_box Scenario3.nested a).
  { intros [|[|k]] Hk; [exists 2|exists 1|lia];
      (split; [reflexivity|vm_compute; discriminate]). }
  split; [lia|]. split; [exact Hbefore|].
  exact (X28_scrollAnchor_nearest_box Scenario3.nested 2 2 2 (le_n 2)
           Hbefore).
Defined.

End PageFacts.


(** * The elements of a search item *)

Module SearchItemFacts.
Import Doc PageSpec SearchItemElements.

(** X26.  The first call of [iconElement] on an item whose icon tag name
    the document accepts creates a new element of that name (in lower
    case), without parent or children; every later call, on any store,
    answers that same element and changes neither the store nor the item.
    When the document refuses the icon tag name, the call throws
    [InvalidCharacterError].  Without an icon tag name the answer is
    [null] and nothing is created. *)
Theorem X26_iconElement_is_created_once
    (it : PPTRSearchItem.t) (σ : Store) :
  match PPTRSearchItem.iconTagName it with
  | [] => iconElement (new it) σ = inr ((None, new it), σ)
  | _ :: _ =>
      if validName (PPTRSearchItem.iconTagName it) then
        ∃ e this',
          iconElement (new it) σ
          = inr ((Some e, this'),
                 <[e := mkObj (ElementKind
                                 (toASCIILower
                                    (PPTRSearchItem.iconTagName it)))
                              None []]> σ)
          ∧ σ !! e = None
          ∧ item this' = it
          ∧ ∀ σ2, iconElement this' σ2 = inr ((Some e, this'), σ2)
      else
        iconElement (new it) σ = inl (DOMException "InvalidCharacterError")
  end.
Proof.
  destruct (PPTRSearchItem.iconTagName it) as [|c0 tag] eqn:Htag.
  - unfold iconElement, new. cbn [item _iconElement _subtitleElement].
    by rewrite Htag.
  - destruct (validName (c0 :: tag)) eqn:Hvalid.
    + eexists (fresh (dom σ)), _. split.
      { unfold iconElement, new. cbn [item _iconElement _subtitleElement].
        rewrite Htag. unfold bind, createElement, ret.
        rewrite Hvalid. reflexivity. }
      split; [apply StoreFacts.fresh_None|]. split; [done|].
      intros σ2. unfold iconElement.
      cbn [item _iconElement _subtitleElement]. done.
    + unfold iconElement, new. cbn [item _iconElement _subtitleElement].
      rewrite Htag. unfold bind, createElement. by rewrite Hvalid.
Qed.

(** X27.  [subtitleElement] answers [null] for an item without
    description, whatever was called before.  Otherwise the first call
    creates a new text node holding the description, and every later call
    answers that same node and changes neither the store nor the item. *)
Theorem X27_subtitleElement_is_created_once
    (it : PPTRSearchItem.t) (σ : Store) :
  match PPTRSearchItem.description it with
  | [] =>
      ∀ this, item this = it →
        subtitleElement this σ = inr ((None, this), σ)
  | _ :: _ =>
      ∃ e this',
        subtitleElement (new it) σ
        = inr ((Some e, this'),
               <[e := mkObj (TextKind (PPTRSearchItem.description it))
                            None []]> σ)
        ∧ σ !! e = None
        ∧ item this' = it
        ∧ ∀ σ2, subtitleElement this' σ2 = inr ((Some e, this'), σ2)
  end.
Proof.
  destruct (PPTRSearchItem.description it) as [|c0 text] eqn:Hd.
  - intros this <-. unfold subtitleElement. by rewrite Hd.
  - eexists (fresh (dom σ)), _. split.
    { unfold subtitleElement, new. cbn [item _iconElement _subtitleElement].
      rewrite Hd.
      unfold bind, createTextNode, ret. reflexivity. }
    split; [apply StoreFacts.fresh_None|]. split; [done|].
    intros σ2. unfold subtitleElement.
    cbn [item _iconElement _subtitleElement]. by rewrite Hd.
Qed.

End SearchItemFacts.

(** * The renderer with the name check *)

Module CheckedFacts.
Import DOM Render RenderSpec RenderSpec2 RenderFacts CheckedSpec.

Lemma create_highlight :
  Checked.createElement search_highlight
  = inr (DOM.createElement search_highlight).
Proof. reflexivity. Qed.

Lemma foldE_inr {A B} (f : A → B → Doc.Thrown + A) (g : A → B → A)
    (l : list B) :
  (∀ a b, f a b = inr (g a b)) →
  ∀ a, Checked.foldE f l a = inr (fold_left g l a).
Proof.
  intros Hfg. induction l as [|b l IH]; intros a; [done|].
  cbn [Checked.foldE fold_left]. rewrite Hfg. cbn [Checked.bind].
  apply IH.
Qed.

(** A loop over the tokens that stops at the first token whose tag name
    is refused. *)
Lemma foldE_tokens {A} (f : A → Token → Doc.Thrown + A)
    (g : A → Token → A) :
  (∀ a tok, f a tok = if accepted tok then inr (g a (lowerToken tok))
                      else inl InvalidCharacterError) →
  ∀ tokens a,
    Checked.foldE f tokens a
    = if forallb accepted tokens
      then inr (fold_left g (lowerToken <$> tokens) a)
      else inl InvalidCharacterError.
Proof.
  intros Hfg tokens. induction tokens as [|tok tokens IH]; intros a; [done|].
  cbn [Checked.foldE forallb]. rewrite Hfg, fmap_cons.
  destruct (accepted tok); [|done]. cbn [Checked.bind andb fold_left].
  apply IH.
Qed.

Lemma tagOf_lowerToken (tok : Token) :
  tagOf (lowerToken tok) = Doc.toASCIILower <$> tagOf tok.
Proof.
  unfold tagOf, lowerToken. cbn [Token.tagName].
  destruct (Token.tagName tok) as [[|c t]|]; done.
Qed.

Lemma scan_position_checked (tok tok' : Token) (off : nat) (M : gset Z)
    (st : LoopState) (to : nat) :
  Token.text tok' = Token.text tok →
  Checked.scan_position tok off M st to
  = inr (Render.scan_position tok' off M st to).
Proof.
  intros Htext. unfold Checked.scan_position, Render.scan_position.
  rewrite Htext.
  destruct (Bool.eqb _ _ && _); [done|].
  destruct (from st <? to); [|done].
  destruct (lastInsideHighlight st); [|done].
  by rewrite create_highlight.
Qed.

Lemma renderToken_checked (M : gset Z) (off : nat) (tok : Token) :
  Checked.renderToken M off tok
  = if accepted tok then inr (Render.renderToken M off (lowerToken tok))
    else inl InvalidCharacterError.
Proof.
  unfold Checked.renderToken, Render.renderToken, accepted.
  rewrite tagOf_lowerToken.
  assert (Hloop : ∀ r0,
    Checked.foldE (Checked.scan_position tok off M)
      (seq 0 (S (JS.length (Token.text tok)))) (mkLoop 0 false r0)
    = inr (fold_left (Render.scan_position (lowerToken tok) off M)
             (seq 0 (S (JS.length (Token.text (lowerToken tok)))))
             (mkLoop 0 false r0))).
  { intros r0. apply foldE_inr. intros a b.
    by apply scan_position_checked. }
  destruct (tagOf tok) as [t|]; cbn [fmap option_fmap option_map].
  - unfold Checked.createElement.
    destruct (Doc.validName t); [|done].
    cbn [Checked.bind]. by rewrite Hloop.
  - cbn [Checked.bind]. by rewrite Hloop.
Qed.

Lemma renderMatched_checked (M : gset Z) (st : Node * nat) (tok : Token) :
  Checked.renderMatched M st tok
  = if accepted tok then inr (Render.renderMatched M st (lowerToken tok))
    else inl InvalidCharacterError.
Proof.
  unfold Checked.renderMatched, Render.renderMatched.
  rewrite renderToken_checked. by destruct (accepted tok).
Qed.

Lemma renderPlain_checked (fragment : Node) (tok : Token) :
  Checked.renderPlain fragment tok
  = if accepted tok then inr (Render.renderPlain fragment (lowerToken tok))
    else inl InvalidCharacterError.
Proof.
  unfold Checked.renderPlain, Render.renderPlain, accepted.
  rewrite tagOf_lowerToken.
  destruct (tagOf tok) as [t|]; cbn [fmap option_fmap option_map]; [|done].
  unfold Checked.createElement. by destruct (Doc.validName t).
Qed.

(** The renderer throws when the tag name of some token is refused, and
    otherwise builds the fragment of [Render] for the tokens with their
    tag names in lower case. *)
Lemma render_checked (matches : list Z) (tokens : list Token) :
  Checked.renderTokensWithMatches matches tokens
  = if forallb accepted tokens
    then inr (Render.renderTokensWithMatches matches (lowerToken <$> tokens))
    else inl InvalidCharacterError.
Proof.
  unfold Checked.renderTokensWithMatches, Render.renderTokensWithMatches.
  destruct matches as [|z matches].
  - apply foldE_tokens, renderPlain_checked.
  - rewrite (foldE_tokens _ _ (renderMatched_checked _)).
    by destruct (forallb accepted tokens).
Qed.

Lemma totalLength_lower (tokens : list Token) :
  totalLength (lowerToken <$> tokens) = totalLength tokens.
Proof.
  unfold totalLength. f_equal. rewrite <- list_fmap_compose.
  by apply list_fmap_ext.
Qed.

Lemma validOffsets_lower (tokens : list Token) (matches : list Z) :
  validOffsets (lowerToken <$> tokens) matches = validOffsets tokens matches.
Proof. unfold validOffsets. by rewrite totalLength_lower. Qed.

Lemma text_lower (tokens : list Token) :
  Token.text <$> (lowerToken <$> tokens) = Token.text <$> tokens.
Proof. rewrite <- list_fmap_compose. by apply list_fmap_ext. Qed.

Lemma forallb_accepted (tokens : list Token) :
  forallb accepted tokens = true
  ↔ Forall (λ tok, accepted tok = true) tokens.
Proof.
  rewrite forallb_forall, Forall_forall.
  split; intros H tok Hin; apply H; by apply list_elem_of_In.
Qed.

(** X29.  The renderer throws [InvalidCharacterError] exactly when the
    document refuses the tag name of some token; otherwise it returns the
    fragment that [Render] builds for the same tokens with their tag names
    written in lower case. *)
Theorem X29_checked_renderer
    (matches : list Z) (tokens : list Token) :
  Checked.renderTokensWithMatches matches tokens
  = if forallb accepted tokens
    then inr (Render.renderTokensWithMatches matches (lowerToken <$> tokens))
    else inl InvalidCharacterError.
Proof. apply render_checked. Qed.

(** C10, as the code has it.  Whether the renderer throws does not depend
    on the offsets: it throws [InvalidCharacterError] exactly when the
    document refuses the tag name of some token.  Otherwise it returns a
    fragment, and offsets outside the concatenated text do not change
    what is rendered: the fragment built from [matches] and the one built
    from the offsets of [matches] that lie inside the text are equal once
    empty text nodes are left out, and they are equal as they stand
    provided some offset does lie inside, or [matches] is empty, or no
    token lacks both a tag and a text. *)
Theorem C10_offsets_out_of_range_ignored
    (matches : list Z) (tokens : list Token) :
  match Checked.renderTokensWithMatches matches tokens,
        Checked.renderTokensWithMatches (validOffsets tokens matches) tokens
  with
  | inr fragment, inr inside =>
      Forall (λ tok, accepted tok = true) tokens
      ∧ removeEmptyText fragment = removeEmptyText inside
      ∧ (validOffsets tokens matches ≠ []
         ∨ matches = []
         ∨ Forall (λ tok, tagOf tok = None → Token.text tok ≠ []) tokens →
         fragment = inside)
  | inl e, inl e' =>
      e = InvalidCharacterError ∧ e' = InvalidCharacterError
      ∧ ¬ Forall (λ tok, accepted tok = true) tokens
  | _, _ => False
  end.
Proof.
  rewrite !render_checked.
  destruct (forallb accepted tokens) eqn:Hacc.
  - apply forallb_accepted in Hacc. split; [done|].
    destruct (out_of_range_offsets_ignored matches (lowerToken <$> tokens))
      as [Hrem Heq].
    rewrite validOffsets_lower in Hrem, Heq. split; [done|].
    intros Hcond. apply Heq.
    destruct Hcond as [?|[?|Hall]]; [by left|by right; left|].
    right; right. apply Forall_fmap.
    eapply Forall_impl; [exact Hall|].
    intros tok Htok. cbn. rewrite tagOf_lowerToken.
    intros Hnone. apply Htok. by destruct (tagOf tok).
  - split; [done|]. split; [done|].
    intros Hall%forallb_accepted. congruence.
Qed.

(** A token whose tag name is not a name makes the renderer throw; and
    with no offset inside the text and a token without tag and text, the
    two fragments differ by an empty text node. *)
Lemma C10_throws_and_differs :
  Checked.renderTokensWithMatches [] [Scenario4.badToken]
  = inl InvalidCharacterError
  ∧ Checked.renderTokensWithMatches [100%Z] [Scenario.emptyToken]
    ≠ Checked.renderTokensWithMatches
        (validOffsets [Scenario.emptyToken] [100%Z]) [Scenario.emptyToken].
Proof. split; [reflexivity|]. vm_compute. discriminate. Qed.

Lemma C10_offsets_out_of_range_ignored_witness :
  ∃ fragment,
    Checked.renderTokensWithMatches [0; 5; 100]%Z Scenario.clickTokens
    = inr fragment
    ∧ Checked.renderTokensWithMatches
        (validOffsets Scenario.clickTokens [0; 5; 100]%Z)
        Scenario.clickTokens
      = inr fragment.
Proof.
  pose proof (C10_offsets_out_of_range_ignored [0; 5; 100]%Z
                Scenario.clickTokens) as H.
  destruct (Checked.renderTokensWithMatches [0; 5; 100]%Z
              Scenario.clickTokens) as [e|fragment];
    destruct (Checked.renderTokensWithMatches
                (validOffsets Scenario.clickTokens [0; 5; 100]%Z)
                Scenario.clickTokens) as [e'|inside]; try done.
  - destruct H as (_ & _ & Hnot). exfalso. apply Hnot. repeat constructor.
  - destruct H as (_ & _ & Heq). exists fragment. split; [done|].
    f_equal. symmetry. apply Heq. left. vm_compute. discriminate.
Defined.

(** X14.  When every token has a tag name that the document accepts, the
    renderer returns a fragment with exactly one child per token, in the
    order of the tokens: an element named by the token's tag name in lower
    case, whose text is the token's text, whatever the matched offsets. *)
Theorem X14_one_element_per_tagged_token
    (matches : list Z) (tokens : list Token) :
  Forall (λ tok, is_Some (tagOf tok)) tokens →
  Forall (λ tok, accepted tok = true) tokens →
  ∃ fragment,
    Checked.renderTokensWithMatches matches tokens = inr fragment
    ∧ length (childNodes fragment) = length tokens
    ∧ ∀ i tok, tokens !! i = Some tok →
        ∃ tag cs,
          tagOf tok = Some tag
          ∧ childNodes fragment !! i
            = Some (Element (Doc.toASCIILower tag) cs)
          ∧ flat_map textContent cs = Token.text tok.
Proof.
  intros Htagged Hacc. rewrite render_checked.
  apply forallb_accepted in Hacc. rewrite Hacc.
  eexists. split; [done|].
  destruct (RenderMore.one_element_per_tagged_token matches
              (lowerToken <$> tokens)) as [Hlen Hkids].
  { apply Forall_fmap. eapply Forall_impl; [exact Htagged|].
    intros tok [t Ht]. cbn. rewrite tagOf_lowerToken, Ht. by eexists. }
  split; [by rewrite Hlen, length_fmap|].
  intros i tok Hi.
  destruct (Hkids i (lowerToken tok)) as (tag' & cs & Htag' & Hkid & Htext).
  { by rewrite list_lookup_fmap, Hi. }
  rewrite tagOf_lowerToken in Htag'.
  destruct (tagOf tok) as [tag|]; [|done]. injection Htag' as <-.
  by exists tag, cs.
Qed.

Lemma X14_one_element_per_tagged_token_witness :
  Forall (λ tok, is_Some (tagOf tok)) [Scenario4.upperToken]
  ∧ Forall (λ tok, accepted tok = true) [Scenario4.upperToken]
  ∧ ∃ fragment,
      Checked.renderTokensWithMatches [0%Z] [Scenario4.upperToken]
      = inr fragment
      ∧ length (childNodes fragment) = length [Scenario4.upperToken]
      ∧ ∀ i tok, [Scenario4.upperToken] !! i = Some tok →
          ∃ tag cs,
            tagOf tok = Some tag
            ∧ childNodes fragment !! i
              = Some (Element (Doc.toASCIILower tag) cs)
            ∧ flat_map textContent cs = Token.text tok.
Proof.
  assert (H1 : Forall (λ tok, is_Some (tagOf tok)) [Scenario4.upperToken]).
  { repeat constructor. vm_compute. by eexists. }
  assert (H2 : Forall (λ tok, accepted tok = true) [Scenario4.upperToken]).
  { repeat constructor. }
  split; [exact H1|]. split; [exact H2|].
  exact (X14_one_element_per_tagged_token [0%Z] [Scenario4.upperToken] H1 H2).
Defined.

(** X16.  When the document accepts the tag names of the tokens and none
    of them is [search-highlight] in any case of letters, the renderer
    returns a fragment in which the text inside the [search-highlight]
    elements, read in order, is made of exactly the characters of the
    concatenated token texts whose offsets are in [matches]. *)
Theorem X16_highlighted_is_matched
    (matches : list Z) (tokens : list Token) :
  Forall (λ tok, accepted tok = true) tokens →
  Forall (λ tok, Doc.toASCIILower <$> tagOf tok ≠ Some search_highlight)
         tokens →
  ∃ fragment,
    Checked.renderTokensWithMatches matches tokens = inr fragment
    ∧ highlighted fragment
      = matchedText (list_to_set matches) 0 (mjoin (Token.text <$> tokens)).
Proof.
  intros Hacc Htags. rewrite render_checked.
  apply forallb_accepted in Hacc. rewrite Hacc.
  eexists. split; [done|].
  rewrite RenderMore.highlighted_render, text_lower; [done|].
  apply Forall_fmap. eapply Forall_impl; [exact Htags|].
  intros tok Htok. cbn. by rewrite tagOf_lowerToken.
Qed.

Lemma X16_highlighted_is_matched_witness :
  Forall (λ tok, accepted tok = true) Scenario.clickTokens
  ∧ Forall (λ tok, Doc.toASCIILower <$> tagOf tok ≠ Some search_highlight)
      Scenario.clickTokens
  ∧ ∃ fragment,
      Checked.renderTokensWithMatches [0; 1; 2; 3; 4; 5]%Z
        Scenario.clickTokens = inr fragment
      ∧ highlighted fragment
        = matchedText (list_to_set [0; 1; 2; 3; 4; 5]%Z) 0
            (mjoin (Token.text <$> Scenario.clickTokens)).
Proof.
  assert (H1 : Forall (λ tok, accepted tok = true) Scenario.clickTokens).
  { repeat constructor. }
  assert (H2 : Forall (λ tok, Doc.toASCIILower <$> tagOf tok
                              ≠ Some search_highlight)
                 Scenario.clickTokens).
  { repeat constructor; vm_compute; discriminate. }
  split; [exact H1|]. split; [exact H2|].
  exact (X16_highlighted_is_matched _ Scenario.clickTokens H1 H2).
Defined.

End CheckedFacts.

(** * A resolved until value and the releases before it *)

Module UntilFacts.
Import Lifespan.

(** Of three releases, only the oldest documents [page.close()]: its
    [until] value is the name of the middle release, and the newest
    release, right before the middle one in the array, lacks the method as
    well. *)
Lemma C7_absent_before_resolved_until :
  ∃ R3 R2 R1 o3 o2 o1,
    _initializeAPILifespan [Scenario4.p3; Scenario4.p2; Scenario4.p1]
    = inr [R3; R2; R1]
    ∧ Release.classesLifespan R1 !! JS.lit "Page" = Some o1
    ∧ untilOf Method o1 !! JS.lit "close" = Some (JS.lit "v2.0.0")
    ∧ Release.name R2 = JS.lit "v2.0.0"
    ∧ Release.classesLifespan R2 !! JS.lit "Page" = Some o2
    ∧ sinceOf Method o2 !! JS.lit "close" = None
    ∧ Release.name R3 = JS.lit "v3.0.0"
    ∧ Release.classesLifespan R3 !! JS.lit "Page" = Some o3
    ∧ sinceOf Method o3 !! JS.lit "close" = None.
Proof.
  do 6 eexists.
  repeat (split; [vm_compute; reflexivity|]).
  vm_compute. reflexivity.
Qed.

End UntilFacts.
